(** * AI Chess Arena: the match engine, the move parser and the chaos policy

    A shallow embedding of [lib/chess-utils.ts] ([parseUciMove], [isSquare],
    [squareToIndex], [boardToFen], [applyChaosMove]) and of the ply loop of
    [app/api/match/route.ts] ([POST], [buildResult]).

    Conventions.
    - JavaScript strings are modelled as [string] (sequences of 8-bit
      characters); case folding and the character classes of the regular
      expressions are the ASCII ones.
    - A JavaScript number that holds milliseconds or minutes is a double,
      modelled by its value, a rational [Q]; [NaN] and the infinities are
      explicit where the code tests for them. The product that sets the
      initial clock is rounded as the product of two doubles is
      ([Double.mul]); the differences, minima and maxima that the loop takes
      of a clock and a whole number of milliseconds are doubles again and
      need no rounding.
    - The rules library (chess.js) and the model call are collaborators: the
      engine is a function of a rules library, given as section variables,
      and of an agent oracle indexed by ply. *)

From Stdlib Require Import ZArith QArith Qminmax Lqa Lia Bool Ascii String List.
From Stdlib Require Import Qround Qabs Qpower.
From Stdlib Require Import DecimalString.
From stdpp Require Import base list.
Import ListNotations.

Local Open Scope list_scope.
Local Open Scope string_scope.

(** ** Strings the way the JavaScript code uses them *)

Module Js.

Definition code (c : ascii) : nat := nat_of_ascii c.

Definition between (lo hi : nat) (c : ascii) : bool :=
  (lo <=? code c)%nat && (code c <=? hi)%nat.

(** [\s] and [String.prototype.trim] on the ASCII range: TAB, LF, VT, FF,
    CR and SPACE. *)
Definition is_space (c : ascii) : bool :=
  between 9 13 c || (code c =? 32)%nat.

Definition is_upper (c : ascii) : bool := between 65 90 c.
Definition is_lower (c : ascii) : bool := between 97 122 c.
Definition is_digit (c : ascii) : bool := between 48 57 c.

Definition lower_char (c : ascii) : ascii :=
  if is_upper c then ascii_of_nat (code c + 32) else c.

Fixpoint toLowerCase (s : string) : string :=
  match s with
  | EmptyString => EmptyString
  | String c s' => String (lower_char c) (toLowerCase s')
  end.

Fixpoint filter (keep : ascii -> bool) (s : string) : string :=
  match s with
  | EmptyString => EmptyString
  | String c s' => if keep c then String c (filter keep s') else filter keep s'
  end.

Fixpoint trimStart (s : string) : string :=
  match s with
  | EmptyString => EmptyString
  | String c s' => if is_space c then trimStart s' else s
  end.

Fixpoint rev_onto (s acc : string) : string :=
  match s with
  | EmptyString => acc
  | String c s' => rev_onto s' (String c acc)
  end.

Definition rev (s : string) : string := rev_onto s EmptyString.

Definition trimEnd (s : string) : string := rev (trimStart (rev s)).

Definition trim (s : string) : string := trimEnd (trimStart s).

(** [s.slice(i, j)] for [0 <= i <= j]. *)
Definition slice (i j : nat) (s : string) : string := substring i (j - i) s.

(** [s[i]]: [None] stands for [undefined]. *)
Definition at_ (i : nat) (s : string) : option ascii := get i s.

(** [s.startsWith(p)], returning what follows the prefix. *)
Fixpoint strip_prefix (p s : string) : option string :=
  match p, s with
  | EmptyString, _ => Some s
  | String a p', String c s' =>
      if Ascii.eqb a c then strip_prefix p' s' else None
  | String _ _, EmptyString => None
  end.

(** [hay.includes(needle)] *)
Fixpoint includes (needle hay : string) : bool :=
  match strip_prefix needle hay with
  | Some _ => true
  | None =>
      match hay with
      | EmptyString => false
      | String _ hay' => includes needle hay'
      end
  end.

Fixpoint char_in (c : ascii) (s : string) : bool :=
  match s with
  | EmptyString => false
  | String a s' => Ascii.eqb a c || char_in c s'
  end.

(** [s.split(" ")] *)
Fixpoint split_on (sep : ascii) (cur : string) (s : string) : list string :=
  match s with
  | EmptyString => [rev cur]
  | String c s' =>
      if Ascii.eqb c sep then rev cur :: split_on sep EmptyString s'
      else split_on sep (String c cur) s'
  end.

Definition split (sep : ascii) (s : string) : list string :=
  split_on sep EmptyString s.

(** [parts.join(sep)] *)
Fixpoint join (sep : string) (parts : list string) : string :=
  match parts with
  | [] => EmptyString
  | [x] => x
  | x :: rest => x ++ sep ++ join sep rest
  end.

Definition digit_val (c : ascii) : Z := Z.of_nat (code c - 48).

Fixpoint digits_prefix (s : string) (acc : option Z) : option Z :=
  match s with
  | EmptyString => acc
  | String c s' =>
      if is_digit c
      then digits_prefix s'
             (Some (10 * match acc with Some a => a | None => 0 end
                    + digit_val c)%Z)
      else acc
  end.

(** [parseInt(s, 10)]: leading white space, an optional sign, then the
    longest run of decimal digits; [None] stands for [NaN]. *)
Definition parseInt (s : string) : option Z :=
  match trimStart s with
  | String "-" s' => option_map Z.opp (digits_prefix s' None)
  | String "+" s' => digits_prefix s' None
  | s' => digits_prefix s' None
  end.

(** [`${n}`] for an integer [n]. *)
Definition of_int (n : Z) : string := NilZero.string_of_int (Z.to_int n).

End Js.

(** ** Chess data shared with the rules library *)

(** chess.js [Color], ['w' | 'b']; the engine's ["white" | "black"] is the
    same two-valued type under another spelling. *)
Inductive Color := White | Black.

(** chess.js [PieceSymbol], ['p' | 'n' | 'b' | 'r' | 'q' | 'k']. *)
Inductive PieceSymbol := Pawn | Knight | Bishop | Rook | Queen | King.

(** An occupied square of [Chess.board()]; its [square] field, which
    nothing reads, is left out. *)
Record Piece := mkPiece { type : PieceSymbol; color : Color }.

Abbreviation Board := (list (list (option Piece))).

#[global] Instance Color_eq_dec : EqDecision Color.
Proof. solve_decision. Defined.
#[global] Instance PieceSymbol_eq_dec : EqDecision PieceSymbol.
Proof. solve_decision. Defined.
#[global] Instance Piece_eq_dec : EqDecision Piece.
Proof. solve_decision. Defined.

Definition other (c : Color) : Color :=
  match c with White => Black | Black => White end.

Definition color_char (c : Color) : string :=
  match c with White => "w" | Black => "b" end.

Definition color_name (c : Color) : string :=
  match c with White => "white" | Black => "black" end.

Definition symbol_char (t : PieceSymbol) : ascii :=
  match t with
  | Pawn => "p" | Knight => "n" | Bishop => "b"
  | Rook => "r" | Queen => "q" | King => "k"
  end%char.

Definition symbol_of_char (c : ascii) : option PieceSymbol :=
  if Ascii.eqb c "p" then Some Pawn
  else if Ascii.eqb c "n" then Some Knight
  else if Ascii.eqb c "b" then Some Bishop
  else if Ascii.eqb c "r" then Some Rook
  else if Ascii.eqb c "q" then Some Queen
  else if Ascii.eqb c "k" then Some King
  else None.

Definition upper_char (c : ascii) : ascii :=
  if Js.is_lower c then ascii_of_nat (Js.code c - 32) else c.

(** ** lib/chess-utils.ts *)

Definition files : list ascii := ["a"; "b"; "c"; "d"; "e"; "f"; "g"; "h"]%char.

(** What [parseUciMove] returns when it does not return [null]. *)
Record UciMove := mkUci {
  from : string;
  to : string;
  promotion : option PieceSymbol
}.

(** [/^[a-h][1-8]$/.test(value)] *)
Definition isSquare (value : string) : bool :=
  match value with
  | String f (String r EmptyString) => Js.between 97 104 f && Js.between 49 56 r
  | _ => false
  end.

(** [.replace(/[^a-z0-9]/g, empty)]: every character that is not a
    lowercase letter or a digit is removed. *)
Definition strip_non_alnum (s : string) : string :=
  Js.filter (fun c => Js.is_lower c || Js.is_digit c) s.

(** [.replace(/^move:?/i, empty)]: a leading "move", with a colon after it
    if there is one, is removed. *)
Definition strip_move_label (s : string) : string :=
  match Js.strip_prefix "move" (Js.toLowerCase s) with
  | Some _ =>
      let rest := Js.slice 4 (String.length s) s in
      match rest with
      | String ":" rest' => rest'
      | _ => rest
      end
  | None => s
  end.

(** The [cleaned] constant of [parseUciMove]. *)
Definition clean (raw : string) : string :=
  Js.trim (strip_move_label (strip_non_alnum (Js.toLowerCase (Js.trim raw)))).

Definition parseUciMove (raw : string) : option UciMove :=
  let cleaned := clean raw in
  if String.eqb cleaned "resign" || String.eqb cleaned EmptyString then None
  else if (String.length cleaned <? 4)%nat || (5 <? String.length cleaned)%nat
  then None
  else
    let from := Js.slice 0 2 cleaned in
    let to := Js.slice 2 4 cleaned in
    if negb (isSquare from) || negb (isSquare to) then None
    else
      match Js.at_ 4 cleaned with
      | Some promotion =>
          if negb (Js.char_in promotion "qrbn")
          then Some (mkUci from to None)
          else Some (mkUci from to (symbol_of_char promotion))
      | None => Some (mkUci from to None)
      end.

(** [files.indexOf(c)], [None] for [-1]. *)
Fixpoint indexOf (c : ascii) (l : list ascii) : option nat :=
  match l with
  | [] => None
  | a :: l' => if Ascii.eqb a c then Some 0%nat else option_map S (indexOf c l')
  end.

(** [squareToIndex]: [{ rank, file }] as a pair. The argument has the type
    [Square]; on a string whose file letter is not in [files] or whose rank
    is not a digit from 1 to 8 the indices would fall outside the board, and
    the result is [None]. *)
Definition squareToIndex (square : string) : option (nat * nat) :=
  match Js.at_ 0 square, Js.at_ 1 square with
  | Some f, Some r =>
      match indexOf f files, Js.parseInt (String r EmptyString) with
      | Some file, Some d =>
          let rank := (8 - d)%Z in
          if (0 <=? rank)%Z && (rank <? 8)%Z then Some (Z.to_nat rank, file)
          else None
      | _, _ => None
      end
  | _, _ => None
  end.

(** The letter [boardToFen] writes for an occupied square. *)
Definition piece_letter (sq : Piece) : string :=
  let symbol := symbol_char (type sq) in
  match color sq with
  | White => String (upper_char symbol) EmptyString
  | Black => String (Js.lower_char symbol) EmptyString
  end.

(** The body of the [for (const square of rank)] loop of [boardToFen], with
    its two locals [empty] and [row], and the statement after the loop. *)
Fixpoint rankToFen (rank : list (option Piece)) (empty : nat) (row : string)
  : string :=
  match rank with
  | [] => if (empty =? 0)%nat then row else row ++ Js.of_int (Z.of_nat empty)
  | None :: rest => rankToFen rest (S empty) row
  | Some sq :: rest =>
      let row := if (empty =? 0)%nat then row
                 else row ++ Js.of_int (Z.of_nat empty) in
      rankToFen rest 0 (row ++ piece_letter sq)
  end.

Definition boardToFen (board : Board) : string :=
  Js.join "/" (map (fun rank => rankToFen rank 0 EmptyString) board).

(** [a[i] = x] on a JavaScript array: an index past the end extends the
    array, the skipped slots reading as [undefined] ([hole]). *)
Definition array_set {A} (i : nat) (x hole : A) (l : list A) : list A :=
  if decide (i < length l)%nat then <[i := x]> l
  else (l ++ replicate (i - length l) hole ++ [x])%list.

(** [board[rank][file]], [undefined] and [null] both read as [None]. *)
Definition board_get (board : Board) (rank file : nat) : option Piece :=
  match board !! rank with
  | Some row => match row !! file with Some sq => sq | None => None end
  | None => None
  end.

(** [board[rank][file] = x]; [None] when [board[rank]] is [undefined] and the
    assignment throws a [TypeError]. *)
Definition board_set (board : Board) (rank file : nat) (x : option Piece)
  : option Board :=
  match board !! rank with
  | Some row => Some (<[rank := array_set file x None row]> board)
  | None => None
  end.

Record ChaosResult := mkChaos { chaos_fen : string; chaos_san : string }.

Definition promotion_text (promotion : option PieceSymbol) : string :=
  match promotion with
  | Some t => String (symbol_char t) EmptyString
  | None => EmptyString
  end.

(** The part of [applyChaosMove] after [const board = base.board()]: the two
    assignments to the board. *)
Definition chaosBoard (board : Board) (uci : UciMove) (color : Color)
  : option Board :=
  match squareToIndex (from uci), squareToIndex (to uci) with
  | Some (fromRank, fromFile), Some (toRank, toFile) =>
      match board !! fromRank with
      | None => None
      | Some _ =>
          let existing := board_get board fromRank fromFile in
          let piece :=
            match existing with
            | Some pc => pc
            | None => mkPiece (default Pawn (promotion uci)) color
            end in
          match board_set board fromRank fromFile None with
          | None => None
          | Some board1 =>
              board_set board1 toRank toFile
                (Some (mkPiece (default (type piece) (promotion uci)) color))
          end
      end
  | _, _ => None
  end.

Definition nextFullmove (color : Color) (fullmoveNumber : Z) : Z :=
  match color with Black => fullmoveNumber + 1 | White => fullmoveNumber end%Z.

(** [applyChaosMove] once [new Chess(fen).board()] has produced [board]. *)
Definition applyChaosMoveOn (board : Board) (uci : UciMove) (color : Color)
    (fullmoveNumber : Z) : option ChaosResult :=
  match chaosBoard board uci color with
  | None => None
  | Some board' =>
      let placement := boardToFen board' in
      let nextTurn := other color in
      let nextFen :=
        placement ++ " " ++ color_char nextTurn ++ " - - 0 "
          ++ Js.of_int (nextFullmove color fullmoveNumber) in
      Some (mkChaos nextFen
              (from uci ++ to uci ++ promotion_text (promotion uci)))
  end.

(** ** Vocabulary of the statements about [lib/chess-utils.ts] *)

Fixpoint all_chars (P : ascii -> bool) (s : string) : bool :=
  match s with
  | EmptyString => true
  | String c s' => P c && all_chars P s'
  end.

Definition alnum (c : ascii) : bool := Js.is_lower c || Js.is_digit c.

(** The cleaned text in the words of the specification: lowercase, keep
    the letters and digits, drop one leading "move". *)
Definition cleaned_text (raw : string) : string :=
  let kept := Js.filter alnum (Js.toLowerCase raw) in
  match Js.strip_prefix "move" kept with
  | Some rest => rest
  | None => kept
  end.

(** A square in the words of the specification: a file letter from a to h
    followed by a rank digit from 1 to 8. *)
Definition squarePattern (s : string) : bool :=
  match s with
  | String file (String rank EmptyString) =>
      Js.char_in file "abcdefgh" && Js.char_in rank "12345678"
  | _ => false
  end.

(** The promotion piece in the words of the specification: the fifth
    character when it is one of q, r, b, n. *)
Definition promotion_of (fifth : option ascii) : option PieceSymbol :=
  match fifth with
  | Some "q"%char => Some Queen
  | Some "r"%char => Some Rook
  | Some "b"%char => Some Bishop
  | Some "n"%char => Some Knight
  | _ => None
  end.

Definition not_space (c : ascii) : bool := negb (Ascii.eqb c " ").

Abbreviation nospace := (all_chars not_space).

(** Reading a JavaScript array slot, [undefined] read as [None]. *)
Definition row_get (row : list (option Piece)) (file : nat) : option Piece :=
  match row !! file with Some sq => sq | None => None end.

(** The place of a square on a board as chess.js lays it out and as a
    piece placement lists it, the eighth rank first and the a-file first:
    the row of "e4" is 8 - 4 and its column is 4, the place of e among the
    letters from a. *)
Definition rowOf (square : string) : nat :=
  match square with
  | String _ (String rank _) => (Js.code "8" - Js.code rank)%nat
  | _ => 0%nat
  end.

Definition columnOf (square : string) : nat :=
  match square with
  | String file _ => (Js.code file - Js.code "a")%nat
  | EmptyString => 0%nat
  end.

(** A board of eight ranks of eight squares. *)
Definition eightByEight (board : Board) : Prop :=
  length board = 8%nat /\ Forall (fun rank => length rank = 8%nat) board.

(** The piece that [applyChaosMove] writes on the destination square. *)
Definition placed (board : Board) (uci : UciMove) (color : Color)
    (fromRank fromFile : nat) : Piece :=
  mkPiece
    match promotion uci with
    | Some t => t
    | None =>
        match board_get board fromRank fromFile with
        | Some existing => type existing
        | None => Pawn
        end
    end
    color.


(** ** The rules library (chess.js) as the engine sees it *)

(** What [chess.move] returns for an accepted move, and an element of
    [chess.moves({ verbose: true })]. *)
Record MoveResult := mkMove {
  move_from : string;
  move_to : string;
  move_promotion : option PieceSymbol;
  move_san : string
}.

(** The template [moveResult.from], [moveResult.to], then
    [moveResult.promotion] when there is one. *)
Definition moveUciOf (moveResult : MoveResult) : string :=
  move_from moveResult ++ move_to moveResult
    ++ promotion_text (move_promotion moveResult).

(** The methods of a chess.js [Chess] object that the engine calls. A [Chess]
    object is mutable; here [t] is the value of the object at one moment and
    [move], the only mutating method, returns the new value. *)
Module Chess.
Record lib := {
  t : Type;
  (** [new Chess()] *)
  new : t;
  (** [new Chess(fen)]; [None] when the constructor throws *)
  load : string -> option t;
  fen : t -> string;
  turn : t -> Color;
  (** [chess.move(text, { sloppy: true })]; [None] when it returns [null]
      or throws *)
  move : t -> string -> option (MoveResult * t);
  get : t -> string -> option Piece;
  moves : t -> list MoveResult;
  board : t -> Board;
  history : t -> list string;
  pgn : t -> string;
  isCheckmate : t -> bool;
  isStalemate : t -> bool;
  isThreefoldRepetition : t -> bool;
  isInsufficientMaterial : t -> bool;
  isDraw : t -> bool
}.
End Chess.

(** [applyChaosMove]; [None] when it throws. *)
Definition applyChaosMove (L : Chess.lib) (fen : string) (uci : UciMove)
    (color : Color) (fullmoveNumber : Z) : option ChaosResult :=
  match Chess.load L fen with
  | None => None
  | Some base => applyChaosMoveOn (Chess.board L base) uci color fullmoveNumber
  end.

(** ** lib/types.ts *)

Inductive MatchMode := strict | chaos | bullet.

#[global] Instance MatchMode_eq_dec : EqDecision MatchMode.
Proof. solve_decision. Defined.

Inductive MatchReason :=
  | checkmate | resignation | illegal | timeout | stalemate
  | fifty_move | insufficient | threefold | max_move.

Inductive Winner := wins (c : Color) | draw.

Record MatchClocks := mkClocks { whiteMs : Q; blackMs : Q }.

(** An object with one field per color, [{ white, black }]. *)
Record PerColor (A : Type) := mkPerColor { white : A; black : A }.
Arguments mkPerColor {A} _ _.
Arguments white {A} _.
Arguments black {A} _.

Definition pc_get {A} (r : PerColor A) (c : Color) : A :=
  match c with White => white r | Black => black r end.

Definition pc_set {A} (r : PerColor A) (c : Color) (x : A) : PerColor A :=
  match c with
  | White => mkPerColor x (black r)
  | Black => mkPerColor (white r) x
  end.

Record IllegalMoveSummary := mkSummary {
  by_ : Color;
  summary_move : string;
  summary_reason : string;
  strikes : nat;
  summary_ply : nat
}.

Record MatchResult := mkResult {
  winner : Winner;
  reason : MatchReason;
  moves : list string;
  pgn : string;
  illegalCounts : PerColor nat;
  clocks : option MatchClocks;
  finalFen : string;
  lastIllegalMoves : option (PerColor (option IllegalMoveSummary))
}.

(** The texts of the status events, before formatting. *)
Inductive StatusMessage :=
  | MatchStarting
  | FlaggedOnTime (activeColor : Color) (moveTime : Z)
  | ProducedEmptyMove (activeColor : Color) (strikes : nat)
  | ModelError (activeColor : Color) (message : string)
  | PlayedIllegalMove (activeColor : Color) (cleaned reason : string)
      (strikes : nat)
  | ChaosInvalidBoard.

Record MatchMoveEvent := mkMoveEvent {
  ev_move : string;
  ev_fen : string;
  ev_san : option string;
  ev_displayMoveNum : option nat;
  ev_ply : nat;
  ev_activeColor : Color;
  ev_illegalCounts : PerColor nat;
  ev_clocks : option MatchClocks;
  ev_note : option string;
  ev_timestamp : Z
}.

Inductive MatchStreamEvent :=
  | StatusEvent (message : StatusMessage)
      (illegalCounts : option (PerColor nat)) (clocks : option MatchClocks)
      (illegalMove : option IllegalMoveSummary)
  | MoveEvent (e : MatchMoveEvent)
  | EndEvent (result : MatchResult).

Definition is_end (e : MatchStreamEvent) : bool :=
  match e with EndEvent _ => true | _ => false end.

(** ** Doubles

    The arithmetic of IEEE 754 binary64 on the values of the doubles: the
    result of an operation is the double nearest to the exact result, the
    one with an even significand when two are equally near. *)

Module Double.

(** The exponent [e] of the binade of a positive number:
    [2^e <= x < 2^(e+1)]. *)
Definition exponent (x : Q) : Z :=
  let e := (Z.log2 (Qnum x) - Z.log2 (Z.pos (Qden x)))%Z in
  if Qle_bool (2 ^ e) x then e else (e - 1)%Z.

(** The integer nearest to [y], the even one of two that are equally
    near. *)
Definition roundEven (y : Q) : Z :=
  let f := Qfloor y in
  match (y - inject_Z f ?= 1 # 2)%Q with
  | Lt => f
  | Gt => (f + 1)%Z
  | Eq => if Z.even f then f else (f + 1)%Z
  end.

(** The distance between the doubles around [x]: a significand has 53
    bits, and the subnormal doubles are [2^-1074] apart. *)
Definition ulp (x : Q) : Q :=
  2 ^ Z.max (exponent (Qabs x) - 52) (-1074).

(** The double nearest to [x], for an [x] that is not beyond the largest
    double. *)
Definition round (x : Q) : Q :=
  if Qeq_bool x 0 then 0
  else Qred (inject_Z (roundEven (x / ulp x)) * ulp x).

(** [x * y] on doubles *)
Definition mul (x y : Q) : Q := round (x * y).

End Double.

(** ** The request: mode and clock *)

(** A JavaScript number as far as the request handling tells values apart;
    [Finite q] is the double of value [q]. *)
Inductive JsNumber := NaN | Infinity (negative : bool) | Finite (q : Q).

Record MatchRequest := mkRequest {
  mode : MatchMode;
  clockMinutes : option JsNumber
}.

Definition isBullet (mode : MatchMode) : bool :=
  match mode with bullet => true | _ => false end.

(** [Number(clockMinutes ?? 3)] *)
Definition requestedMinutes (clockMinutes : option JsNumber) : JsNumber :=
  default (Finite 3) clockMinutes.

(** [Number.isFinite(requestedMinutes) ? requestedMinutes : 3] *)
Definition safeClockMinutes (clockMinutes : option JsNumber) : Q :=
  match requestedMinutes clockMinutes with
  | Finite q => q
  | _ => 3
  end.

(** [isBullet ? Math.min(3, Math.max(1, safeClockMinutes)) * 60_000 : 0] *)
Definition initialClockMs (req : MatchRequest) : Q :=
  if isBullet (mode req)
  then Double.mul (Qmin 3 (Qmax 1 (safeClockMinutes (clockMinutes req)))) 60000
  else 0.

Definition MAX_PLY : nat := 400.

(** [parseInt(process.env.MOVE_TIMEOUT_MS ?? "12000", 10)] *)
Definition MOVE_TIMEOUT_MS_of_env (env : option string) : option Z :=
  Js.parseInt (default "12000" env).

(** ** The model call *)

(** How [await fetchMove(...)] ends: it returns the trimmed text of the
    model, or it throws an error with a [message]. The retries of [fetchMove]
    happen inside the call. *)
Inductive FetchOutcome := Returned (rawMove : string) | Threw (message : string).

(** One think step: the outcome of the call and [Date.now() - moveStartTime]
    in milliseconds. *)
Record Think := mkThink { outcome : FetchOutcome; moveTime : Z }.

(** The acting models, as an oracle. The prompt is a function of the state
    of the loop, which the answers given at earlier plies determine, so the
    oracle is indexed by the ply; it also receives the acting color and the
    per-move timeout of the request. *)
Definition Agent := nat -> Color -> Q -> Think.

(** ** app/api/match/route.ts *)

Section Match.

Variable L : Chess.lib.
Variable MOVE_TIMEOUT_MS : Q.
Variable req : MatchRequest.
Variable agent : Agent.

Abbreviation ChessT := (Chess.t L).

Record LastIllegal := mkLastIllegal {
  moveText : string;
  lastReason : string
}.

(** The local variables of [start(controller)]. *)
Record State := mkState {
  st_fen : string;
  st_chess : ChessT;
  st_fullmove : Z;
  st_illegalCounts : PerColor nat;
  st_moves : list string;
  st_lastIllegal : PerColor (option LastIllegal);
  st_lastIllegalMoves : PerColor (option IllegalMoveSummary);
  st_clocks : PerColor Q
}.

Definition buildResult (winner : Winner) (reason : MatchReason)
    (moves : list string) (illegalCounts : PerColor nat) (chess : ChessT)
    (clocks : option MatchClocks)
    (lastIllegalMoves : option (PerColor (option IllegalMoveSummary)))
  : MatchResult :=
  let pgn :=
    if (0 <? length (Chess.history L chess))%nat
    then Chess.pgn L chess
    else Js.join " " moves in
  mkResult winner reason moves pgn illegalCounts clocks
    (Chess.fen L chess) lastIllegalMoves.

Definition resultFromDraw (reason : MatchReason) (moves : list string)
    (illegalCounts : PerColor nat) (chess : ChessT)
    (clocks : option MatchClocks)
    (lastIllegalMoves : option (PerColor (option IllegalMoveSummary)))
  : MatchResult :=
  buildResult draw reason moves illegalCounts chess clocks lastIllegalMoves.

Definition bulletMode : bool := isBullet (mode req).

(** [mode === "strict" || mode === "bullet"] *)
Definition strikesForfeit : bool :=
  match mode req with strict | bullet => true | chaos => false end.

(** [{ whiteMs: clocks.white, blackMs: clocks.black }] *)
Definition snapshot (clocks : PerColor Q) : MatchClocks :=
  mkClocks (white clocks) (black clocks).

(** [isBullet ? { whiteMs: clocks.white, blackMs: clocks.black } : undefined] *)
Definition clocksField (clocks : PerColor Q) : option MatchClocks :=
  if bulletMode then Some (snapshot clocks) else None.

(** The timeout handed to [fetchMove]; [c || MOVE_TIMEOUT_MS] takes the
    second operand when [c] is zero. *)
Definition perMoveTimeout (clock : Q) : Q :=
  if bulletMode
  then Qmax 500
         (Qmin MOVE_TIMEOUT_MS
            (if Qeq_bool clock 0 then MOVE_TIMEOUT_MS else clock))
  else MOVE_TIMEOUT_MS.

(** [clocks[activeColor] = Math.max(0, clocks[activeColor] - moveTime)] *)
Definition charge (clocks : PerColor Q) (activeColor : Color) (moveTime : Z)
  : PerColor Q :=
  pc_set clocks activeColor
    (Qmax 0 (pc_get clocks activeColor - inject_Z moveTime)).

(** [parseInt(fen.split(" ")[5], 10) || fullmove] *)
Definition fullmoveOf (fen : string) (fullmove : Z) : Z :=
  match Js.split " " fen !! 5%nat with
  | Some field =>
      match Js.parseInt field with
      | Some n => if (n =? 0)%Z then fullmove else n
      | None => fullmove
      end
  | None => fullmove
  end.

(** [Math.floor(moves.length / 2) + 1] *)
Definition displayMoveNumOf (moves : list string) : nat :=
  (length moves / 2 + 1)%nat.

(** How one run of the body of the [for] loop ends: at the end of the body
    or at a [continue] (the loop goes on with the new locals), at a
    [return] after [controller.close()], or by an exception that nothing
    catches. Each carries the events sent meanwhile. *)
Inductive Step :=
  | Continue (st : State) (sent : list MatchStreamEvent)
  | Closed (sent : list MatchStreamEvent)
  | Thrown (sent : list MatchStreamEvent).

(** The [if (isBullet) { ... }] block that both branches of the think step
    start with: the clocks after charging, and the events of a flag fall. *)
Definition flagged (st : State) (activeColor : Color) (moveTime : Z)
  : PerColor Q * option (list MatchStreamEvent) :=
  if bulletMode then
    let clocks := charge (st_clocks st) activeColor moveTime in
    if Qle_bool (pc_get clocks activeColor) 0 then
      let clockSnapshot := snapshot clocks in
      let result :=
        buildResult (wins (other activeColor)) timeout (st_moves st)
          (st_illegalCounts st) (st_chess st) (Some clockSnapshot) None in
      (clocks,
       Some [StatusEvent (FlaggedOnTime activeColor moveTime)
               (Some (st_illegalCounts st)) (Some clockSnapshot) None;
             EndEvent result])
    else (clocks, None)
  else (st_clocks st, None).

(** The rejection reason of an illegal attempt. *)
Definition rejectionReason (chess : ChessT) (activeColor : Color)
    (parsedUci : option UciMove) : string :=
  match parsedUci with
  | Some u =>
      match Chess.get L chess (from u) with
      | None => "No piece on " ++ from u
      | Some piece =>
          if negb (bool_decide (color piece = Chess.turn L chess))
          then "Piece on " ++ from u ++ " is not " ++ color_name activeColor
          else
            let isLegal :=
              existsb
                (fun m =>
                   String.eqb (move_from m) (from u)
                   && String.eqb (move_to m) (to u)
                   && match promotion u with
                      | None => true
                      | Some _ =>
                          bool_decide (move_promotion m = promotion u)
                      end)
                (Chess.moves L chess) in
            if negb isLegal
            then "Move violates chess rules (blocked/check/etc.)"
            else "Illegal move in current position"
      end
  | None => "Could not parse move text"
  end.

(** The [if (emptyMove) { ... }] block. *)
Definition emptyMoveBranch (st : State) (ply : nat) (activeColor : Color)
    (clocks : PerColor Q) : Step :=
  let illegalCounts :=
    pc_set (st_illegalCounts st) activeColor
      (pc_get (st_illegalCounts st) activeColor + 1)%nat in
  let reason := "Model returned an empty move" in
  let lastIllegal :=
    pc_set (st_lastIllegal st) activeColor
      (Some (mkLastIllegal "(empty)" reason)) in
  let summary :=
    mkSummary activeColor "(empty)" reason
      (pc_get illegalCounts activeColor) ply in
  let lastIllegalMoves :=
    pc_set (st_lastIllegalMoves st) activeColor (Some summary) in
  let status :=
    StatusEvent
      (ProducedEmptyMove activeColor (pc_get illegalCounts activeColor))
      (Some illegalCounts) (clocksField clocks) (Some summary) in
  if strikesForfeit && (3 <=? pc_get illegalCounts activeColor)%nat then
    let result :=
      buildResult (wins (other activeColor)) illegal (st_moves st)
        illegalCounts (st_chess st) (clocksField clocks)
        (Some lastIllegalMoves) in
    Closed [status; EndEvent result]
  else
    Continue
      (mkState (st_fen st) (st_chess st) (st_fullmove st) illegalCounts
         (st_moves st) lastIllegal lastIllegalMoves clocks)
      [status].

(** The [if (fetchErr) { ... }] block after the clock has been charged. *)
Definition fetchErrBranch (st : State) (ply : nat) (activeColor : Color)
    (clocks : PerColor Q) (message : string) : Step :=
  let emptyMove := Js.includes "empty move" (Js.toLowerCase message) in
  if emptyMove then emptyMoveBranch st ply activeColor clocks
  else
    let winner := wins (other activeColor) in
    let result :=
      buildResult winner timeout (st_moves st) (st_illegalCounts st)
        (st_chess st) (clocksField clocks) (Some (st_lastIllegalMoves st)) in
    Closed
      [StatusEvent
         (ModelError activeColor
            (if String.eqb message EmptyString then "Model call failed or timed out"
             else message))
         None None None;
       EndEvent result].

(** The [if (!moveResult) { ... }] block. *)
Definition illegalBranch (st : State) (ply : nat) (activeColor : Color)
    (clocks : PerColor Q) (moveTime : Z) (rawTrimmed cleaned : string)
  : Step :=
  let chess := st_chess st in
  let illegalCounts :=
    pc_set (st_illegalCounts st) activeColor
      (pc_get (st_illegalCounts st) activeColor + 1)%nat in
  let parsedUci := parseUciMove cleaned in
  let reason := rejectionReason chess activeColor parsedUci in
  let lastIllegal :=
    pc_set (st_lastIllegal st) activeColor
      (Some (mkLastIllegal rawTrimmed reason)) in
  let summary :=
    mkSummary activeColor
      (if String.eqb rawTrimmed EmptyString then "(empty move)" else rawTrimmed)
      reason (pc_get illegalCounts activeColor) ply in
  let lastIllegalMoves :=
    pc_set (st_lastIllegalMoves st) activeColor (Some summary) in
  let status :=
    StatusEvent
      (PlayedIllegalMove activeColor
         (if String.eqb cleaned EmptyString then "empty" else cleaned) reason
         (pc_get illegalCounts activeColor))
      (Some illegalCounts) (clocksField clocks) (Some summary) in
  (* what follows the chaos block, for the locals it leaves *)
  let after (fen : string) (chess : ChessT) (fullmove : Z)
        (moves : list string) (sent : list MatchStreamEvent) : Step :=
    if strikesForfeit && (3 <=? pc_get illegalCounts activeColor)%nat then
      let result :=
        buildResult (wins (other activeColor)) illegal moves illegalCounts
          chess (clocksField clocks) (Some lastIllegalMoves) in
      Closed (sent ++ [EndEvent result])%list
    else
      Continue
        (mkState fen chess fullmove illegalCounts moves lastIllegal
           lastIllegalMoves clocks)
        sent in
  match (if bool_decide (mode req = chaos) then parseUciMove cleaned
         else None) with
  | Some parsedChaos =>
      match applyChaosMove L (st_fen st) parsedChaos (Chess.turn L chess)
              (st_fullmove st) with
      | None => Thrown [status]
      | Some chaosMove =>
          let fen := chaos_fen chaosMove in
          match Chess.load L fen with
          | None =>
              let result :=
                buildResult (wins (other activeColor)) illegal (st_moves st)
                  illegalCounts chess (clocksField clocks)
                  (Some lastIllegalMoves) in
              Closed
                [status;
                 StatusEvent ChaosInvalidBoard (Some illegalCounts)
                   (clocksField clocks) None;
                 EndEvent result]
          | Some chess' =>
              let fullmove := fullmoveOf fen (st_fullmove st) in
              let moves := (st_moves st ++ [chaos_san chaosMove])%list in
              after fen chess' fullmove moves
                [status;
                 MoveEvent
                   (mkMoveEvent (chaos_san chaosMove) fen
                      (Some (chaos_san chaosMove))
                      (Some (displayMoveNumOf moves)) ply activeColor
                      illegalCounts (clocksField clocks)
                      (Some "Chaos move executed despite illegality")
                      moveTime)]
          end
      end
  | None =>
      after (st_fen st) chess (st_fullmove st) (st_moves st) [status]
  end.

(** The end of the loop body, after [chess.move] has accepted the move and
    left the object in the state [chess]. *)
Definition legalBranch (st : State) (ply : nat) (activeColor : Color)
    (clocks : PerColor Q) (moveTime : Z) (moveResult : MoveResult)
    (chess : ChessT) : Step :=
  let moveUci := moveUciOf moveResult in
  let displayMoveNum := displayMoveNumOf (st_moves st) in
  let moves := (st_moves st ++ [moveUci])%list in
  let fen := Chess.fen L chess in
  let fullmove := fullmoveOf fen (st_fullmove st) in
  let illegalCounts := pc_set (st_illegalCounts st) activeColor 0%nat in
  let lastIllegal := pc_set (st_lastIllegal st) activeColor None in
  let lastIllegalMoves := st_lastIllegalMoves st in
  let moveEvent :=
    MoveEvent
      (mkMoveEvent moveUci fen (Some (move_san moveResult))
         (Some displayMoveNum) ply activeColor illegalCounts
         (clocksField clocks) None moveTime) in
  let finish (result : MatchResult) : Step :=
    Closed [moveEvent; EndEvent result] in
  if Chess.isCheckmate L chess then
    finish (buildResult (wins activeColor) checkmate moves illegalCounts
              chess (clocksField clocks) (Some lastIllegalMoves))
  else if Chess.isStalemate L chess then
    finish (resultFromDraw stalemate moves illegalCounts chess
              (clocksField clocks) (Some lastIllegalMoves))
  else if Chess.isThreefoldRepetition L chess then
    finish (resultFromDraw threefold moves illegalCounts chess
              (clocksField clocks) (Some lastIllegalMoves))
  else if Chess.isInsufficientMaterial L chess then
    finish (resultFromDraw insufficient moves illegalCounts chess
              (clocksField clocks) (Some lastIllegalMoves))
  else if Chess.isDraw L chess then
    finish (resultFromDraw fifty_move moves illegalCounts chess
              (clocksField clocks) (Some lastIllegalMoves))
  else
    Continue
      (mkState fen chess fullmove illegalCounts moves lastIllegal
         lastIllegalMoves clocks)
      [moveEvent].

(** What follows a think step that returned [rawMove], after the clock has
    been charged. *)
Definition returnedBranch (st : State) (ply : nat) (activeColor : Color)
    (clocks : PerColor Q) (moveTime : Z) (rawMove : string) : Step :=
  let rawTrimmed := Js.trim rawMove in
  let cleaned := Js.toLowerCase rawTrimmed in
  if String.eqb cleaned "resign" then
    let winner := wins (other activeColor) in
    let result :=
      buildResult winner resignation (st_moves st) (st_illegalCounts st)
        (st_chess st) (clocksField clocks) (Some (st_lastIllegalMoves st)) in
    Closed
      [MoveEvent
         (mkMoveEvent "resign" (st_fen st) None None ply activeColor
            (st_illegalCounts st) (clocksField clocks) None moveTime);
       EndEvent result]
  else
    match Chess.move L (st_chess st) rawTrimmed with
    | None => illegalBranch st ply activeColor clocks moveTime rawTrimmed cleaned
    | Some (moveResult, chess) =>
        legalBranch st ply activeColor clocks moveTime moveResult chess
    end.

(** One run of the body of [for (let ply = 0; ply < MAX_PLY; ply++)]. *)
Definition plyBody (st : State) (ply : nat) : Step :=
  let activeColor := Chess.turn L (st_chess st) in
  let think :=
    agent ply activeColor (perMoveTimeout (pc_get (st_clocks st) activeColor)) in
  match flagged st activeColor (moveTime think) with
  | (_, Some sent) => Closed sent
  | (clocks, None) =>
      match outcome think with
      | Threw message => fetchErrBranch st ply activeColor clocks message
      | Returned rawMove =>
          returnedBranch st ply activeColor clocks (moveTime think) rawMove
      end
  end.

(** What the consumer of the stream observes: the events enqueued, and
    whether [controller.close()] was reached. *)
Record Stream := mkStream { sent : list MatchStreamEvent; closed : bool }.

Definition emit (evs : list MatchStreamEvent) (s : Stream) : Stream :=
  mkStream (evs ++ sent s)%list (closed s).

(** The [for] loop with [n] iterations left, followed by the statements
    after it. *)
Fixpoint plyLoop (n : nat) (ply : nat) (st : State) : Stream :=
  match n with
  | O =>
      let result :=
        resultFromDraw max_move (st_moves st) (st_illegalCounts st)
          (st_chess st) (clocksField (st_clocks st))
          (Some (st_lastIllegalMoves st)) in
      mkStream [EndEvent result] true
  | S n' =>
      match plyBody st ply with
      | Continue st' evs => emit evs (plyLoop n' (S ply) st')
      | Closed evs => mkStream evs true
      | Thrown evs => mkStream evs false
      end
  end.

(** The locals of [start] before the first event; [None] when
    [new Chess(fen)] throws. *)
Definition initialState : option State :=
  let fen := Chess.fen L (Chess.new L) in
  match Chess.load L fen with
  | None => None
  | Some chess =>
      Some (mkState fen chess 1 (mkPerColor 0 0)%nat []
              (mkPerColor None None) (mkPerColor None None)
              (mkPerColor (initialClockMs req) (initialClockMs req)))
  end.

(** [start(controller)]: the stream of one match. *)
Definition start : Stream :=
  match initialState with
  | None => mkStream [] false
  | Some st =>
      emit
        [StatusEvent MatchStarting None
           (if bulletMode then Some (snapshot (st_clocks st)) else None)
           None]
        (plyLoop MAX_PLY 0 st)
  end.

(** The locals at the head of the iteration [ply], when the loop gets
    there. *)
Fixpoint stateAt (ply : nat) : option State :=
  match ply with
  | O => initialState
  | S k =>
      match stateAt k with
      | Some st =>
          match plyBody st k with
          | Continue st' _ => Some st'
          | _ => None
          end
      | None => None
      end
  end.

End Match.

Arguments mkState {L} _ _ _ _ _ _ _ _.
Arguments st_fen {L} _.
Arguments st_chess {L} _.
Arguments st_fullmove {L} _.
Arguments st_illegalCounts {L} _.
Arguments st_moves {L} _.
Arguments st_lastIllegal {L} _.
Arguments st_lastIllegalMoves {L} _.
Arguments st_clocks {L} _.
Arguments Continue {L} _ _.
Arguments Closed {L} _.
Arguments Thrown {L} _.

(** ** A scripted rules library and scripted agents, for concrete matches

    A stand-in for chess.js that knows a few positions. Its constructor
    checks what the constructor of chess.js checks that can fail on a FEN
    produced by [applyChaosMove] (one king of each color, no pawn on the
    first or last rank); its [move] accepts the moves of a table, each a
    legal chess move in the position it is listed for, given in coordinate
    notation or in SAN. *)

Module Scripted.

Definition START : string :=
  "rnbqkbnr/pppppppp/8/8/8/8/PPPPPPPP/RNBQKBNR w KQkq - 0 1".

Definition parseSquareChar (c : ascii) : list (option Piece) :=
  if Js.is_digit c then replicate (Js.code c - 48) None
  else
    match symbol_of_char (Js.lower_char c) with
    | Some t => [Some (mkPiece t (if Js.is_upper c then White else Black))]
    | None => []
    end.

Fixpoint parseRank (s : string) : list (option Piece) :=
  match s with
  | EmptyString => []
  | String c s' => (parseSquareChar c ++ parseRank s')%list
  end.

Definition parsePlacement (placement : string) : Board :=
  map parseRank (Js.split "/" placement).

Definition field (i : nat) (fen : string) : string :=
  default EmptyString (Js.split " " fen !! i).

Fixpoint count (c : ascii) (s : string) : nat :=
  match s with
  | EmptyString => 0
  | String a s' => ((if Ascii.eqb a c then 1 else 0) + count c s')%nat
  end.

Definition validFen (fen : string) : bool :=
  let placement := field 0 fen in
  let ranks := Js.split "/" placement in
  (length (Js.split " " fen) =? 6)%nat
  && (length ranks =? 8)%nat
  && forallb (fun r => (length (parseRank r) =? 8)%nat) ranks
  && (count "K" placement =? 1)%nat
  && (count "k" placement =? 1)%nat
  && negb (Js.char_in "p" (Js.toLowerCase
             (default EmptyString (ranks !! 0%nat) ++ default EmptyString (ranks !! 7%nat)))).

Record Entry := mkEntry {
  before : string;
  accepted : MoveResult;
  after : string;
  mates : bool
}.

Definition table : list Entry :=
  [ mkEntry START (mkMove "e2" "e4" None "e4")
      "rnbqkbnr/pppppppp/8/8/4P3/8/PPPP1PPP/RNBQKBNR b KQkq - 0 1" false;
    mkEntry "rnbqkbnr/pppppppp/8/8/4P3/8/PPPP1PPP/RNBQKBNR b KQkq - 0 1"
      (mkMove "e7" "e5" None "e5")
      "rnbqkbnr/pppp1ppp/8/4p3/4P3/8/PPPP1PPP/RNBQKBNR w KQkq - 0 2" false;
    mkEntry START (mkMove "f2" "f3" None "f3")
      "rnbqkbnr/pppppppp/8/8/8/5P2/PPPPP1PP/RNBQKBNR b KQkq - 0 1" false;
    mkEntry "rnbqkbnr/pppppppp/8/8/8/5P2/PPPPP1PP/RNBQKBNR b KQkq - 0 1"
      (mkMove "e7" "e5" None "e5")
      "rnbqkbnr/pppp1ppp/8/4p3/8/5P2/PPPPP1PP/RNBQKBNR w KQkq - 0 2" false;
    mkEntry "rnbqkbnr/pppp1ppp/8/4p3/8/5P2/PPPPP1PP/RNBQKBNR w KQkq - 0 2"
      (mkMove "g2" "g4" None "g4")
      "rnbqkbnr/pppp1ppp/8/4p3/6P1/5P2/PPPPP2P/RNBQKBNR b KQkq - 0 2" false;
    mkEntry "rnbqkbnr/pppp1ppp/8/4p3/6P1/5P2/PPPPP2P/RNBQKBNR b KQkq - 0 2"
      (mkMove "d8" "h4" None "Qh4#")
      "rnb1kbnr/pppp1ppp/8/4p3/6Pq/5P2/PPPPP2P/RNBQKBNR w KQkq - 1 3" true ].

(** A position and the SAN history of the object. *)
Record Position := mkPosition { pos_fen : string; pos_history : list string }.

Definition matches (fen text : string) (e : Entry) : bool :=
  String.eqb (before e) fen
  && (String.eqb text (moveUciOf (accepted e))
      || String.eqb text (move_san (accepted e))).

Definition move (c : Position) (text : string)
  : option (MoveResult * Position) :=
  match find (matches (pos_fen c) text) table with
  | Some e =>
      Some (accepted e,
            mkPosition (after e)
              (pos_history c ++ [move_san (accepted e)])%list)
  | None => None
  end.

Definition board (c : Position) : Board :=
  parsePlacement (field 0 (pos_fen c)).

Definition get (c : Position) (square : string) : option Piece :=
  match squareToIndex square with
  | Some (rank, file) => board_get (board c) rank file
  | None => None
  end.

Definition turn (c : Position) : Color :=
  if String.eqb (field 1 (pos_fen c)) "b" then Black else White.

Definition isCheckmate (c : Position) : bool :=
  existsb (fun e => mates e && String.eqb (after e) (pos_fen c)) table.

Definition lib : Chess.lib := {|
  Chess.t := Position;
  Chess.new := mkPosition START [];
  Chess.load := fun fen =>
    if validFen fen then Some (mkPosition fen []) else None;
  Chess.fen := pos_fen;
  Chess.turn := turn;
  Chess.move := move;
  Chess.get := get;
  Chess.moves := fun c =>
    map accepted
      (List.filter (fun e => String.eqb (before e) (pos_fen c)) table);
  Chess.board := board;
  Chess.history := pos_history;
  Chess.pgn := fun c => Js.join " " (pos_history c);
  Chess.isCheckmate := isCheckmate;
  Chess.isStalemate := fun _ => false;
  Chess.isThreefoldRepetition := fun _ => false;
  Chess.isInsufficientMaterial := fun _ => false;
  Chess.isDraw := fun _ => false
|}.

(** An agent that answers with the same text at every ply, after
    [elapsed] milliseconds. *)
Definition always (text : string) (elapsed : Z) : Agent :=
  fun _ _ _ => mkThink (Returned text) elapsed.

(** An agent that plays from a script, one think step per ply, and resigns
    when the script is over. *)
Definition script (steps : list Think) : Agent :=
  fun ply _ _ => default (mkThink (Returned "resign") 0) (steps !! ply).

(** White uses most of a one-minute clock, each answer taking less than
    the default timeout of a request: two rejected answers, a legal move,
    and two rejected answers after black's reply leave 250 ms; the next
    answer takes 400 ms. *)
Definition slowWhite : Agent :=
  script
    [mkThink (Returned "zzzz") 11950; mkThink (Returned "zzzz") 11950;
     mkThink (Returned "f2f3") 11950; mkThink (Returned "e7e5") 100;
     mkThink (Returned "zzzz") 11950; mkThink (Returned "zzzz") 11950;
     mkThink (Returned "g2g4") 400].

End Scripted.

(** ** A scripted library for a match that loses a king

    The stand-in with another table: two opening moves and, in the position
    that [applyChaosMove] builds when white's answer "e1c4" puts the white
    king on c4, the capture of that king by the pawn on d5. The move
    generator of chess.js lists a capture whatever piece stands on the
    square taken, and the constructor of chess.js rejects a position
    without a white king, as [Scripted.validFen] does. *)

Module KingCapture.

Definition afterE4 : string :=
  "rnbqkbnr/pppppppp/8/8/4P3/8/PPPP1PPP/RNBQKBNR b KQkq - 0 1".
Definition afterD5 : string :=
  "rnbqkbnr/ppp1pppp/8/3p4/4P3/8/PPPP1PPP/RNBQKBNR w KQkq - 0 2".
Definition kingOnC4 : string :=
  "rnbqkbnr/ppp1pppp/8/3p4/2K1P3/8/PPPP1PPP/RNBQ1BNR b - - 0 2".
Definition kingTaken : string :=
  "rnbqkbnr/ppp1pppp/8/8/2p1P3/8/PPPP1PPP/RNBQ1BNR w - - 0 3".

Definition table : list Scripted.Entry :=
  [ Scripted.mkEntry Scripted.START (mkMove "e2" "e4" None "e4") afterE4
      false;
    Scripted.mkEntry afterE4 (mkMove "d7" "d5" None "d5") afterD5 false;
    Scripted.mkEntry kingOnC4 (mkMove "d5" "c4" None "dxc4") kingTaken
      false ].

(** [Scripted.move] on this table. *)
Definition move (c : Scripted.Position) (text : string)
  : option (MoveResult * Scripted.Position) :=
  match find (Scripted.matches (Scripted.pos_fen c) text) table with
  | Some e =>
      Some (Scripted.accepted e,
            Scripted.mkPosition (Scripted.after e)
              (Scripted.pos_history c
                 ++ [move_san (Scripted.accepted e)])%list)
  | None => None
  end.

Definition lib : Chess.lib := {|
  Chess.t := Scripted.Position;
  Chess.new := Scripted.mkPosition Scripted.START [];
  Chess.load := fun fen =>
    if Scripted.validFen fen then Some (Scripted.mkPosition fen [])
    else None;
  Chess.fen := Scripted.pos_fen;
  Chess.turn := Scripted.turn;
  Chess.move := move;
  Chess.get := Scripted.get;
  Chess.moves := fun c =>
    map Scripted.accepted
      (List.filter
         (fun e => String.eqb (Scripted.before e) (Scripted.pos_fen c))
         table);
  Chess.board := Scripted.board;
  Chess.history := Scripted.pos_history;
  Chess.pgn := fun c => Js.join " " (Scripted.pos_history c);
  Chess.isCheckmate := fun _ => false;
  Chess.isStalemate := fun _ => false;
  Chess.isThreefoldRepetition := fun _ => false;
  Chess.isInsufficientMaterial := fun _ => false;
  Chess.isDraw := fun _ => false
|}.

(** White's king walks to c4 by a chaos move and is taken; white's next
    answer names two squares and is not a move. *)
Definition answers : Agent :=
  Scripted.script
    [mkThink (Returned "e2e4") 5; mkThink (Returned "d7d5") 5;
     mkThink (Returned "e1c4") 5; mkThink (Returned "d5c4") 5;
     mkThink (Returned "e1e2") 5].

End KingCapture.

(** ** Vocabulary of the statements about the match engine *)

(** [clamp(x, lo, hi)] in the words of the specification: values below [lo]
    are raised to [lo], values above [hi] are reduced to [hi]. *)
Definition clamp (x lo hi : Q) : Q :=
  if Qle_bool x lo then lo else if Qle_bool hi x then hi else x.

(** A double, by its value: a significand of fewer than 54 bits times a
    power of two whose exponent a double can have. *)
Definition isDouble (x : Q) : Prop :=
  exists m e : Z,
    (Z.abs m < 2 ^ 53)%Z /\ (-1074 <= e <= 971)%Z
    /\ (x == inject_Z m * 2 ^ e)%Q.

Section MatchVocabulary.

Variable L : Chess.lib.
Variable MOVE_TIMEOUT_MS : Q.
Variable req : MatchRequest.
Variable agent : Agent.

(** The acting color, the think step and the clocks after charging it, at
    the iteration [ply] entered with the locals [st]. *)
Definition activeAt (st : State L) : Color := Chess.turn L (st_chess st).

Definition thinkAt (st : State L) (ply : nat) : Think :=
  agent ply (activeAt st)
    (perMoveTimeout MOVE_TIMEOUT_MS req (pc_get (st_clocks st) (activeAt st))).

Definition chargedAt (st : State L) (ply : nat) : PerColor Q :=
  fst (flagged L req st (activeAt st) (moveTime (thinkAt st ply))).

(** What the attempt of one ply amounts to, by the guards of the loop body
    in their order. *)
Inductive Attempt :=
  | FlagFall
  | CallFailed (message : string)
  | Resigned
  | EmptyAttempt
  | IllegalAttempt (rawTrimmed cleaned : string)
  | LegalMove (moveResult : MoveResult) (chess : Chess.t L).

Definition attemptOf (st : State L) (ply : nat) : Attempt :=
  match snd (flagged L req st (activeAt st) (moveTime (thinkAt st ply))) with
  | Some _ => FlagFall
  | None =>
      match outcome (thinkAt st ply) with
      | Threw message =>
          if Js.includes "empty move" (Js.toLowerCase message)
          then EmptyAttempt else CallFailed message
      | Returned rawMove =>
          let rawTrimmed := Js.trim rawMove in
          let cleaned := Js.toLowerCase rawTrimmed in
          if String.eqb cleaned "resign" then Resigned
          else
            match Chess.move L (st_chess st) rawTrimmed with
            | None => IllegalAttempt rawTrimmed cleaned
            | Some (moveResult, chess) => LegalMove moveResult chess
            end
      end
  end.

Definition not_end (e : MatchStreamEvent) : Prop := is_end e = false.

(** The closed set of reasons after a legal move. *)
Definition legalEnding (c : Color) (result : MatchResult) : Prop :=
  (winner result = wins c /\ reason result = checkmate)
  \/ (winner result = draw
      /\ (reason result = stalemate \/ reason result = threefold
          \/ reason result = insufficient \/ reason result = fifty_move)).

(** A stream that was closed, with one end event, the last one. *)
Definition wellEnded (s : Stream) : Prop :=
  closed s = true
  /\ length (List.filter is_end (sent s)) = 1%nat
  /\ exists result, last (sent s) = Some (EndEvent result).

(** Replaying a list of move tokens through the rules library. *)
Fixpoint replay (chess : Chess.t L) (tokens : list string)
  : option (Chess.t L) :=
  match tokens with
  | [] => Some chess
  | token :: rest =>
      match Chess.move L chess token with
      | Some (_, chess') => replay chess' rest
      | None => None
      end
  end.

(** The position reached by replaying [tokens] from the standard initial
    position, [None] when the library rejects one of them. *)
Definition replayedFen (tokens : list string) : option string :=
  option_map (Chess.fen L) (replay (Chess.new L) tokens).

(** The position string of the loop can be loaded, as far as the chaos
    variant needs it. *)
Definition fenLoads (st : State L) : Prop :=
  mode req = chaos -> is_Some (Chess.load L (st_fen st)).

(** The history replays to the position of the loop. *)
Definition replaysTo (moves : list string) (chess : Chess.t L) : Prop :=
  replay (Chess.new L) moves = Some chess.

(** What the engine relies on from the rules library. *)

(** The default constructor is the constructor on the start position. *)
Definition startIsNew : Prop :=
  Chess.load L (Chess.fen L (Chess.new L)) = Some (Chess.new L).

(** The position after an accepted move can be loaded again. *)
Definition movesReload : Prop :=
  forall chess text moveResult chess',
    Chess.move L chess text = Some (moveResult, chess') ->
    is_Some (Chess.load L (Chess.fen L chess')).

(** The board of a loaded position has eight ranks. *)
Definition boardsHaveRanks : Prop :=
  forall fen base,
    Chess.load L fen = Some base -> length (Chess.board L base) = 8%nat.

(** The coordinate token of an accepted move is accepted in the same
    position, with the same outcome. *)
Definition uciReplays : Prop :=
  forall chess text moveResult chess',
    Chess.move L chess text = Some (moveResult, chess') ->
    exists moveResult',
      Chess.move L chess (moveUciOf moveResult) = Some (moveResult', chess').

End MatchVocabulary.

Arguments FlagFall {L}.
Arguments CallFailed {L} _.
Arguments Resigned {L}.
Arguments EmptyAttempt {L}.
Arguments IllegalAttempt {L} _ _.
Arguments LegalMove {L} _ _.

(** ** [fetchMove] of app/api/match/route.ts *)

(** How [streamText] and the reading of its [textStream] end at one attempt:
    the chunks of the stream, or an error with its [name] and [message]
    (among them the abort of the request when the timer fires). *)
Inductive StreamOutcome :=
  | Streamed (chunks : list string)
  | Failed (name message : string).

(** The model call, by attempt number. *)
Definition ModelCall := nat -> StreamOutcome.

(** What one call of [fetchMove] amounts to: the number of calls of
    [streamText] it made, the backoffs it slept, in milliseconds, and how it
    ended. *)
Record Fetch := mkFetch {
  calls : nat;
  slept : list Z;
  fetched : FetchOutcome
}.

(** The [overloaded] constant of the [catch] block. *)
Definition overloaded (name message : string) : bool :=
  Js.includes "exhausted" (Js.toLowerCase message)
  || Js.includes "overloaded" (Js.toLowerCase message)
  || String.eqb name "AI_TypeValidationError".

(** One more call after sleeping [backoff]. *)
Definition afterBackoff (backoff : Z) (rest : option Fetch) : option Fetch :=
  match rest with
  | Some r => Some (mkFetch (S (calls r)) (backoff :: slept r) (fetched r))
  | None => None
  end.

(** [fetchMove(model, gatewayProvider, prompt, timeoutMs, attempt)], the
    recursive calls being counted by [fuel]; [None] when [fuel] runs out. A
    [return fetchMove(...)] hands the promise of the inner call over without
    awaiting it, so the [catch] block of the outer call does not see what the
    inner call throws; the error thrown inside [try] for the third empty
    answer does go through the [catch] block. *)
Fixpoint fetchMoveFrom (fuel : nat) (call : ModelCall) (attempt : nat)
  : option Fetch :=
  match fuel with
  | O => None
  | S fuel' =>
      let caught (name message : string) : option Fetch :=
        if overloaded name message && (attempt <? 3)%nat
        then afterBackoff (1000 * Z.of_nat attempt + 500)
               (fetchMoveFrom fuel' call (attempt + 1))
        else Some (mkFetch 1 [] (Threw message)) in
      match call attempt with
      | Streamed chunks =>
          let trimmed := Js.trim (String.concat EmptyString chunks) in
          if String.eqb trimmed EmptyString then
            if (attempt <? 3)%nat
            then afterBackoff (800 * Z.of_nat attempt + 400)
                   (fetchMoveFrom fuel' call (attempt + 1))
            else caught "Error" "Model returned an empty move"
          else Some (mkFetch 1 [] (Returned trimmed))
      | Failed name message => caught name message
      end
  end.

(** [fetchMove] as the loop calls it, with [attempt = 1]; three calls are
    always enough. *)
Definition fetchMove (call : ModelCall) : option Fetch :=
  fetchMoveFrom 3 call 1.

(** A string without white space at either end. *)
Definition trimmedText (s : string) : Prop := Js.trim s = s.

(** The sum of a list of backoffs. *)
Definition totalSlept (r : Fetch) : Z := fold_right Z.add 0%Z (slept r).

(** A stream whose text is empty once trimmed. *)
Definition blankStream (o : StreamOutcome) : Prop :=
  exists chunks,
    o = Streamed chunks
    /\ Js.trim (String.concat EmptyString chunks) = EmptyString.

(** An error of the overload class. *)
Definition overloadFailure (o : StreamOutcome) : Prop :=
  exists name message, o = Failed name message /\ overloaded name message = true.

(** The first character, if any, is not white space. *)
Definition headOk (s : string) : Prop :=
  match s with
  | EmptyString => True
  | String c _ => Js.is_space c = false
  end.

(** Sample model calls. *)
Module ScriptedCalls.

(** A model that streams white space twice, then a move in two chunks. *)
Definition silentTwice : ModelCall :=
  fun attempt =>
    if (attempt <? 3)%nat then Streamed [" "; " "] else Streamed [" e2"; "e4 "].

(** A model that streams white space only. *)
Definition silent : ModelCall := fun _ => Streamed [" "].

(** A gateway that is overloaded at every call. *)
Definition busy : ModelCall := fun _ => Failed "Error" "Service Overloaded".

End ScriptedCalls.

(** ** The event stream on the wire *)

(** The line feed. *)
Definition newline : ascii := "010"%char.

(** [send] of app/api/match/route.ts enqueues [JSON.stringify(event) + "\n"];
    [text] is the JSON text of the event. *)
Definition send (text : string) : string :=
  text ++ String newline EmptyString.

(** The bytes of a stream on which the texts were sent one after the
    other. *)
Definition wire (texts : list string) : string :=
  String.concat EmptyString (map send texts).

(** The locals of the reading loop of [startMatch] in app/page.tsx:
    [buffer], and the lines that went to [JSON.parse], in order. *)
Record Reader := mkReader { buffer : string; parsed : list string }.

(** [!line.trim()] *)
Definition blankLine (line : string) : bool :=
  String.eqb (Js.trim line) EmptyString.

(** One run of the body of the [while (true)] loop, for a chunk that
    [reader.read()] delivered:
    [buffer += chunk; lines = buffer.split("\n"); buffer = lines.pop() ?? ""]
    and then the [for] loop over what is left of [lines]. *)
Definition readChunk (r : Reader) (chunk : string) : Reader :=
  let buffer := buffer r ++ chunk in
  let lines := Js.split newline buffer in
  mkReader (default EmptyString (last lines))
    (parsed r
     ++ List.filter (fun line => negb (blankLine line)) (removelast lines))%list.

(** The loop over the chunks read until [done]. *)
Definition readStream (chunks : list string) : Reader :=
  fold_left readChunk chunks (mkReader EmptyString []).

(** A text without a line feed. *)
Definition oneLine (s : string) : bool :=
  all_chars (fun c => negb (Ascii.eqb c newline)) s.

(** ** Vocabulary of the statements about the events of a match *)

(** The reasons of a drawn match. *)
Definition drawnReason (r : MatchReason) : bool :=
  match r with
  | stalemate | fifty_move | insufficient | threefold | max_move => true
  | checkmate | resignation | illegal | timeout => false
  end.

(** The moves announced by the move events of a stream that carry a move
    number: the event of a resignation carries none. *)
Definition movesOf (events : list MatchStreamEvent) : list string :=
  flat_map
    (fun e =>
       match e with
       | MoveEvent m =>
           match ev_displayMoveNum m with
           | Some _ => [ev_move m]
           | None => []
           end
       | _ => []
       end)
    events.

(** What one run of the loop body leaves, as far as the history and the
    clocks of a result go: the history grows by the moves announced, and a
    result carries the history and the clocks [charged] of the iteration. *)
Definition stepShape (L : Chess.lib) (req : MatchRequest) (st : State L)
    (charged : PerColor Q) (step : Step L) : Prop :=
  match step with
  | Continue st' evs =>
      st_moves st' = (st_moves st ++ movesOf evs)%list
  | Closed evs =>
      exists pre result,
        evs = (pre ++ [EndEvent result])%list
        /\ Forall not_end pre
        /\ clocks result = clocksField req charged
        /\ moves result = (st_moves st ++ movesOf pre)%list
  | Thrown _ => True
  end.

(** ** The active color of a position string *)

(** [activeColorFromFen] of lib/chess-utils.ts: [parts[1] ?? "w"]. *)
Definition activeColorFromFen (fen : string) : string :=
  default "w" (Js.split " " fen !! 1%nat).

(** [activeColorFromFen] of app/page.tsx:
    [fen.split(" ")[1] === "w" ? "white" : "black"]. *)
Definition pageActiveColor (fen : string) : Color :=
  match Js.split " " fen !! 1%nat with
  | Some field => if String.eqb field "w" then White else Black
  | None => Black
  end.

From Stdlib Require Import DecimalPos DecimalZ.

(** ** Boards that [boardToFen] renders without loss *)

(** A board with at least one rank whose ranks have at most nine squares:
    a run of empty squares is then written as one digit. *)
Definition renderable (board : Board) : Prop :=
  board <> [] /\ Forall (fun rank => (length rank <= 9)%nat) board.

(** A text without a slash. *)
Definition noslash (s : string) : bool :=
  all_chars (fun c => negb (Ascii.eqb c "/")) s.

(** Reading a piece placement: the ranks between the slashes, the eighth
    first; in a rank a digit stands for that many empty squares and a
    letter for the piece it names, of white when it is uppercase. *)
Definition readPlacement (placement : string) : Board :=
  Scripted.parsePlacement placement.

(** ** The pairings of a tournament *)

(** One game of the round robin and the sides of its players. *)
Record Pairing := mkPairing { pair_white : string; pair_black : string }.

(** [models[i]] for an index of the list. *)
Definition modelAt (models : list string) (i : nat) : string :=
  default EmptyString (models !! i).

(** The body of the inner loop of [POST] of app/api/tournament/route.ts and
    of [buildPairings] of app/tournament/page.tsx:
    [asWhite = (i + j) % 2 === 0 ? models[i] : models[j]] and
    [asBlack = asWhite === models[i] ? models[j] : models[i]]. *)
Definition pairingOf (models : list string) (i j : nat) : Pairing :=
  let asWhite :=
    if ((i + j) mod 2 =? 0)%nat then modelAt models i else modelAt models j in
  let asBlack :=
    if String.eqb asWhite (modelAt models i) then modelAt models j
    else modelAt models i in
  mkPairing asWhite asBlack.

(** The index pairs that the two loops run through:
    [for (i = 0; i < n; i++) for (j = i + 1; j < n; j++)]. *)
Definition indexPairs (n : nat) : list (nat * nat) :=
  flat_map (fun i => map (pair i) (seq (i + 1) (n - (i + 1)))) (seq 0 n).

(** The games in the order in which the loops reach them. *)
Definition pairings (models : list string) : list Pairing :=
  map (fun ij => pairingOf models (fst ij) (snd ij))
    (indexPairs (length models)).

(** The checks of [POST] on the list of models: at least two, at most
    eight. [None] stands for the response with status 400. *)
Definition tournamentGames (models : list string) : option (list Pairing) :=
  if (length models <? 2)%nat then None
  else if (8 <? length models)%nat then None
  else Some (pairings models).

(** A card of [buildPairings]: the pairing and its [id],
    [`${asWhite}_vs_${asBlack}_${pairs.length}`]. *)
Record Card := mkCard { card_pairing : Pairing; card_id : string }.

Definition cardId (index : nat) (p : Pairing) : string :=
  pair_white p ++ "_vs_" ++ pair_black p ++ "_" ++ Js.of_int (Z.of_nat index).

Definition buildPairings (models : list string) : list Card :=
  imap (fun index p => mkCard p (cardId index p)) (pairings models).

(** ** [playMatch] of app/api/tournament/route.ts *)

Module Tournament.

Definition MAX_PLY : nat := 300.

(** [fetchMove] of the tournament route: the trimmed text of the stream,
    empty or not; an error of the overload class is retried twice. *)
Fixpoint fetchMoveFrom (fuel : nat) (call : ModelCall) (attempt : nat)
  : option Fetch :=
  match fuel with
  | O => None
  | S fuel' =>
      match call attempt with
      | Streamed chunks =>
          Some (mkFetch 1 []
                  (Returned (Js.trim (String.concat EmptyString chunks))))
      | Failed name message =>
          if overloaded name message && (attempt <? 3)%nat
          then afterBackoff (1000 * Z.of_nat attempt + 500)
                 (fetchMoveFrom fuel' call (attempt + 1))
          else Some (mkFetch 1 [] (Threw message))
      end
  end.

Definition fetchMove (call : ModelCall) : option Fetch :=
  fetchMoveFrom 3 call 1.

Section PlayMatch.

Variable L : Chess.lib.
Variable MOVE_TIMEOUT_MS : Q.
Variable req : MatchRequest.
Variable agent : Agent.

(** The local variables of [playMatch]. *)
Record State := mkState {
  st_fen : string;
  st_chess : Chess.t L;
  st_fullmove : Z;
  st_illegalCounts : PerColor nat;
  st_moves : list string;
  st_lastIllegal : PerColor (option LastIllegal);
  st_clocks : PerColor Q
}.

(** [buildResult] of the tournament route, which has no summary of the
    illegal moves. *)
Definition buildResult (winner : Winner) (reason : MatchReason)
    (moves : list string) (illegalCounts : PerColor nat) (chess : Chess.t L)
    (clocks : option MatchClocks) : MatchResult :=
  let pgn :=
    if (0 <? length (Chess.history L chess))%nat
    then Chess.pgn L chess
    else Js.join " " moves in
  mkResult winner reason moves pgn illegalCounts clocks
    (Chess.fen L chess) None.

Definition resultFromDraw (reason : MatchReason) (moves : list string)
    (illegalCounts : PerColor nat) (chess : Chess.t L)
    (clocks : option MatchClocks) : MatchResult :=
  buildResult draw reason moves illegalCounts chess clocks.

(** How one run of the body of the [for] loop ends: at the end of the body
    or at a [continue], at a [return], or by an exception that nothing
    catches. *)
Inductive Step :=
  | Continue (st : State)
  | Return (result : MatchResult)
  | Throw.

(** The [if (!moveResult) { ... }] block. *)
Definition illegalBranch (st : State) (activeColor : Color)
    (clocks : PerColor Q) (rawTrimmed cleaned : string) : Step :=
  let chess := st_chess st in
  let illegalCounts :=
    pc_set (st_illegalCounts st) activeColor
      (pc_get (st_illegalCounts st) activeColor + 1)%nat in
  let lastIllegal :=
    pc_set (st_lastIllegal st) activeColor
      (Some (mkLastIllegal rawTrimmed "Illegal move in current position")) in
  let after (fen : string) (chess : Chess.t L) (fullmove : Z)
        (moves : list string) : Step :=
    if strikesForfeit req && (3 <=? pc_get illegalCounts activeColor)%nat then
      Return
        (buildResult (wins (other activeColor)) illegal moves illegalCounts
           chess (clocksField req clocks))
    else
      Continue
        (mkState fen chess fullmove illegalCounts moves lastIllegal clocks) in
  match (if bool_decide (mode req = chaos) then parseUciMove cleaned
         else None) with
  | Some parsedChaos =>
      match applyChaosMove L (st_fen st) parsedChaos (Chess.turn L chess)
              (st_fullmove st) with
      | None => Throw
      | Some chaosMove =>
          let fen := chaos_fen chaosMove in
          match Chess.load L fen with
          | None => Throw
          | Some chess' =>
              after fen chess' (fullmoveOf fen (st_fullmove st))
                (st_moves st ++ [chaos_san chaosMove])%list
          end
      end
  | None => after (st_fen st) chess (st_fullmove st) (st_moves st)
  end.

(** The end of the loop body, after [chess.move] has accepted the move and
    left the object in the state [chess]. *)
Definition legalBranch (st : State) (activeColor : Color)
    (clocks : PerColor Q) (moveResult : MoveResult) (chess : Chess.t L)
  : Step :=
  let fen := Chess.fen L chess in
  let fullmove := fullmoveOf fen (st_fullmove st) in
  let illegalCounts := pc_set (st_illegalCounts st) activeColor 0%nat in
  let lastIllegal := pc_set (st_lastIllegal st) activeColor None in
  let moves := (st_moves st ++ [moveUciOf moveResult])%list in
  if Chess.isCheckmate L chess then
    Return (buildResult (wins activeColor) checkmate moves illegalCounts
              chess (clocksField req clocks))
  else if Chess.isStalemate L chess then
    Return (resultFromDraw stalemate moves illegalCounts chess
              (clocksField req clocks))
  else if Chess.isThreefoldRepetition L chess then
    Return (resultFromDraw threefold moves illegalCounts chess
              (clocksField req clocks))
  else if Chess.isInsufficientMaterial L chess then
    Return (resultFromDraw insufficient moves illegalCounts chess
              (clocksField req clocks))
  else if Chess.isDraw L chess then
    Return (resultFromDraw fifty_move moves illegalCounts chess
              (clocksField req clocks))
  else
    Continue (mkState fen chess fullmove illegalCounts moves lastIllegal clocks).

(** One run of the body of [for (let ply = 0; ply < MAX_PLY; ply++)]. *)
Definition plyBody (st : State) (ply : nat) : Step :=
  let activeColor := Chess.turn L (st_chess st) in
  let opponent := wins (other activeColor) in
  let think :=
    agent ply activeColor
      (perMoveTimeout MOVE_TIMEOUT_MS req
         (pc_get (st_clocks st) activeColor)) in
  match outcome think with
  | Threw _ =>
      Return
        (buildResult opponent timeout (st_moves st) (st_illegalCounts st)
           (st_chess st) (clocksField req (st_clocks st)))
  | Returned rawMove =>
      let clocks :=
        if bulletMode req
        then charge (st_clocks st) activeColor (moveTime think)
        else st_clocks st in
      if bulletMode req && Qle_bool (pc_get clocks activeColor) 0 then
        Return
          (buildResult opponent timeout (st_moves st) (st_illegalCounts st)
             (st_chess st) (Some (snapshot clocks)))
      else
        let rawTrimmed := Js.trim rawMove in
        let cleaned := Js.toLowerCase rawTrimmed in
        if String.eqb cleaned "resign" then
          Return
            (buildResult opponent resignation (st_moves st)
               (st_illegalCounts st) (st_chess st) (clocksField req clocks))
        else
          match Chess.move L (st_chess st) rawTrimmed with
          | None => illegalBranch st activeColor clocks rawTrimmed cleaned
          | Some (moveResult, chess) =>
              legalBranch st activeColor clocks moveResult chess
          end
  end.

(** The [for] loop with [n] iterations left, followed by the statement
    after it; [None] when an exception ends [playMatch]. *)
Fixpoint plyLoop (n : nat) (ply : nat) (st : State) : option MatchResult :=
  match n with
  | O =>
      Some (resultFromDraw max_move (st_moves st) (st_illegalCounts st)
              (st_chess st) (clocksField req (st_clocks st)))
  | S n' =>
      match plyBody st ply with
      | Continue st' => plyLoop n' (S ply) st'
      | Return result => Some result
      | Throw => None
      end
  end.

(** [playMatch]; [None] when it throws. *)
Definition playMatch : option MatchResult :=
  let fen := Chess.fen L (Chess.new L) in
  match Chess.load L fen with
  | None => None
  | Some chess =>
      plyLoop MAX_PLY 0
        (mkState fen chess 1 (mkPerColor 0 0)%nat [] (mkPerColor None None)
           (mkPerColor (initialClockMs req) (initialClockMs req)))
  end.

End PlayMatch.

Arguments mkState {L} _ _ _ _ _ _ _.
Arguments st_fen {L} _.
Arguments st_chess {L} _.
Arguments st_fullmove {L} _.
Arguments st_illegalCounts {L} _.
Arguments st_moves {L} _.
Arguments st_lastIllegal {L} _.
Arguments st_clocks {L} _.
Arguments Continue {L} _.
Arguments Return {L} _.
Arguments Throw {L}.

End Tournament.

(** A result as the tournament route reports it: without the summary of
    the illegal moves. *)
Definition withoutSummary (r : MatchResult) : MatchResult :=
  mkResult (winner r) (reason r) (moves r) (pgn r) (illegalCounts r)
    (clocks r) (finalFen r) None.

(** The locals that the loop of the match route shares with the loop of
    [playMatch], but for the reason of the last illegal move, which only the
    prompt shows. *)
Definition sameLocals {L : Chess.lib} (st : State L)
    (tst : Tournament.State L) : Prop :=
  st_fen st = Tournament.st_fen tst
  /\ st_chess st = Tournament.st_chess tst
  /\ st_fullmove st = Tournament.st_fullmove tst
  /\ st_illegalCounts st = Tournament.st_illegalCounts tst
  /\ st_moves st = Tournament.st_moves tst
  /\ st_clocks st = Tournament.st_clocks tst.

(** An agent whose calls never fail. *)
Definition neverThrows (agent : Agent) : Prop :=
  forall ply color timeout,
    exists rawMove, outcome (agent ply color timeout) = Returned rawMove.
(** ** [buildStandings] of app/api/tournament/route.ts *)

Record TournamentMatch := mkMatch {
  tm_white : string;
  tm_black : string;
  tm_result : MatchResult
}.

(** *** The objects that [buildStandings] reads and writes

    [table] and [ratings] are plain objects of JavaScript. A read
    [table[key]] that finds no property [key] on the object itself goes on
    to its prototype, which is [Object.prototype] for an object made by
    [{}]: a key that names a property of [Object.prototype] reads as that
    property and not as [undefined]. The function is followed on an
    [Object.prototype] that holds at its entry the properties the language
    gives it and no other, and in the strict mode of a module. *)

(** The names under which [Object.prototype] holds a function. Its one
    other property is the accessor [__proto__], which reads and sets the
    prototype of the object it is applied to. *)
Definition builtInNames : list string :=
  ["constructor"; "__defineGetter__"; "__defineSetter__"; "hasOwnProperty";
   "__lookupGetter__"; "__lookupSetter__"; "isPrototypeOf";
   "propertyIsEnumerable"; "toString"; "valueOf"; "toLocaleString"].

Definition isBuiltIn (key : string) : bool :=
  existsb (String.eqb key) builtInNames.

(** What the [rating] of a row can hold: a number, or what a read of
    [ratings] has found on [Object.prototype], one of its functions or,
    under the key [__proto__], [Object.prototype] itself. *)
Inductive Rating :=
  | rated (n : JsNumber)
  | builtIn (name : string)
  | theObjectPrototype.

Record TournamentStanding := mkStanding {
  s_model : string;
  s_rating : Rating;
  s_games : nat;
  s_points : Q;
  s_wins : nat;
  s_draws : nat;
  s_losses : nat;
  s_checkmates : nat;
  s_illegalForfeits : nat;
  s_timeouts : nat;
  s_resignations : nat
}.

(** The names of the properties of a row. *)
Definition rowFields : list string :=
  ["model"; "rating"; "games"; "points"; "wins"; "draws"; "losses";
   "checkmates"; "illegalForfeits"; "timeouts"; "resignations"].

(** [table]: the properties it has itself, each a row, and the row that
    has become its prototype when [table["__proto__"] = row] has run; its
    prototype is [Object.prototype] before. *)
Record StandingsTable := mkTable {
  t_rows : string -> option TournamentStanding;
  t_prototype : option TournamentStanding
}.

(** What the run has written onto [Object.prototype]: the names of the
    properties that hold [NaN], the value of [undefined + 1], and the value
    of its property [rating]. *)
Record ObjectPrototype := mkObjectPrototype {
  op_numbers : list string;
  op_rating : option Rating
}.

Record Store := mkStore {
  table : StandingsTable;
  inherited : ObjectPrototype
}.

(** [ratings], by the properties it has itself; its prototype is
    [Object.prototype]. *)
Definition Ratings := string -> option JsNumber.

(** [ratings[key]]; [None] stands for [undefined]. *)
Definition ratingsGet (o : ObjectPrototype) (ratings : Ratings)
    (key : string) : option Rating :=
  match ratings key with
  | Some n => Some (rated n)
  | None =>
      if String.eqb key "__proto__" then Some theObjectPrototype
      else if isBuiltIn key then Some (builtIn key)
      else if existsb (String.eqb key) (op_numbers o) then Some (rated NaN)
      else if String.eqb key "rating" then op_rating o
      else None
  end.

Module Standing.

(** The counters of a row. *)
Inductive Counter :=
  | games | wins | draws | losses
  | checkmates | illegalForfeits | timeouts | resignations.

(** The assignments of the loop over the matches to [table[key]]:
    [.counter += 1], [.points += by_] and
    [.rating = ratings[key] ?? table[key].rating]. *)
Inductive Assignment :=
  | plusOne (counter : Counter)
  | plusPoints (by_ : Q)
  | snapshot.

Definition counterName (counter : Counter) : string :=
  match counter with
  | games => "games" | wins => "wins" | draws => "draws"
  | losses => "losses" | checkmates => "checkmates"
  | illegalForfeits => "illegalForfeits" | timeouts => "timeouts"
  | resignations => "resignations"
  end.

(** [row.counter += 1] *)
Definition count (counter : Counter) (row : TournamentStanding)
  : TournamentStanding :=
  let bump (this : Counter) (n : nat) : nat :=
    match this, counter with
    | games, games | wins, wins | draws, draws | losses, losses
    | checkmates, checkmates | illegalForfeits, illegalForfeits
    | timeouts, timeouts | resignations, resignations => (n + 1)%nat
    | _, _ => n
    end in
  mkStanding (s_model row) (s_rating row) (bump games (s_games row))
    (s_points row) (bump wins (s_wins row)) (bump draws (s_draws row))
    (bump losses (s_losses row)) (bump checkmates (s_checkmates row))
    (bump illegalForfeits (s_illegalForfeits row))
    (bump timeouts (s_timeouts row))
    (bump resignations (s_resignations row)).

(** An assignment on a row; [reading] is [ratings[key]]. *)
Definition assign (a : Assignment) (reading : option Rating)
    (row : TournamentStanding) : TournamentStanding :=
  match a with
  | plusOne counter => count counter row
  | plusPoints by_ =>
      mkStanding (s_model row) (s_rating row) (s_games row)
        (s_points row + by_) (s_wins row) (s_draws row) (s_losses row)
        (s_checkmates row) (s_illegalForfeits row) (s_timeouts row)
        (s_resignations row)
  | snapshot =>
      mkStanding (s_model row) (default (s_rating row) reading)
        (s_games row) (s_points row) (s_wins row) (s_draws row)
        (s_losses row) (s_checkmates row) (s_illegalForfeits row)
        (s_timeouts row) (s_resignations row)
  end.

(** The same assignment when [table[key]] is [Object.prototype]: a counter
    or the points, [undefined] until then, become [NaN]. *)
Definition pollute (a : Assignment) (reading : option Rating)
    (o : ObjectPrototype) : ObjectPrototype :=
  match a with
  | plusOne counter =>
      mkObjectPrototype (counterName counter :: op_numbers o) (op_rating o)
  | plusPoints _ => mkObjectPrototype ("points" :: op_numbers o) (op_rating o)
  | snapshot =>
      mkObjectPrototype (op_numbers o)
        match reading with
        | Some r => Some r
        | None => op_rating o
        end
  end.

(** The row that the first loop makes for a model; [reading] is
    [ratings[m]]. *)
Definition fresh (reading : option Rating) (m : string)
  : TournamentStanding :=
  mkStanding m (default (rated (Finite 1000)) reading) 0 0%Q 0 0 0 0 0 0 0.

End Standing.

(** What a read [table[key]] gives. *)
Inductive Slot :=
  | ownRow (row : TournamentStanding)
  | prototypeRow (row : TournamentStanding)
  | builtInFunction
  | objectPrototype
  | primitive
  | undefined.

(** A rating as the target of an assignment. *)
Definition ofRating (r : Rating) : Slot :=
  match r with
  | rated _ => primitive
  | builtIn _ => builtInFunction
  | theObjectPrototype => objectPrototype
  end.

(** A read that has reached [Object.prototype], for a key other than
    [__proto__]. *)
Definition fromObjectPrototype (o : ObjectPrototype) (key : string) : Slot :=
  if isBuiltIn key then builtInFunction
  else if existsb (String.eqb key) (op_numbers o) then primitive
  else if String.eqb key "rating"
  then match op_rating o with Some r => ofRating r | None => undefined end
  else undefined.

(** [table[key]]: the property of the table itself, else, under
    [__proto__], its prototype, else the property of the row that is its
    prototype (the rating, a number or the name of the model), else the
    property of [Object.prototype]. *)
Definition tableGet (s : Store) (key : string) : Slot :=
  match t_rows (table s) key with
  | Some row => ownRow row
  | None =>
      if String.eqb key "__proto__" then
        match t_prototype (table s) with
        | Some row => prototypeRow row
        | None => objectPrototype
        end
      else
        match t_prototype (table s) with
        | Some row =>
            if String.eqb key "rating" then ofRating (s_rating row)
            else if existsb (String.eqb key) rowFields then primitive
            else fromObjectPrototype (inherited s) key
        | None => fromObjectPrototype (inherited s) key
        end
  end.

(** [table[key] = row]: the property of the table itself is written when
    there is one; else the setter of [__proto__] makes the row the
    prototype of the table, and any other key becomes a property of the
    table. *)
Definition tableSet (key : string) (row : TournamentStanding)
    (t : StandingsTable) : StandingsTable :=
  let store :=
    mkTable (fun k => if String.eqb k key then Some row else t_rows t k)
      (t_prototype t) in
  match t_rows t key with
  | Some _ => store
  | None =>
      if String.eqb key "__proto__" then mkTable (t_rows t) (Some row)
      else store
  end.

(** An assignment of the loop over the matches to [table[key]]: on a row it
    changes the row; on a function of [Object.prototype] it changes that
    function and nothing that is read here; on [Object.prototype] it adds
    to the properties that every object inherits; on a number or a string
    it throws, as the strict mode has it, and on [undefined] it throws.
    [None] stands for the [TypeError]. *)
Definition tableUpdate (a : Standing.Assignment) (ratings : Ratings)
    (key : string) (s : Store) : option Store :=
  let reading := ratingsGet (inherited s) ratings key in
  match tableGet s key with
  | ownRow row =>
      Some (mkStore
              (mkTable
                 (fun k =>
                    if String.eqb k key
                    then Some (Standing.assign a reading row)
                    else t_rows (table s) k)
                 (t_prototype (table s)))
              (inherited s))
  | prototypeRow row =>
      Some (mkStore
              (mkTable (t_rows (table s))
                 (Some (Standing.assign a reading row)))
              (inherited s))
  | builtInFunction => Some s
  | objectPrototype =>
      Some (mkStore (table s) (Standing.pollute a reading (inherited s)))
  | primitive | undefined => None
  end.

(** The block of [buildStandings] for one reason of the end:
    [if (result.winner === "white") table[black].counter += 1;
     if (result.winner === "black") table[white].counter += 1]
    and, for the checkmates, the same on the side of the winner. *)
Definition tableBlame (counter : Standing.Counter) (ratings : Ratings)
    (w : Winner) (onWhiteWin onBlackWin : string) (s : Store)
  : option Store :=
  match w with
  | wins White => tableUpdate (Standing.plusOne counter) ratings onWhiteWin s
  | wins Black => tableUpdate (Standing.plusOne counter) ratings onBlackWin s
  | draw => Some s
  end.

(** The body of the loop over the matches. *)
Definition recordMatch (ratings : Ratings) (s : Store) (m : TournamentMatch)
  : option Store :=
  let white := tm_white m in
  let black := tm_black m in
  let result := tm_result m in
  let plusOne counter := tableUpdate (Standing.plusOne counter) ratings in
  let plusPoints by_ := tableUpdate (Standing.plusPoints by_) ratings in
  s ← plusOne Standing.games white s;
  s ← plusOne Standing.games black s;
  s ←
    match winner result with
    | draw =>
        s ← plusOne Standing.draws white s;
        s ← plusOne Standing.draws black s;
        s ← plusPoints (1 # 2)%Q white s;
        plusPoints (1 # 2)%Q black s
    | wins White =>
        s ← plusOne Standing.wins white s;
        s ← plusOne Standing.losses black s;
        plusPoints 1%Q white s
    | wins Black =>
        s ← plusOne Standing.wins black s;
        s ← plusOne Standing.losses white s;
        plusPoints 1%Q black s
    end;
  s ←
    match reason result with
    | checkmate =>
        tableBlame Standing.checkmates ratings (winner result) white black s
    | illegal =>
        tableBlame Standing.illegalForfeits ratings (winner result) black
          white s
    | timeout =>
        tableBlame Standing.timeouts ratings (winner result) black white s
    | resignation =>
        tableBlame Standing.resignations ratings (winner result) black white
          s
    | _ => Some s
    end;
  s ← tableUpdate Standing.snapshot ratings white s;
  tableUpdate Standing.snapshot ratings black s.

(** The body of the loop over the models: [table[m] = { model: m, ... }]. *)
Definition addRow (ratings : Ratings) (s : Store) (m : string) : Store :=
  mkStore
    (tableSet m (Standing.fresh (ratingsGet (inherited s) ratings m) m)
       (table s))
    (inherited s).

(** The body of the loop over the matches, once an earlier run may have
    thrown. *)
Definition recordNext (ratings : Ratings) (s : option Store)
    (m : TournamentMatch) : option Store :=
  s ← s; recordMatch ratings s m.

(** The objects when [buildStandings] gets to its [return]; [None] when it
    throws before. *)
Definition standingsRun (models : list string)
    (matches : list TournamentMatch) (ratings : Ratings) : option Store :=
  let s :=
    fold_left (addRow ratings) models
      (mkStore (mkTable (fun _ => None) None) (mkObjectPrototype [] None)) in
  fold_left (recordNext ratings) matches (Some s).

(** The table of [buildStandings] when it gets to its [return], which
    hands out the rows that are properties of the table itself
    ([Object.values]) in the order of its comparator; [None] when it throws
    before. *)
Definition standingsTable (models : list string)
    (matches : list TournamentMatch) (ratings : Ratings)
  : option StandingsTable :=
  table <$> standingsRun models matches ratings.

(** *** Vocabulary of the statements about the standings *)

(** A number of games as a JavaScript number. *)
Definition asNumber (n : nat) : Q := inject_Z (Z.of_nat n).

(** The books of a row balance. *)
Definition balanced (row : TournamentStanding) : Prop :=
  s_games row = (s_wins row + s_draws row + s_losses row)%nat
  /\ (2 * s_points row
      == 2 * asNumber (s_wins row) + asNumber (s_draws row))%Q
  /\ (s_checkmates row <= s_wins row)%nat
  /\ (s_illegalForfeits row + s_timeouts row + s_resignations row
      <= s_losses row)%nat.

(** How often a model played in a list of matches, a game against itself
    counting twice. *)
Definition appearances (m : string) (matches : list TournamentMatch) : nat :=
  (length (List.filter (fun g => String.eqb m (tm_white g)) matches)
   + length (List.filter (fun g => String.eqb m (tm_black g)) matches))%nat.

(** A name that a read of the table finds neither among the models nor
    on [Object.prototype]. *)
Definition unknown (models : list string) (key : string) : Prop :=
  ~ In key models /\ isBuiltIn key = false.

(** The table has a row for a name, as a property or as its prototype. *)
Definition hasRow (s : Store) (k : string) : Prop :=
  is_Some (t_rows (table s) k)
  \/ (k = "__proto__" /\ is_Some (t_prototype (table s))).

(** The table has its first prototype and nothing has been written onto
    [Object.prototype]. *)
Definition pristine (s : Store) : Prop :=
  t_prototype (table s) = None /\ inherited s = mkObjectPrototype [] None.

(** The table has no row for a name and [Object.prototype] has nothing
    under it. *)
Definition absent (s : Store) (k : string) : Prop :=
  t_rows (table s) k = None /\ isBuiltIn k = false.

(** The state of a run of the body on a pristine store, while both players
    are found. *)
Definition bothPresent (s0 : Store) (white black : string) (s : Store)
  : Prop :=
  pristine s
  /\ ~ absent s white /\ ~ absent s black
  /\ forall k, t_rows (table s) k = None <-> t_rows (table s0) k = None.

(** An assignment to the row of [key], seen from the row of [k]. *)
Definition onKey (key : string)
    (assign : TournamentStanding -> TournamentStanding) (k : string)
    (row : TournamentStanding) : TournamentStanding :=
  if String.eqb k key then assign row else row.

(** The row of the model [k] after the body of the loop has run for the
    match [m]: the assignments of the body in their order, each on the row
    it names; [forWhite] and [forBlack] are what [ratings[white]] and
    [ratings[black]] read at the end of the body. *)
Definition rowAfter (forWhite forBlack : option Rating) (m : TournamentMatch)
    (k : string) (row : TournamentStanding) : TournamentStanding :=
  let white := tm_white m in
  let black := tm_black m in
  let result := tm_result m in
  let plusOne counter := Standing.assign (Standing.plusOne counter) None in
  let plusPoints by_ := Standing.assign (Standing.plusPoints by_) None in
  let row := onKey white (plusOne Standing.games) k row in
  let row := onKey black (plusOne Standing.games) k row in
  let row :=
    match winner result with
    | draw =>
        onKey black (plusPoints (1 # 2)%Q) k
          (onKey white (plusPoints (1 # 2)%Q) k
             (onKey black (plusOne Standing.draws) k
                (onKey white (plusOne Standing.draws) k row)))
    | wins White =>
        onKey white (plusPoints 1%Q) k
          (onKey black (plusOne Standing.losses) k
             (onKey white (plusOne Standing.wins) k row))
    | wins Black =>
        onKey black (plusPoints 1%Q) k
          (onKey white (plusOne Standing.losses) k
             (onKey black (plusOne Standing.wins) k row))
    end in
  let blame counter onWhiteWin onBlackWin row :=
    match winner result with
    | wins White => onKey onWhiteWin (plusOne counter) k row
    | wins Black => onKey onBlackWin (plusOne counter) k row
    | draw => row
    end in
  let row :=
    match reason result with
    | checkmate => blame Standing.checkmates white black row
    | illegal => blame Standing.illegalForfeits black white row
    | timeout => blame Standing.timeouts black white row
    | resignation => blame Standing.resignations black white row
    | _ => row
    end in
  let row := onKey white (Standing.assign Standing.snapshot forWhite) k row in
  onKey black (Standing.assign Standing.snapshot forBlack) k row.

(** ** The move log of components/move-log.tsx *)

(** A row of the log: [{ white?, black?, moveNum }]. *)
Record MoveGroup := mkGroup {
  g_white : option MatchMoveEvent;
  g_black : option MatchMoveEvent;
  g_moveNum : nat
}.

(** [move.displayMoveNum ?? Math.floor(move.ply / 2) + 1] *)
Definition moveNumOf (move : MatchMoveEvent) : nat :=
  default (ev_ply move / 2 + 1)%nat (ev_displayMoveNum move).

(** [if (move.activeColor === "white") group.white = move;
     else group.black = move] *)
Definition placeMove (move : MatchMoveEvent) (group : MoveGroup)
  : MoveGroup :=
  match ev_activeColor move with
  | White => mkGroup (Some move) (g_black group) (g_moveNum group)
  | Black => mkGroup (g_white group) (Some move) (g_moveNum group)
  end.

(** The body of [moves.forEach]: the first group with the move number of
    the move, which [find] returns, is assigned the move in place; when
    there is none, a new group is pushed and assigned the move. *)
Fixpoint addMove (move : MatchMoveEvent) (groupedMoves : list MoveGroup)
  : list MoveGroup :=
  match groupedMoves with
  | [] => [placeMove move (mkGroup None None (moveNumOf move))]
  | group :: rest =>
      if (g_moveNum group =? moveNumOf move)%nat
      then placeMove move group :: rest
      else group :: addMove move rest
  end.

Definition groupMoves (moves : list MatchMoveEvent) : list MoveGroup :=
  fold_left (fun groupedMoves move => addMove move groupedMoves) moves [].

(** What the log shows for a move number and a color: the move of the
    first row with that number. *)
Fixpoint shown (groupedMoves : list MoveGroup) (moveNum : nat) (c : Color)
  : option MatchMoveEvent :=
  match groupedMoves with
  | [] => None
  | group :: rest =>
      if (g_moveNum group =? moveNum)%nat
      then match c with White => g_white group | Black => g_black group end
      else shown rest moveNum c
  end.

(** The move belongs in the place of the log for a move number and a
    color. *)
Definition placedAt (moveNum : nat) (c : Color) (move : MatchMoveEvent)
  : bool :=
  (moveNumOf move =? moveNum)%nat && bool_decide (ev_activeColor move = c).

(** The [moves] of the page after the events of a stream: [handleEvent] of
    app/page.tsx appends every move event. *)
Definition moveEvents (events : list MatchStreamEvent)
  : list MatchMoveEvent :=
  flat_map (fun e => match e with MoveEvent m => [m] | _ => [] end) events.

(** The place of a move in the log. *)
Definition placeOf (move : MatchMoveEvent) : nat * Color :=
  (moveNumOf move, ev_activeColor move).

(** The side to move after [k] moves when [c] is to move now. *)
Definition flipped (k : nat) (c : Color) : Color :=
  if Nat.even k then c else other c.

(** The places of [k] moves in a row that follow [n] moves, [c] being to
    move. *)
Definition placesFrom (n k : nat) (c : Color) : list (nat * Color) :=
  map (fun i => ((n + i) / 2 + 1, flipped i c)%nat) (seq 0 k).

(** An accepted move passes the turn to the other side. *)
Definition turnAlternates (L : Chess.lib) : Prop :=
  forall chess text moveResult chess',
    Chess.move L chess text = Some (moveResult, chess') ->
    Chess.turn L chess' = other (Chess.turn L chess).

(** * Properties *)

(** ** The move parser *)

Module ParserFacts.

Ltac each_char c :=
  destruct c as [[] [] [] [] [] [] [] []]; try reflexivity; try discriminate.

Lemma space_not_alnum c : Js.is_space c = true -> alnum (Js.lower_char c) = false.
Proof. each_char c. Qed.

Lemma alnum_not_space c : alnum c = true -> Js.is_space c = false.
Proof. each_char c. Qed.

Lemma alnum_lower c : alnum c = true -> Js.lower_char c = c.
Proof. each_char c. Qed.

Lemma alnum_not_colon c : alnum c = true -> c <> ":"%char.
Proof. each_char c. Qed.

Lemma filter_lower s :
  Js.filter alnum (Js.toLowerCase s)
  = Js.toLowerCase (Js.filter (fun c => alnum (Js.lower_char c)) s).
Proof.
  induction s as [|c s IH]; simpl; [reflexivity|].
  destruct (alnum (Js.lower_char c)); simpl; now rewrite IH.
Qed.

Lemma filter_rev_onto keep s acc :
  Js.filter keep (Js.rev_onto s acc)
  = Js.rev_onto (Js.filter keep s) (Js.filter keep acc).
Proof.
  revert acc; induction s as [|c s IH]; intros acc; simpl; [reflexivity|].
  rewrite IH; simpl. now destruct (keep c).
Qed.

Lemma filter_trimStart keep s :
  (forall c, Js.is_space c = true -> keep c = false) ->
  Js.filter keep (Js.trimStart s) = Js.filter keep s.
Proof.
  intros Hk; induction s as [|c s IH]; simpl; [reflexivity|].
  destruct (Js.is_space c) eqn:E; [|reflexivity].
  now rewrite (Hk c E).
Qed.

Lemma rev_onto_involutive a b c :
  Js.rev_onto (Js.rev_onto a b) c = Js.rev_onto b (a ++ c).
Proof.
  revert b c; induction a as [|x a IH]; intros b c; simpl; [reflexivity|].
  now rewrite IH.
Qed.

Lemma append_empty (s : string) : s ++ EmptyString = s.
Proof. induction s as [|x s IH]; simpl; congruence. Qed.

Lemma rev_rev s : Js.rev (Js.rev s) = s.
Proof.
  unfold Js.rev. rewrite rev_onto_involutive; simpl. apply append_empty.
Qed.

Lemma filter_rev keep s : Js.filter keep (Js.rev s) = Js.rev (Js.filter keep s).
Proof. unfold Js.rev. now rewrite filter_rev_onto. Qed.

Lemma filter_trim keep s :
  (forall c, Js.is_space c = true -> keep c = false) ->
  Js.filter keep (Js.trim s) = Js.filter keep s.
Proof.
  intros Hk. unfold Js.trim, Js.trimEnd.
  rewrite filter_rev, filter_trimStart, filter_rev, rev_rev by assumption.
  now apply filter_trimStart.
Qed.

Lemma all_rev_onto P s acc :
  all_chars P (Js.rev_onto s acc) = all_chars P s && all_chars P acc.
Proof.
  revert acc; induction s as [|c s IH]; intros acc; simpl; [reflexivity|].
  rewrite IH; simpl. now destruct (P c), (all_chars P s), (all_chars P acc).
Qed.

Lemma all_filter P s : all_chars P (Js.filter P s) = true.
Proof.
  induction s as [|c s IH]; simpl; [reflexivity|].
  destruct (P c) eqn:E; simpl; [now rewrite E|assumption].
Qed.

Lemma trimStart_alnum s : all_chars alnum s = true -> Js.trimStart s = s.
Proof.
  destruct s as [|c s]; simpl; [reflexivity|].
  intros H; apply andb_prop in H as [H _].
  now rewrite (alnum_not_space c H).
Qed.

Lemma trim_alnum s : all_chars alnum s = true -> Js.trim s = s.
Proof.
  intros H. unfold Js.trim, Js.trimEnd.
  rewrite (trimStart_alnum s H).
  rewrite trimStart_alnum.
  - apply rev_rev.
  - unfold Js.rev. rewrite all_rev_onto, H. reflexivity.
Qed.

Lemma toLowerCase_alnum s : all_chars alnum s = true -> Js.toLowerCase s = s.
Proof.
  induction s as [|c s IH]; simpl; [reflexivity|].
  intros H; apply andb_prop in H as [Hc Hs].
  now rewrite (alnum_lower c Hc), IH.
Qed.

Lemma substring_all s : substring 0 (String.length s) s = s.
Proof. induction s as [|c s IH]; simpl; congruence. Qed.

Lemma strip_prefix_sound p s rest :
  Js.strip_prefix p s = Some rest -> s = p ++ rest.
Proof.
  revert s; induction p as [|a p IH]; intros s; simpl.
  - congruence.
  - destruct s as [|c s]; [discriminate|].
    destruct (Ascii.eqb_spec a c); [|discriminate].
    intros H; apply IH in H. now subst.
Qed.

Lemma strip_prefix_all P p s rest :
  Js.strip_prefix p s = Some rest -> all_chars P s = true -> all_chars P rest = true.
Proof.
  revert s; induction p as [|a p IH]; intros s; simpl.
  - congruence.
  - destruct s as [|c s]; [discriminate|].
    destruct (Ascii.eqb a c); [|discriminate].
    simpl. intros H Hs; apply andb_prop in Hs as [_ Hs]. eauto.
Qed.

Lemma strip_move_label_alnum s :
  all_chars alnum s = true ->
  strip_move_label s
  = match Js.strip_prefix "move" s with Some rest => rest | None => s end.
Proof.
  intros H. unfold strip_move_label.
  rewrite (toLowerCase_alnum s H).
  destruct (Js.strip_prefix "move" s) as [rest|] eqn:E; [|reflexivity].
  pose proof (strip_prefix_all _ _ _ _ E H) as Hrest.
  apply strip_prefix_sound in E; subst s.
  unfold Js.slice; cbn [append String.length Nat.sub substring].
  rewrite Nat.sub_0_r, substring_all.
  destruct rest as [|c rest]; [reflexivity|].
  simpl in Hrest; apply andb_prop in Hrest as [Hc _].
  pose proof (alnum_not_colon c Hc) as Hne.
  destruct c as [[] [] [] [] [] [] [] []]; try reflexivity.
  now contradiction Hne.
Qed.

(** The two [trim] calls and the optional colon of the label change
    nothing: the cleaned text of the code is the cleaned text of the
    specification. *)
Lemma clean_cleaned_text raw : clean raw = cleaned_text raw.
Proof.
  unfold clean, cleaned_text, strip_non_alnum. fold alnum.
  assert (E : Js.filter alnum (Js.toLowerCase (Js.trim raw))
              = Js.filter alnum (Js.toLowerCase raw)).
  { rewrite !filter_lower. f_equal. apply filter_trim, space_not_alnum. }
  rewrite E. set (kept := Js.filter alnum (Js.toLowerCase raw)).
  assert (Hk : all_chars alnum kept = true) by apply all_filter.
  rewrite (strip_move_label_alnum kept Hk).
  apply trim_alnum.
  destruct (Js.strip_prefix "move" kept) as [rest|] eqn:Er; [|assumption].
  eapply strip_prefix_all; eassumption.
Qed.

Lemma promotion_letters c :
  (if negb (Js.char_in c "qrbn") then None else symbol_of_char c)
  = promotion_of (Some c).
Proof. each_char c. Qed.

Lemma file_letters c : Js.between 97 104 c = Js.char_in c "abcdefgh".
Proof. each_char c. Qed.

Lemma rank_digits c : Js.between 49 56 c = Js.char_in c "12345678".
Proof. each_char c. Qed.

(** [isSquare] tests the pattern of a square. *)
Lemma isSquare_pattern s : isSquare s = squarePattern s.
Proof.
  destruct s as [|file [|rank [|]]]; try reflexivity.
  cbn [isSquare squarePattern]. now rewrite file_letters, rank_digits.
Qed.

End ParserFacts.

(** When [parseUciMove] returns [null]: it works on the lowercased text with every
    character but letters and digits removed and one leading "move" dropped,
    and it returns [null] exactly when that text is empty, is "resign", is
    shorter than 4 or longer than 5 characters, or has a first or a second
    pair of characters that is not a square. *)
Lemma parseUciMove_null (raw : string) :
  let cleaned := cleaned_text raw in
  parseUciMove raw = None <->
  (cleaned = EmptyString \/ cleaned = "resign"
   \/ (String.length cleaned < 4)%nat \/ (5 < String.length cleaned)%nat
   \/ isSquare (Js.slice 0 2 cleaned) = false
   \/ isSquare (Js.slice 2 4 cleaned) = false).
Proof.
  intros cleaned. unfold parseUciMove.
  rewrite ParserFacts.clean_cleaned_text. fold cleaned.
  destruct (String.eqb_spec cleaned "resign") as [Hr|Hr]; cbn [orb negb];
    [tauto|].
  destruct (String.eqb_spec cleaned EmptyString) as [He|He]; cbn [orb negb]; [tauto|].
  destruct (Nat.ltb_spec (String.length cleaned) 4) as [H4|H4]; cbn [orb negb];
    [tauto|].
  destruct (Nat.ltb_spec 5 (String.length cleaned)) as [H5|H5]; cbn [orb negb];
    [tauto|].
  destruct (isSquare (Js.slice 0 2 cleaned)) eqn:Ef; cbn [orb negb];
    [|tauto].
  destruct (isSquare (Js.slice 2 4 cleaned)) eqn:Et; cbn [orb negb];
    [|tauto].
  split.
  - intros H. destruct (Js.at_ 4 cleaned) as [c|]; [|discriminate H].
    destruct (Js.char_in c "qrbn"); discriminate H.
  - intros [H|[H|[H|[H|[H|H]]]]]; try contradiction; try lia; discriminate H.
Qed.

(** C7: [parseUciMove] works on the lowercased text with every character but
    letters and digits removed and one leading "move" dropped. It returns
    [null] exactly when that text is empty, is "resign", is shorter than 4
    or longer than 5 characters, or has a first or a second pair of
    characters that is not a file letter from a to h followed by a rank
    digit from 1 to 8; otherwise it returns the two squares, with the fifth
    character as the promotion piece when it is one of q, r, b, n and with
    no promotion otherwise. *)
Theorem parseUciMove_spec (raw : string) :
  (parseUciMove raw = None <->
   (cleaned_text raw = EmptyString
    \/ cleaned_text raw = "resign"
    \/ (String.length (cleaned_text raw) < 4)%nat
    \/ (5 < String.length (cleaned_text raw))%nat
    \/ squarePattern (Js.slice 0 2 (cleaned_text raw)) = false
    \/ squarePattern (Js.slice 2 4 (cleaned_text raw)) = false))
  /\ (parseUciMove raw = None
      \/ parseUciMove raw
         = Some (mkUci (Js.slice 0 2 (cleaned_text raw))
                   (Js.slice 2 4 (cleaned_text raw))
                   (promotion_of
                      (Js.at_ 4 (cleaned_text raw))))).
Proof.
  split.
  - rewrite <- !ParserFacts.isSquare_pattern. apply parseUciMove_null.
  - unfold parseUciMove. rewrite ParserFacts.clean_cleaned_text.
    set (cleaned := cleaned_text raw).
    destruct (_ || _); [now left|].
    destruct (_ || _); [now left|].
    destruct (_ || _); [now left|].
    right. destruct (Js.at_ 4 cleaned) as [c|]; [|reflexivity].
    rewrite <- ParserFacts.promotion_letters.
    now destruct (Js.char_in c "qrbn").
Qed.

(** ** The chaos move *)

Module ChaosFacts.

Import ParserFacts.

Lemma nospace_app a b :
  nospace a = true -> nospace b = true -> nospace (a ++ b) = true.
Proof.
  induction a as [|c a IH]; simpl; [auto|].
  intros H Hb; apply andb_prop in H as [Hc Ha].
  rewrite Hc; simpl; auto.
Qed.

Lemma nospace_uint d : nospace (NilEmpty.string_of_uint d) = true.
Proof. induction d; simpl; auto. Qed.

Lemma nospace_of_int n : nospace (Js.of_int n) = true.
Proof.
  unfold Js.of_int, NilZero.string_of_int, NilZero.string_of_uint.
  destruct (Z.to_int n) as [d|d].
  - destruct d; try reflexivity; apply (nospace_uint (_ _)).
  - simpl. destruct d; try reflexivity; apply (nospace_uint (_ _)).
Qed.

Lemma nospace_piece_letter sq : nospace (piece_letter sq) = true.
Proof. destruct sq as [[] []]; reflexivity. Qed.

Lemma nospace_rankToFen rank : forall empty row,
  nospace row = true -> nospace (rankToFen rank empty row) = true.
Proof.
  induction rank as [|[sq|] rank IH]; intros empty row Hrow; simpl.
  - destruct (empty =? 0)%nat; [assumption|].
    apply nospace_app; [assumption|apply nospace_of_int].
  - apply IH. apply nospace_app; [|apply nospace_piece_letter].
    destruct (empty =? 0)%nat; [assumption|].
    apply nospace_app; [assumption|apply nospace_of_int].
  - now apply IH.
Qed.

Lemma nospace_join parts :
  Forall (fun s => nospace s = true) parts ->
  nospace (Js.join "/" parts) = true.
Proof.
  induction 1 as [|x rest Hx Hrest IH]; [reflexivity|].
  destruct rest as [|y rest]; [assumption|].
  change (nospace (x ++ "/" ++ Js.join "/" (y :: rest)) = true).
  apply nospace_app; [assumption|]. now apply (nospace_app "/").
Qed.

Lemma nospace_boardToFen board : nospace (boardToFen board) = true.
Proof.
  apply nospace_join, Forall_map, Forall_forall.
  intros rank _. now apply nospace_rankToFen.
Qed.

Lemma split_on_nospace a : forall cur s,
  nospace a = true ->
  Js.split_on " " cur (a ++ s) = Js.split_on " " (Js.rev_onto a cur) s.
Proof.
  induction a as [|c a IH]; intros cur s H; simpl; [reflexivity|].
  simpl in H; apply andb_prop in H as [Hc Ha].
  unfold not_space in Hc. destruct (Ascii.eqb c " "); [discriminate|].
  now apply IH.
Qed.

(** Splitting a text without a space that is followed by a space. *)
Lemma split_field a rest :
  nospace a = true ->
  Js.split " " (a ++ " " ++ rest) = a :: Js.split " " rest.
Proof.
  intros H. unfold Js.split. rewrite split_on_nospace by assumption.
  simpl. f_equal. apply rev_rev.
Qed.

Lemma split_last a : nospace a = true -> Js.split " " a = [a].
Proof.
  intros H. unfold Js.split.
  rewrite <- (append_empty a) at 1. rewrite split_on_nospace by assumption.
  simpl. f_equal. apply rev_rev.
Qed.

(** The fields of the FEN that [applyChaosMove] builds. *)
Lemma split_fen placement turn number :
  nospace placement = true -> nospace turn = true -> nospace number = true ->
  Js.split " " (placement ++ " " ++ turn ++ " - - 0 " ++ number)
  = [placement; turn; "-"; "-"; "0"; number].
Proof.
  intros Hp Ht Hn.
  rewrite split_field by assumption.
  change (turn ++ " - - 0 " ++ number)
    with (turn ++ " " ++ ("-" ++ " " ++ ("-" ++ " " ++ ("0" ++ " " ++ number)))).
  rewrite split_field by assumption.
  rewrite !split_field by reflexivity.
  now rewrite split_last.
Qed.

Lemma file_index f :
  Js.between 97 104 f = true ->
  exists i, indexOf f files = Some i /\ (i < 8)%nat.
Proof.
  each_char f; intros _; eexists; (split; [cbv; reflexivity|lia]).
Qed.

Lemma rank_index r :
  Js.between 49 56 r = true ->
  exists d, Js.parseInt (String r EmptyString) = Some d /\ (1 <= d <= 8)%Z.
Proof.
  each_char r; intros _; eexists; (split; [cbv; reflexivity|lia]).
Qed.

(** A square has indices on the board. *)
Lemma isSquare_index square :
  isSquare square = true ->
  exists rank file,
    squareToIndex square = Some (rank, file) /\ (rank < 8)%nat /\ (file < 8)%nat.
Proof.
  destruct square as [|f [|r [|]]]; try discriminate.
  unfold isSquare. intros H; apply andb_prop in H as [Hf Hr].
  destruct (file_index f Hf) as (i & Hi & Hlt).
  destruct (rank_index r Hr) as (d & Hd & Hd8).
  unfold squareToIndex. cbn [Js.at_ get].
  rewrite Hi, Hd.
  destruct (Z.leb_spec 0 (8 - d)); [|lia].
  destruct (Z.ltb_spec (8 - d) 8); [|lia].
  cbn [andb]. exists (Z.to_nat (8 - d)), i. repeat split; [lia|assumption].
Qed.

Lemma row_get_set_eq file x row : row_get (array_set file x None row) file = x.
Proof.
  unfold row_get, array_set. case_decide as Hlt.
  - now rewrite list_lookup_insert_eq.
  - rewrite lookup_app_r by lia.
    rewrite lookup_app_r by (rewrite length_replicate; lia).
    rewrite length_replicate.
    now replace (file - length row - (file - length row))%nat with 0%nat by lia.
Qed.

Lemma row_get_set_ne file file' x row :
  file <> file' -> row_get (array_set file x None row) file' = row_get row file'.
Proof.
  intros Hne. unfold row_get, array_set. case_decide as Hlt.
  - now rewrite list_lookup_insert_ne.
  - destruct (decide (file' < length row)%nat) as [Hin|Hout].
    + now rewrite lookup_app_l.
    + rewrite (lookup_ge_None_2 row file') by lia.
      rewrite lookup_app_r by lia.
      destruct (decide (file' < file)%nat) as [Hlo|Hhi].
      * rewrite lookup_app_l by (rewrite length_replicate; lia).
        rewrite lookup_replicate_2 by lia. reflexivity.
      * rewrite lookup_app_r by (rewrite length_replicate; lia).
        rewrite length_replicate.
        destruct (file' - length row - (file - length row))%nat eqn:E;
          [lia|reflexivity].
Qed.

Lemma board_get_row board rank file :
  board_get board rank file
  = match board !! rank with Some row => row_get row file | None => None end.
Proof. reflexivity. Qed.

Lemma board_set_get_eq board rank file x board' :
  board_set board rank file x = Some board' ->
  board_get board' rank file = x.
Proof.
  unfold board_set. destruct (board !! rank) as [row|] eqn:E; [|discriminate].
  intros [= <-]. rewrite board_get_row.
  rewrite list_lookup_insert_eq by (eapply lookup_lt_Some; eassumption).
  apply row_get_set_eq.
Qed.

Lemma board_set_get_ne board rank file x board' rank' file' :
  board_set board rank file x = Some board' ->
  (rank, file) <> (rank', file') ->
  board_get board' rank' file' = board_get board rank' file'.
Proof.
  unfold board_set. destruct (board !! rank) as [row|] eqn:E; [|discriminate].
  intros [= <-] Hne. rewrite !board_get_row.
  destruct (decide (rank = rank')) as [<-|Hr].
  - rewrite list_lookup_insert_eq by (eapply lookup_lt_Some; eassumption).
    rewrite E. apply row_get_set_ne. congruence.
  - now rewrite list_lookup_insert_ne.
Qed.

Lemma board_set_length board rank file x board' :
  board_set board rank file x = Some board' -> length board' = length board.
Proof.
  unfold board_set. destruct (board !! rank); [|discriminate].
  intros [= <-]. apply length_insert.
Qed.

Lemma board_set_some board rank file x :
  (rank < length board)%nat -> exists board', board_set board rank file x = Some board'.
Proof.
  intros H. unfold board_set.
  destruct (lookup_lt_is_Some_2 board rank H) as [row ->]. eauto.
Qed.

Lemma chaosBoard_spec board uci color :
  length board = 8%nat ->
  isSquare (from uci) = true -> isSquare (to uci) = true ->
  exists fromRank fromFile toRank toFile board',
    squareToIndex (from uci) = Some (fromRank, fromFile)
    /\ squareToIndex (to uci) = Some (toRank, toFile)
    /\ chaosBoard board uci color = Some board'
    /\ length board' = 8%nat
    /\ board_get board' toRank toFile
       = Some (placed board uci color fromRank fromFile)
    /\ ((fromRank, fromFile) <> (toRank, toFile) ->
        board_get board' fromRank fromFile = None)
    /\ (forall rank file,
          (rank, file) <> (fromRank, fromFile) ->
          (rank, file) <> (toRank, toFile) ->
          board_get board' rank file = board_get board rank file).
Proof.
  intros Hlen Hfrom Hto.
  destruct (isSquare_index _ Hfrom) as (fr & ff & Ef & Hfr & Hff).
  destruct (isSquare_index _ Hto) as (tr & tf & Et & Htr & Htf).
  destruct (board_set_some board fr ff None) as [board1 E1]; [lia|].
  pose proof (board_set_length _ _ _ _ _ E1) as Hlen1.
  destruct (board_set_some board1 tr tf
              (Some (placed board uci color fr ff))) as [board2 E2]; [lia|].
  exists fr, ff, tr, tf, board2.
  assert (Hc : chaosBoard board uci color = Some board2).
  { unfold chaosBoard. rewrite Ef, Et.
    destruct (lookup_lt_is_Some_2 board fr) as [row Hrow]; [lia|].
    rewrite Hrow, E1. rewrite <- E2. f_equal. f_equal.
    unfold placed. f_equal.
    destruct (promotion uci); simpl; [reflexivity|].
    now destruct (board_get board fr ff). }
  repeat split; try assumption.
  - rewrite (board_set_length _ _ _ _ _ E2). lia.
  - eapply board_set_get_eq; eassumption.
  - intros Hne. rewrite (board_set_get_ne _ _ _ _ _ _ _ E2) by congruence.
    eapply board_set_get_eq; eassumption.
  - intros rank file H1 H2.
    rewrite (board_set_get_ne _ _ _ _ _ _ _ E2) by congruence.
    now rewrite (board_set_get_ne _ _ _ _ _ _ _ E1) by congruence.
Qed.

End ChaosFacts.

(** ** The initial clocks *)

(** *** Rounding to a double *)

Module DoubleFacts.
Import Double.
Local Open Scope Q_scope.

Lemma pow2_pos e : 0 < 2 ^ e.
Proof. apply Qpower_0_lt. reflexivity. Qed.

Lemma pow2_plus a b : 2 ^ (a + b) == 2 ^ a * 2 ^ b.
Proof. apply Qpower_plus. discriminate. Qed.

Lemma pow2_S a : 2 ^ (a + 1) == 2 * 2 ^ a.
Proof. rewrite pow2_plus. change (2 ^ 1) with 2. ring. Qed.

Lemma pow2_inject n : (0 <= n)%Z -> 2 ^ n == inject_Z (2 ^ n).
Proof.
  intros H. rewrite <- (Z2Nat.id n H).
  generalize (Z.to_nat n). clear. intros k.
  induction k as [|k IH].
  - reflexivity.
  - rewrite Nat2Z.inj_succ. unfold Z.succ.
    rewrite pow2_S, IH, Z.pow_add_r by lia.
    change (2 ^ 1)%Z with 2%Z. rewrite inject_Z_mult. ring.
Qed.

Lemma pow2_le a b : (a <= b)%Z -> 2 ^ a <= 2 ^ b.
Proof.
  intros H. replace b with (a + (b - a))%Z by lia.
  rewrite pow2_plus.
  assert (1 <= 2 ^ (b - a)).
  { rewrite pow2_inject by lia.
    change 1 with (inject_Z 1). rewrite <- Zle_Qle.
    pose proof (Z.pow_pos_nonneg 2 (b - a)). lia. }
  pose proof (pow2_pos a). nra.
Qed.

Lemma pow2_lt_inv a b : 2 ^ a < 2 ^ b -> (a < b)%Z.
Proof.
  intros H. destruct (Z.lt_ge_cases a b) as [|Hge]; [assumption|].
  apply pow2_le in Hge. lra.
Qed.

(** The binade of a positive number. *)
Lemma exponent_spec x :
  0 < x -> 2 ^ exponent x <= x /\ x < 2 ^ (exponent x + 1).
Proof.
  intros Hx. unfold exponent.
  destruct x as [n d]. cbn [Qnum Qden].
  assert (Hn : (0 < n)%Z) by (unfold Qlt in Hx; cbn in Hx; lia).
  set (a := Z.log2 n). set (b := Z.log2 (Z.pos d)).
  destruct (Z.log2_spec n Hn) as [Ha1 Ha2]. fold a in Ha1, Ha2.
  destruct (Z.log2_spec (Z.pos d) eq_refl) as [Hb1 Hb2]. fold b in Hb1, Hb2.
  assert (Ha0 : (0 <= a)%Z) by apply Z.log2_nonneg.
  assert (Hb0 : (0 <= b)%Z) by apply Z.log2_nonneg.
  assert (Hq : n # d == inject_Z n / inject_Z (Z.pos d))
    by (now rewrite Qmake_Qdiv).
  assert (Hd : 0 < inject_Z (Z.pos d)) by (unfold Qlt; cbn; lia).
  assert (Pa : 2 ^ a <= inject_Z n /\ inject_Z n < 2 * 2 ^ a).
  { rewrite pow2_inject by lia. split.
    - now rewrite <- Zle_Qle.
    - change 2 with (inject_Z 2) at 1. rewrite <- inject_Z_mult, <- Zlt_Qlt.
      rewrite Z.pow_succ_r in Ha2 by lia. lia. }
  assert (Pb : 2 ^ b <= inject_Z (Z.pos d) /\ inject_Z (Z.pos d) < 2 * 2 ^ b).
  { rewrite pow2_inject by lia. split.
    - now rewrite <- Zle_Qle.
    - change 2 with (inject_Z 2) at 1. rewrite <- inject_Z_mult, <- Zlt_Qlt.
      rewrite Z.pow_succ_r in Hb2 by lia. lia. }
  assert (Hab : 2 ^ a == 2 ^ (a - b) * 2 ^ b).
  { rewrite <- pow2_plus. now replace (a - b + b)%Z with a by lia. }
  pose proof (pow2_pos (a - b)) as P1. pose proof (pow2_pos b) as P2.
  assert (Hx' : (n # d) * inject_Z (Z.pos d) == inject_Z n).
  { rewrite Hq. field. lra. }
  destruct (Qle_bool (2 ^ (a - b)) (n # d)) eqn:E.
  - apply Qle_bool_iff in E. split; [assumption|].
    rewrite pow2_S.
    apply Qnot_le_lt. intros Hc.
    assert (2 * 2 ^ (a - b) * 2 ^ b <= (n # d) * inject_Z (Z.pos d)) by nra.
    nra.
  - assert (E' : (n # d) < 2 ^ (a - b)).
    { apply Qnot_le_lt. intros Hc. apply Qle_bool_iff in Hc. congruence. }
    replace (a - b - 1 + 1)%Z with (a - b)%Z by lia.
    split; [|assumption].
    assert (Hh : 2 ^ (a - b) == 2 * 2 ^ (a - b - 1)).
    { rewrite <- pow2_S. now replace (a - b - 1 + 1)%Z with (a - b)%Z by lia. }
    apply Qnot_lt_le. intros Hc.
    assert ((n # d) * inject_Z (Z.pos d) < 2 ^ (a - b - 1) * (2 * 2 ^ b)) by nra.
    nra.
Qed.

Lemma exponent_unique x e :
  2 ^ e <= x -> x < 2 ^ (e + 1) -> exponent x = e.
Proof.
  intros H1 H2.
  assert (Hx : 0 < x) by (pose proof (pow2_pos e); lra).
  destruct (exponent_spec x Hx) as [H3 H4].
  assert ((exponent x < e + 1)%Z) by (apply pow2_lt_inv; lra).
  assert ((e < exponent x + 1)%Z) by (apply pow2_lt_inv; lra).
  lia.
Qed.

Lemma roundEven_floor y : (Qfloor y <= roundEven y <= Qfloor y + 1)%Z.
Proof.
  unfold roundEven. destruct (_ ?= _); [destruct (Z.even _)| |]; lia.
Qed.

Lemma roundEven_ge y k : inject_Z k <= y -> (k <= roundEven y)%Z.
Proof.
  intros H. pose proof (roundEven_floor y).
  assert ((k <= Qfloor y)%Z); [|lia].
  rewrite <- (Qfloor_Z k). now apply Qfloor_resp_le.
Qed.

Lemma roundEven_le y k : y <= inject_Z k -> (roundEven y <= k)%Z.
Proof.
  intros H. pose proof (roundEven_floor y) as Hf.
  assert (Hk : (Qfloor y <= k)%Z).
  { rewrite <- (Qfloor_Z k). now apply Qfloor_resp_le. }
  destruct (Z.eq_dec (Qfloor y) k) as [E|E]; [|lia].
  unfold roundEven. rewrite E.
  assert (Hy : y - inject_Z k <= 0) by lra.
  destruct (y - inject_Z k ?= 1 # 2) eqn:C.
  - apply Qeq_alt in C. lra.
  - lia.
  - apply Qgt_alt in C. lra.
Qed.

Lemma roundEven_Z k : roundEven (inject_Z k) = k.
Proof.
  apply Z.le_antisymm; [apply roundEven_le|apply roundEven_ge]; lra.
Qed.

Lemma roundEven_near y : Qabs (inject_Z (roundEven y) - y) <= 1 # 2.
Proof.
  pose proof (Qfloor_le y) as H1. pose proof (Qlt_floor y) as H2.
  rewrite inject_Z_plus in H2. change (inject_Z 1) with 1 in H2.
  unfold roundEven.
  apply Qabs_Qle_condition.
  destruct (y - inject_Z (Qfloor y) ?= 1 # 2) eqn:C.
  - apply Qeq_alt in C.
    destruct (Z.even _); rewrite ?inject_Z_plus; change (inject_Z 1) with 1;
      lra.
  - apply Qlt_alt in C. lra.
  - apply Qgt_alt in C. rewrite inject_Z_plus. change (inject_Z 1) with 1.
    lra.
Qed.

Lemma round_0 : round 0 = 0.
Proof. reflexivity. Qed.

Lemma ulp_pos x : 0 < ulp x.
Proof. apply pow2_pos. Qed.

Lemma round_eq x :
  ~ x == 0 -> round x == inject_Z (roundEven (x / ulp x)) * ulp x.
Proof.
  intros H. unfold round.
  destruct (Qeq_bool x 0) eqn:E; [apply Qeq_bool_iff in E; contradiction|].
  apply Qred_correct.
Qed.

(** The result is within half a unit in the last place. *)
Lemma round_near x : Qabs (round x - x) <= ulp x / 2.
Proof.
  pose proof (ulp_pos x) as Hu.
  destruct (Qeq_dec x 0) as [E|E].
  - unfold round. destruct (Qeq_bool x 0) eqn:E'.
    + apply Qabs_Qle_condition.
      assert (0 <= ulp x / 2) by (apply Qle_shift_div_l; lra). lra.
    + apply Qeq_bool_neq in E'. contradiction.
  - rewrite round_eq by assumption.
    pose proof (roundEven_near (x / ulp x)) as H.
    set (r := inject_Z (roundEven (x / ulp x))) in *.
    assert (Hx : x == x / ulp x * ulp x) by (field; lra).
    apply Qabs_Qle_condition in H. apply Qabs_Qle_condition.
    assert (ulp x / 2 == (1 # 2) * ulp x) by (field).
    split.
    + assert ((- (1 # 2)) * ulp x <= (r - x / ulp x) * ulp x) by nra.
      assert ((r - x / ulp x) * ulp x == r * ulp x - x) by (field; lra).
      lra.
    + assert ((r - x / ulp x) * ulp x <= (1 # 2) * ulp x) by nra.
      assert ((r - x / ulp x) * ulp x == r * ulp x - x) by (field; lra).
      lra.
Qed.

(** A multiple of the unit in the last place below [x] stays below its
    rounding, and one above stays above. *)
Lemma round_ge x k : ~ x == 0 -> inject_Z k * ulp x <= x ->
  inject_Z k * ulp x <= round x.
Proof.
  intros Hx H. pose proof (ulp_pos x) as Hu. rewrite round_eq by assumption.
  assert (Hk : inject_Z k <= x / ulp x) by (apply Qle_shift_div_l; lra).
  apply roundEven_ge in Hk. rewrite Zle_Qle in Hk. nra.
Qed.

Lemma round_le x k : ~ x == 0 -> x <= inject_Z k * ulp x ->
  round x <= inject_Z k * ulp x.
Proof.
  intros Hx H. pose proof (ulp_pos x) as Hu. rewrite round_eq by assumption.
  assert (Hk : x / ulp x <= inject_Z k) by (apply Qle_shift_div_r; lra).
  apply roundEven_le in Hk. rewrite Zle_Qle in Hk. nra.
Qed.

Lemma exponent_comp x y : 0 < x -> x == y -> exponent x = exponent y.
Proof.
  intros Hx E. destruct (exponent_spec x Hx) as [H1 H2].
  symmetry. apply exponent_unique; lra.
Qed.

Lemma ulp_comp x y : ~ x == 0 -> x == y -> ulp x = ulp y.
Proof.
  intros Hx E. unfold ulp. f_equal. f_equal. f_equal.
  apply exponent_comp.
  - destruct (Qabs_Qle_condition x 0) as [H _].
    apply Qnot_le_lt. intros Hc. apply H in Hc.
    apply Hx. lra.
  - now rewrite E.
Qed.

Lemma roundEven_comp x y : x == y -> roundEven x = roundEven y.
Proof.
  intros E. unfold roundEven. rewrite (Qfloor_comp x y E).
  assert (C : (x - inject_Z (Qfloor y) ?= 1 # 2)
              = (y - inject_Z (Qfloor y) ?= 1 # 2))
    by (now rewrite E).
  now rewrite C.
Qed.

Lemma round_comp x y : x == y -> round x = round y.
Proof.
  intros E. unfold round.
  assert (Qeq_bool x 0 = Qeq_bool y 0) as ->.
  { destruct (Qeq_bool y 0) eqn:Ey.
    - apply Qeq_bool_iff in Ey. apply Qeq_bool_iff. lra.
    - apply Qeq_bool_neq in Ey.
      destruct (Qeq_bool x 0) eqn:Ex; [|reflexivity].
      apply Qeq_bool_iff in Ex. destruct Ey. lra. }
  destruct (Qeq_bool y 0) eqn:Ey; [reflexivity|].
  apply Qeq_bool_neq in Ey.
  assert (Hx : ~ x == 0) by (intros H; apply Ey; lra).
  rewrite <- (ulp_comp x y Hx E).
  apply Qred_complete.
  rewrite (roundEven_comp (x / ulp x) (y / ulp x)); [reflexivity|].
  unfold Qdiv. now apply Qmult_comp.
Qed.

#[global] Instance round_proper : Proper (Qeq ==> Qeq) round.
Proof. intros x y E. now rewrite (round_comp x y E). Qed.

(** The unit in the last place of a number of milliseconds between one
    and three minutes. *)
Lemma ulp_minutes x :
  60000 <= x <= 180000 ->
  exists e,
    (15 <= e <= 17)%Z /\ ulp x = 2 ^ (e - 52) /\ x < 2 ^ (e + 1).
Proof.
  intros [H1 H2].
  assert (Habs : Qabs x == x) by (apply Qabs_pos; lra).
  assert (Hx : 0 < Qabs x) by lra.
  destruct (exponent_spec (Qabs x) Hx) as [H3 H4].
  exists (exponent (Qabs x)). split; [|split; [|lra]].
  - assert (2 ^ 15 < 2 ^ (exponent (Qabs x) + 1)).
    { change (2 ^ 15) with 32768. lra. }
    assert (2 ^ exponent (Qabs x) < 2 ^ 18).
    { change (2 ^ 18) with 262144. lra. }
    pose proof (pow2_lt_inv _ _ H). pose proof (pow2_lt_inv _ _ H0). lia.
  - unfold ulp. f_equal.
    assert (2 ^ 15 < 2 ^ (exponent (Qabs x) + 1)).
    { change (2 ^ 15) with 32768. lra. }
    pose proof (pow2_lt_inv _ _ H). lia.
Qed.

Lemma round_minutes x :
  60000 <= x <= 180000 -> 60000 <= round x <= 180000.
Proof.
  intros Hx.
  destruct (ulp_minutes x Hx) as (e & He & Hu & Hlt).
  assert (Hne : ~ x == 0) by lra.
  assert (Hk : forall n : Z,
            inject_Z n == inject_Z (n * 2 ^ (52 - e)) * ulp x).
  { intros n. rewrite Hu, inject_Z_mult, <- pow2_inject by lia.
    rewrite <- Qmult_assoc, <- pow2_plus.
    replace (52 - e + (e - 52))%Z with 0%Z by lia.
    change (2 ^ 0) with 1. ring. }
  split.
  - change 60000 with (inject_Z 60000). rewrite (Hk 60000%Z).
    apply round_ge; [assumption|]. rewrite <- Hk.
    change (inject_Z 60000) with 60000. lra.
  - change 180000 with (inject_Z 180000). rewrite (Hk 180000%Z).
    apply round_le; [assumption|]. rewrite <- Hk.
    change (inject_Z 180000) with 180000. lra.
Qed.

(** A whole number of milliseconds is a double. *)
Lemma round_whole x n :
  60000 <= x <= 180000 -> x == inject_Z n -> round x == inject_Z n.
Proof.
  intros Hx E.
  destruct (ulp_minutes x Hx) as (e & He & Hu & Hlt).
  assert (Hne : ~ x == 0) by lra.
  assert (Hk : inject_Z n == inject_Z (n * 2 ^ (52 - e)) * ulp x).
  { rewrite Hu, inject_Z_mult, <- pow2_inject by lia.
    rewrite <- Qmult_assoc, <- pow2_plus.
    replace (52 - e + (e - 52))%Z with 0%Z by lia.
    change (2 ^ 0) with 1. ring. }
  apply Qle_antisym.
  - rewrite Hk. apply round_le; [assumption|]. rewrite <- Hk. lra.
  - rewrite Hk. apply round_ge; [assumption|]. rewrite <- Hk. lra.
Qed.

Lemma round_minutes_near x :
  60000 <= x <= 180000 -> Qabs (round x - x) <= 1 # (2 ^ 36).
Proof.
  intros Hx. pose proof (round_near x) as H.
  destruct (ulp_minutes x Hx) as (e & He & Hu & Hlt).
  assert (ulp x <= 2 ^ (-35)).
  { rewrite Hu. apply pow2_le. lia. }
  change (2 ^ (-35)) with (1 # 2 ^ 35) in H0.
  assert (ulp x / 2 <= 1 # 2 ^ 36).
  { apply Qle_shift_div_r; [lra|].
    assert ((1 # 2 ^ 36) * 2 == 1 # 2 ^ 35) by reflexivity. lra. }
  lra.
Qed.

(** The rounded number of milliseconds is a double. *)
Lemma round_minutes_double x :
  60000 <= x <= 180000 -> isDouble (round x).
Proof.
  intros Hx.
  destruct (ulp_minutes x Hx) as (e & He & Hu & Hlt).
  assert (Hne : ~ x == 0) by lra.
  pose proof (ulp_pos x) as Hpos.
  set (k := roundEven (x / ulp x)).
  assert (Hr : round x == inject_Z k * 2 ^ (e - 52))
    by (unfold k; rewrite <- Hu; now apply round_eq).
  assert (Htop : 2 ^ (e + 1) == inject_Z (2 ^ 53) * ulp x).
  { rewrite Hu, <- pow2_inject, <- pow2_plus by lia.
    now replace (53 + (e - 52))%Z with (e + 1)%Z by lia. }
  assert (Hk0 : (0 <= k)%Z).
  { apply roundEven_ge. apply Qle_shift_div_l; [assumption|].
    change (inject_Z 0) with 0. lra. }
  assert (Hk1 : (k <= 2 ^ 53)%Z).
  { apply roundEven_le. apply Qle_shift_div_r; [assumption|]. lra. }
  destruct (Z.eq_dec k (2 ^ 53)%Z) as [E|E].
  - exists (2 ^ 52)%Z, (e - 51)%Z.
    split; [reflexivity|]. split; [lia|].
    rewrite Hr, E. replace (e - 51)%Z with (1 + (e - 52))%Z by lia.
    rewrite (pow2_plus 1). change (2 ^ 1) with 2.
    change (inject_Z (2 ^ 53)) with (inject_Z (2 ^ 52) * 2). ring.
  - exists k, (e - 52)%Z.
    split; [lia|]. split; [lia|exact Hr].
Qed.

Lemma roundEven_nearest y j :
  Qabs (inject_Z (roundEven y) - y) <= Qabs (inject_Z j - y).
Proof.
  pose proof (Qfloor_le y) as H1. pose proof (Qlt_floor y) as H2.
  rewrite inject_Z_plus in H2. change (inject_Z 1) with 1 in H2.
  assert (Hj : inject_Z j <= inject_Z (Qfloor y)
               \/ inject_Z (Qfloor y) + 1 <= inject_Z j).
  { destruct (Z.le_gt_cases j (Qfloor y)) as [H|H].
    - left. now rewrite <- Zle_Qle.
    - right. change 1 with (inject_Z 1). rewrite <- inject_Z_plus, <- Zle_Qle.
      lia. }
  assert (Hr : inject_Z (roundEven y) == inject_Z (Qfloor y)
               /\ y - inject_Z (Qfloor y) <= 1 # 2
               \/ inject_Z (roundEven y) == inject_Z (Qfloor y) + 1
                  /\ 1 # 2 <= y - inject_Z (Qfloor y)).
  { unfold roundEven.
    destruct (y - inject_Z (Qfloor y) ?= 1 # 2) eqn:C.
    - apply Qeq_alt in C.
      destruct (Z.even _); [left|right]; rewrite ?inject_Z_plus;
        change (inject_Z 1) with 1; split; lra || reflexivity.
    - apply Qlt_alt in C. left. split; [reflexivity|lra].
    - apply Qgt_alt in C. right. rewrite inject_Z_plus.
      change (inject_Z 1) with 1. split; [reflexivity|lra]. }
  destruct Hr as [[Er Hd]|[Er Hd]], Hj as [Hj|Hj];
    apply Qabs_case; intros; apply Qabs_case; intros; lra.
Qed.

(** No multiple of the unit in the last place is nearer. *)
Lemma round_nearest_multiple x j :
  ~ x == 0 -> Qabs (round x - x) <= Qabs (inject_Z j * ulp x - x).
Proof.
  intros Hx. pose proof (ulp_pos x) as Hu. rewrite round_eq by assumption.
  pose proof (roundEven_nearest (x / ulp x) j) as H.
  set (r := inject_Z (roundEven (x / ulp x))) in *.
  assert (E1 : r * ulp x - x == (r - x / ulp x) * ulp x) by (field; lra).
  assert (E2 : inject_Z j * ulp x - x == (inject_Z j - x / ulp x) * ulp x)
    by (field; lra).
  rewrite E1, E2, !Qabs_Qmult, (Qabs_pos (ulp x)) by lra.
  apply Qmult_le_compat_r; [exact H|lra].
Qed.

(** A double of the binade of [x] is a multiple of its unit in the last
    place. *)
Lemma double_multiple d e :
  isDouble d -> 2 ^ e < d ->
  exists j, d == inject_Z j * 2 ^ (e - 52).
Proof.
  intros (m & e' & Hm & _ & Hd) Hlow.
  pose proof (pow2_pos e) as Pe. pose proof (pow2_pos e') as Pe'.
  assert (Hmpos : (0 < m)%Z).
  { destruct (Z.lt_ge_cases 0 m) as [|Hle]; [assumption|].
    assert (inject_Z m <= 0) by (change 0 with (inject_Z 0);
                                  now rewrite <- Zle_Qle).
    nra. }
  assert (He : (e - 52 <= e')%Z).
  { destruct (Z.le_gt_cases (e - 52) e') as [|Hgt]; [assumption|exfalso].
    assert (H1 : 2 ^ e' <= 2 ^ (e - 53)) by (apply pow2_le; lia).
    assert (H2 : inject_Z m <= inject_Z (2 ^ 53)) by (rewrite <- Zle_Qle; lia).
    assert (H3 : inject_Z (2 ^ 53) * 2 ^ (e - 53) == 2 ^ e).
    { rewrite <- pow2_inject, <- pow2_plus by lia.
      now replace (53 + (e - 53))%Z with e by lia. }
    assert (H4 : 0 < inject_Z m)
      by (change 0 with (inject_Z 0); now rewrite <- Zlt_Qlt).
    assert (inject_Z m * 2 ^ e' <= inject_Z (2 ^ 53) * 2 ^ (e - 53)).
    { apply (Qle_trans _ (inject_Z m * 2 ^ (e - 53))).
      - apply Qmult_le_l; assumption.
      - apply Qmult_le_compat_r; [assumption|].
        apply Qlt_le_weak, pow2_pos. }
    lra. }
  exists (m * 2 ^ (e' - (e - 52)))%Z.
  rewrite Hd, inject_Z_mult, <- pow2_inject by lia.
  rewrite <- Qmult_assoc, <- pow2_plus.
  now replace (e' - (e - 52) + (e - 52))%Z with e' by lia.
Qed.

(** The rounded number of milliseconds is a double nearest to the
    number. *)
Lemma round_minutes_nearest x d :
  60000 <= x <= 180000 -> isDouble d ->
  Qabs (round x - x) <= Qabs (d - x).
Proof.
  intros Hx Hd.
  assert (Habs : Qabs x == x) by (apply Qabs_pos; lra).
  assert (Hpos : 0 < Qabs x) by lra.
  destruct (exponent_spec (Qabs x) Hpos) as [Hlo Hhi].
  destruct (ulp_minutes x Hx) as (e & He & Hu & Hlt).
  assert (Ee : exponent (Qabs x) = e).
  { assert (H : 2 ^ (exponent (Qabs x) - 52) = 2 ^ (e - 52)).
    { rewrite <- Hu. unfold ulp. f_equal.
      assert (2 ^ 15 < 2 ^ (exponent (Qabs x) + 1))
        by (change (2 ^ 15) with 32768; lra).
      pose proof (pow2_lt_inv _ _ H). lia. }
    assert (L1 : 2 ^ (exponent (Qabs x) - 52) <= 2 ^ (e - 52))
      by (rewrite H; lra).
    assert (L2 : 2 ^ (e - 52) <= 2 ^ (exponent (Qabs x) - 52))
      by (rewrite H; lra).
    destruct (Z.lt_trichotomy (exponent (Qabs x)) e) as [Hc|[Hc|Hc]];
      [exfalso|exact Hc|exfalso].
    - assert (2 ^ (exponent (Qabs x) - 52 + 1) <= 2 ^ (e - 52))
        by (apply pow2_le; lia).
      rewrite pow2_S in H0.
      pose proof (pow2_pos (exponent (Qabs x) - 52)). lra.
    - assert (2 ^ (e - 52 + 1) <= 2 ^ (exponent (Qabs x) - 52))
        by (apply pow2_le; lia).
      rewrite pow2_S in H0. pose proof (pow2_pos (e - 52)). lra. }
  rewrite Ee in Hlo.
  assert (Hne : ~ x == 0) by lra.
  assert (Hbot : 2 ^ e == inject_Z (2 ^ 52) * ulp x).
  { rewrite Hu, <- pow2_inject, <- pow2_plus by lia.
    now replace (52 + (e - 52))%Z with e by lia. }
  assert (Htop : 2 ^ (e + 1) == inject_Z (2 ^ 53) * ulp x).
  { rewrite Hu, <- pow2_inject, <- pow2_plus by lia.
    now replace (53 + (e - 52))%Z with (e + 1)%Z by lia. }
  destruct (Qlt_le_dec (2 ^ e) d) as [Hd1|Hd1];
    [destruct (Qlt_le_dec d (2 ^ (e + 1))) as [Hd2|Hd2]|].
  - destruct (double_multiple d e Hd Hd1) as (j & Hj).
    rewrite Hj, <- Hu. now apply round_nearest_multiple.
  - apply (Qle_trans _ (Qabs (inject_Z (2 ^ 53) * ulp x - x))).
    + now apply round_nearest_multiple.
    + rewrite <- Htop.
      rewrite (Qabs_pos (2 ^ (e + 1) - x)), (Qabs_pos (d - x)); lra.
  - apply (Qle_trans _ (Qabs (inject_Z (2 ^ 52) * ulp x - x))).
    + now apply round_nearest_multiple.
    + rewrite <- Hbot.
      rewrite (Qabs_neg (2 ^ e - x)), (Qabs_neg (d - x)); lra.
Qed.

End DoubleFacts.

Lemma Qmin_max_clamp (x : Q) : Qmin 3 (Qmax 1 x) == clamp x 1 3.
Proof.
  unfold clamp.
  destruct (Qle_bool x 1) eqn:E1.
  - apply Qle_bool_iff in E1.
    rewrite (Q.max_l 1 x) by assumption. apply Q.min_r. lra.
  - assert (H1 : (1 < x)%Q).
    { apply Qnot_le_lt. intros H. apply Qle_bool_iff in H. congruence. }
    rewrite (Q.max_r 1 x) by lra.
    destruct (Qle_bool 3 x) eqn:E3.
    + apply Qle_bool_iff in E3. now apply Q.min_l.
    + apply Q.min_r. apply Qlt_le_weak, Qnot_le_lt.
      intros H. apply Qle_bool_iff in H. congruence.
Qed.

Lemma clamp_minutes (x : Q) : (1 <= clamp x 1 3 <= 3)%Q.
Proof.
  unfold clamp.
  destruct (Qle_bool x 1) eqn:E1; [lra|].
  destruct (Qle_bool 3 x) eqn:E3; [lra|].
  assert (H1 : ~ (x <= 1)%Q)
    by (intros H; apply Qle_bool_iff in H; congruence).
  assert (H3 : ~ (3 <= x)%Q)
    by (intros H; apply Qle_bool_iff in H; congruence).
  lra.
Qed.

(** The initial clock of a timed match as the rounded product. *)
Lemma initialClockMs_bullet (req : MatchRequest) :
  mode req = bullet ->
  initialClockMs req
  = Double.mul (clamp (safeClockMinutes (clockMinutes req)) 1 3) 60000.
Proof.
  intros Hm. unfold initialClockMs. rewrite Hm. cbn [isBullet].
  unfold Double.mul. apply DoubleFacts.round_comp.
  now rewrite Qmin_max_clamp.
Qed.

Lemma initialClockMs_bounds (req : MatchRequest) :
  mode req = bullet ->
  (60000 <= initialClockMs req /\ initialClockMs req <= 180000)%Q.
Proof.
  intros Hm. rewrite (initialClockMs_bullet req Hm). unfold Double.mul.
  apply DoubleFacts.round_minutes.
  pose proof (clamp_minutes (safeClockMinutes (clockMinutes req))). lra.
Qed.

Lemma initialClockMs_nonneg (req : MatchRequest) :
  (0 <= initialClockMs req)%Q.
Proof.
  destruct (decide (mode req = bullet)) as [Hm|Hm].
  - pose proof (initialClockMs_bounds req Hm). lra.
  - unfold initialClockMs. destruct (mode req); try contradiction;
      cbn [isBullet]; lra.
Qed.

(** C10: in the timed mode ("bullet") the initial clock of each side is
    [clamp(clockMinutes, 1, 3) * 60000] milliseconds for a finite
    [clockMinutes], the product being the one of doubles: it is a double,
    no double is nearer to the exact product, it is at most [2^-36] ms away
    from it, and it is the exact product whenever that is a whole number of
    milliseconds. The
    clock is 3 minutes (180000) when [clockMinutes] is missing, [NaN] or
    infinite; in the other modes it is 0. A rules library that loads its own
    starting position gives the loop its locals, with both clocks at that
    value. *)
Theorem initialClockMs_spec :
  (forall q : Q,
     let minutes := clamp q 1 3 in
     let clock := initialClockMs (mkRequest bullet (Some (Finite q))) in
     clock = Double.mul minutes 60000
     /\ isDouble clock
     /\ (forall d : Q,
          isDouble d ->
          Qabs (clock - minutes * 60000) <= Qabs (d - minutes * 60000))%Q
     /\ (Qabs (clock - minutes * 60000) <= 1 # 2 ^ 36)%Q
     /\ (forall n : Z, minutes * 60000 == inject_Z n -> clock == inject_Z n))
  /\ initialClockMs (mkRequest bullet None) == 180000
  /\ initialClockMs (mkRequest bullet (Some NaN)) == 180000
  /\ (forall negative : bool,
        initialClockMs (mkRequest bullet (Some (Infinity negative)))
        == 180000)
  /\ (forall clockMinutes : option JsNumber,
        initialClockMs (mkRequest strict clockMinutes) = 0%Q
        /\ initialClockMs (mkRequest chaos clockMinutes) = 0%Q)
  /\ (forall (L : Chess.lib) (req : MatchRequest) (chess : Chess.t L),
        Chess.load L (Chess.fen L (Chess.new L)) = Some chess ->
        exists st,
          initialState L req = Some st
          /\ st_clocks st
             = mkPerColor (initialClockMs req) (initialClockMs req)).
Proof.
  split; [|repeat split; try reflexivity].
  - intros q minutes clock.
    assert (E : clock = Double.mul minutes 60000)
      by (apply (initialClockMs_bullet (mkRequest bullet (Some (Finite q))));
          reflexivity).
    pose proof (clamp_minutes q) as Hq. fold minutes in Hq.
    assert (Hx : (60000 <= minutes * 60000 <= 180000)%Q) by lra.
    split; [exact E|]. rewrite E. unfold Double.mul.
    split; [now apply DoubleFacts.round_minutes_double|].
    split; [intros d Hd; now apply DoubleFacts.round_minutes_nearest|].
    split.
    + now apply DoubleFacts.round_minutes_near.
    + intros n Hn. now apply DoubleFacts.round_whole.
  - intros L req chess Hload. unfold initialState. rewrite Hload.
    eexists. split; reflexivity.
Qed.

(** ** The scripted rules library keeps the contract *)

Module ScriptedFacts.

Import Scripted.

Lemma scripted_starts : startIsNew lib.
Proof. reflexivity. Qed.

Lemma table_loads :
  forallb (fun e => validFen (after e)) table = true.
Proof. vm_compute. reflexivity. Qed.

(** Two entries for the same position that answer to the same token lead
    to the same position with the same SAN. *)
Lemma table_coherent :
  forallb
    (fun e =>
       forallb
         (fun e' =>
            implb
              (matches (before e) (moveUciOf (accepted e)) e')
              (String.eqb (after e') (after e)
               && String.eqb (move_san (accepted e')) (move_san (accepted e))))
         table)
    table = true.
Proof. vm_compute. reflexivity. Qed.

Lemma move_inv c text m c' :
  move c text = Some (m, c') ->
  exists e,
    In e table /\ matches (pos_fen c) text e = true
    /\ m = accepted e
    /\ c' = mkPosition (after e)
              (pos_history c ++ [move_san (accepted e)])%list.
Proof.
  unfold move.
  destruct (find (matches (pos_fen c) text) table) as [e|] eqn:E;
    [|discriminate].
  intros [= <- <-]. apply find_some in E as [Hin Hm]. eauto.
Qed.

Lemma scripted_reloads : movesReload lib.
Proof.
  intros c text m c' H. apply move_inv in H as (e & Hin & _ & _ & ->).
  pose proof table_loads as Ht. rewrite forallb_forall in Ht.
  specialize (Ht e Hin). cbn. rewrite Ht. eauto.
Qed.

Lemma scripted_ranks : boardsHaveRanks lib.
Proof.
  intros fen base. cbn. destruct (validFen fen) eqn:E; [|discriminate].
  intros [= <-]. unfold board, parsePlacement. cbn [pos_fen].
  rewrite length_map. unfold validFen in E.
  do 4 (apply andb_prop in E as [E _]).
  apply andb_prop in E as [_ E]. now apply Nat.eqb_eq in E.
Qed.

Lemma scripted_replays : uciReplays lib.
Proof.
  intros c text m c' H.
  apply move_inv in H as (e & Hin & Hm & -> & ->).
  assert (Hb : before e = pos_fen c).
  { unfold matches in Hm. apply andb_prop in Hm as [Hm _].
    now apply String.eqb_eq in Hm. }
  cbn. unfold move.
  destruct (find (matches (pos_fen c) (moveUciOf (accepted e))) table)
    as [e'|] eqn:E.
  - apply find_some in E as [Hin' Hm'].
    pose proof table_coherent as Ht. rewrite forallb_forall in Ht.
    specialize (Ht e Hin). rewrite forallb_forall in Ht.
    specialize (Ht e' Hin'). rewrite Hb, Hm' in Ht. cbn [implb] in Ht.
    apply andb_prop in Ht as [Ha Hs].
    apply String.eqb_eq in Ha, Hs. rewrite Ha, Hs. eauto.
  - exfalso. apply (find_none _ _ E) in Hin.
    unfold matches in Hin. rewrite <- Hb, !String.eqb_refl in Hin.
    discriminate Hin.
Qed.

Lemma scripted_loads_start :
  is_Some (Chess.load lib (Chess.fen lib (Chess.new lib))).
Proof. eexists. reflexivity. Qed.

End ScriptedFacts.

(** ** The loop body, attempt by attempt *)

(** Splits a goal about [plyBody] and [attemptOf] along the guards of the
    loop body: flag fall, resignation, legal move, illegal move, empty move,
    failed call. *)
Ltac by_attempt :=
  unfold plyBody, attemptOf, chargedAt, thinkAt, activeAt in *;
  cbv zeta in *;
  match goal with
  | |- context [flagged ?L ?r ?st ?c ?t] =>
      let clocks := fresh "clocks" in
      let flagEvents := fresh "flagEvents" in
      let Eflag := fresh "Eflag" in
      destruct (flagged L r st c t) as [clocks [flagEvents|]] eqn:Eflag;
      cbn [fst snd] in *;
      [ |
        match goal with
        | |- context [outcome ?th] =>
            let rawMove := fresh "rawMove" in
            let message := fresh "message" in
            let Eout := fresh "Eout" in
            destruct (outcome th) as [rawMove|message] eqn:Eout;
            [ unfold returnedBranch; cbv zeta;
              let Eres := fresh "Eres" in
              destruct (String.eqb (Js.toLowerCase (Js.trim rawMove)) "resign")
                eqn:Eres;
              [ |
                let Emove := fresh "Emove" in
                let m := fresh "m" in
                let c' := fresh "c'" in
                destruct (Chess.move L _ (Js.trim rawMove))
                  as [[m c']|] eqn:Emove ]
            | unfold fetchErrBranch; cbv zeta;
              let Eempty := fresh "Eempty" in
              destruct (Js.includes "empty move" (Js.toLowerCase message))
                eqn:Eempty ]
        end ]
  end.

Section BodyFacts.

Variable L : Chess.lib.
Variable MOVE_TIMEOUT_MS : Q.
Variable req : MatchRequest.
Variable agent : Agent.

Local Abbreviation body := (plyBody L MOVE_TIMEOUT_MS req agent).
Local Abbreviation attempt := (attemptOf L MOVE_TIMEOUT_MS req agent).
Local Abbreviation charged := (chargedAt L MOVE_TIMEOUT_MS req agent).
Local Abbreviation active := (activeAt L).

Lemma pc_get_set_eq {A} (r : PerColor A) c x : pc_get (pc_set r c x) c = x.
Proof. now destruct c. Qed.

Lemma pc_get_set_other {A} (r : PerColor A) c x :
  pc_get (pc_set r c x) (other c) = pc_get r (other c).
Proof. now destruct c. Qed.

Lemma flagged_events st c t clocks flagEvents :
  flagged L req st c t = (clocks, Some flagEvents) ->
  bulletMode req = true
  /\ clocks = charge (st_clocks st) c t
  /\ pc_get clocks c = 0%Q
  /\ flagEvents
     = [StatusEvent (FlaggedOnTime c t) (Some (st_illegalCounts st))
          (Some (snapshot clocks)) None;
        EndEvent
          (buildResult L (wins (other c)) timeout (st_moves st)
             (st_illegalCounts st) (st_chess st) (Some (snapshot clocks))
             None)].
Proof.
  unfold flagged. destruct (bulletMode req); [|discriminate].
  destruct (Qle_bool _ 0) eqn:E; [|discriminate].
  intros [= <- <-]. repeat split.
  unfold charge in *. rewrite pc_get_set_eq in *.
  apply Qle_bool_iff in E.
  unfold Qmax, GenericMinMax.gmax in *.
  destruct (0 ?= _)%Q eqn:Ec; try reflexivity.
  apply Qlt_alt in Ec. lra.
Qed.

Lemma flagged_none st c t clocks :
  flagged L req st c t = (clocks, None) ->
  if bulletMode req
  then clocks = charge (st_clocks st) c t /\ (0 < pc_get clocks c)%Q
  else clocks = st_clocks st.
Proof.
  unfold flagged. destruct (bulletMode req); [|congruence].
  destruct (Qle_bool _ 0) eqn:E; [discriminate|].
  intros [= <-]. split; [reflexivity|].
  apply Qnot_le_lt. intros H. apply Qle_bool_iff in H. congruence.
Qed.

(** The three ways the block of an illegal attempt ends. *)
Lemma illegalBranch_cases st ply c clocks t rawTrimmed cleaned :
  let counts :=
    pc_set (st_illegalCounts st) c (pc_get (st_illegalCounts st) c + 1)%nat in
  (exists st' evs,
     illegalBranch L req st ply c clocks t rawTrimmed cleaned
     = Continue st' evs
     /\ Forall not_end evs
     /\ st_clocks st' = clocks
     /\ st_illegalCounts st' = counts
     /\ (strikesForfeit req = true ->
         (pc_get (st_illegalCounts st) c + 1 < 3)%nat)
     /\ match (if bool_decide (mode req = chaos) then parseUciMove cleaned
               else None) with
        | None =>
            st_chess st' = st_chess st /\ st_fen st' = st_fen st
            /\ st_moves st' = st_moves st
            /\ st_fullmove st' = st_fullmove st
        | Some u =>
            exists chaosMove,
              applyChaosMove L (st_fen st) u (Chess.turn L (st_chess st))
                (st_fullmove st) = Some chaosMove
              /\ st_fen st' = chaos_fen chaosMove
              /\ Chess.load L (chaos_fen chaosMove) = Some (st_chess st')
              /\ st_moves st' = (st_moves st ++ [chaos_san chaosMove])%list
              /\ exists e,
                   In (MoveEvent e) evs
                   /\ ev_move e = chaos_san chaosMove
                   /\ ev_fen e = chaos_fen chaosMove
                   /\ ev_note e
                      = Some "Chaos move executed despite illegality"
        end)
  \/ (exists pre result,
        illegalBranch L req st ply c clocks t rawTrimmed cleaned
        = Closed (pre ++ [EndEvent result])%list
        /\ Forall not_end pre
        /\ winner result = wins (other c)
        /\ reason result = illegal
        /\ illegalCounts result = counts
        /\ moves result = st_moves st
        /\ finalFen result = Chess.fen L (st_chess st)
        /\ ((strikesForfeit req = true
             /\ (3 <= pc_get (st_illegalCounts st) c + 1)%nat)
            \/ (exists u chaosMove,
                  mode req = chaos
                  /\ parseUciMove cleaned = Some u
                  /\ applyChaosMove L (st_fen st) u
                       (Chess.turn L (st_chess st)) (st_fullmove st)
                     = Some chaosMove
                  /\ Chess.load L (chaos_fen chaosMove) = None)))
  \/ (exists evs u,
        illegalBranch L req st ply c clocks t rawTrimmed cleaned = Thrown evs
        /\ mode req = chaos
        /\ parseUciMove cleaned = Some u
        /\ applyChaosMove L (st_fen st) u (Chess.turn L (st_chess st))
             (st_fullmove st) = None).
Proof.
  intros counts. unfold illegalBranch. cbv zeta. fold counts.
  destruct (bool_decide (mode req = chaos)) eqn:Emode.
  - apply bool_decide_eq_true in Emode.
    assert (Hs : strikesForfeit req = false)
      by (unfold strikesForfeit; now rewrite Emode).
    rewrite Hs; cbn [andb].
    destruct (parseUciMove cleaned) as [u|] eqn:Eparse.
    + destruct (applyChaosMove L _ u _ _) as [chaosMove|] eqn:Echaos.
      * destruct (Chess.load L (chaos_fen chaosMove)) as [chess'|] eqn:Eload.
        -- left. do 2 eexists. split; [reflexivity|].
           split; [repeat constructor|].
           cbn [st_clocks st_illegalCounts st_chess st_fen st_moves].
           repeat split; try discriminate.
           exists chaosMove. repeat split; try assumption.
           eexists. split; [right; left; reflexivity|]. repeat split.
        -- right; left.
           eexists [_; _], _. split; [reflexivity|].
           split; [repeat constructor|].
           repeat split. right. exists u, chaosMove. now repeat split.
      * right; right. do 2 eexists. now repeat split.
    + left. do 2 eexists. split; [reflexivity|].
      split; [repeat constructor|].
      cbn [st_clocks st_illegalCounts st_chess st_fen st_moves st_fullmove].
      repeat split; discriminate.
  - destruct (strikesForfeit req && (3 <=? pc_get counts c))%nat eqn:Estrike.
    + right; left. apply andb_prop in Estrike as [Hs H3].
      apply Nat.leb_le in H3. unfold counts in H3.
      rewrite pc_get_set_eq in H3.
      eexists [_], _. split; [reflexivity|].
      split; [repeat constructor|].
      repeat split. left. now split.
    + left. do 2 eexists. split; [reflexivity|].
      split; [repeat constructor|].
      cbn [st_clocks st_illegalCounts st_chess st_fen st_moves st_fullmove].
      repeat split.
      intros Hs. rewrite Hs in Estrike. cbn [andb] in Estrike.
      apply Nat.leb_gt in Estrike. unfold counts in Estrike.
      now rewrite pc_get_set_eq in Estrike.
Qed.

(** The two ways the block of an empty move ends. *)
Lemma emptyMoveBranch_cases st ply c clocks :
  let counts :=
    pc_set (st_illegalCounts st) c (pc_get (st_illegalCounts st) c + 1)%nat in
  (exists st' evs,
     emptyMoveBranch L req st ply c clocks = Continue st' evs
     /\ Forall not_end evs
     /\ st_clocks st' = clocks
     /\ st_illegalCounts st' = counts
     /\ (strikesForfeit req = true ->
         (pc_get (st_illegalCounts st) c + 1 < 3)%nat)
     /\ st_chess st' = st_chess st /\ st_fen st' = st_fen st
     /\ st_moves st' = st_moves st
     /\ st_fullmove st' = st_fullmove st)
  \/ (exists pre result,
        emptyMoveBranch L req st ply c clocks
        = Closed (pre ++ [EndEvent result])%list
        /\ Forall not_end pre
        /\ winner result = wins (other c)
        /\ reason result = illegal
        /\ illegalCounts result = counts
        /\ moves result = st_moves st
        /\ finalFen result = Chess.fen L (st_chess st)
        /\ strikesForfeit req = true
        /\ (3 <= pc_get (st_illegalCounts st) c + 1)%nat).
Proof.
  intros counts. unfold emptyMoveBranch. cbv zeta. fold counts.
  destruct (strikesForfeit req && (3 <=? pc_get counts c))%nat eqn:Estrike.
  - right. apply andb_prop in Estrike as [Hs H3].
    apply Nat.leb_le in H3. unfold counts in H3.
    rewrite pc_get_set_eq in H3.
    eexists [_], _. split; [reflexivity|].
    split; [repeat constructor|]. now repeat split.
  - left. do 2 eexists. split; [reflexivity|].
    split; [repeat constructor|].
    cbn [st_clocks st_illegalCounts st_chess st_fen st_moves st_fullmove].
    repeat split.
    intros Hs. rewrite Hs in Estrike. cbn [andb] in Estrike.
    apply Nat.leb_gt in Estrike. unfold counts in Estrike.
    now rewrite pc_get_set_eq in Estrike.
Qed.

(** The two ways the end of the body, after a legal move, ends. *)
Lemma legalBranch_cases st ply c clocks t moveResult chess :
  let counts := pc_set (st_illegalCounts st) c 0%nat in
  let moves' := (st_moves st ++ [moveUciOf moveResult])%list in
  (exists st' evs,
     legalBranch L req st ply c clocks t moveResult chess = Continue st' evs
     /\ Forall not_end evs
     /\ st_clocks st' = clocks
     /\ st_illegalCounts st' = counts
     /\ st_lastIllegal st' = pc_set (st_lastIllegal st) c None
     /\ st_chess st' = chess /\ st_fen st' = Chess.fen L chess
     /\ st_moves st' = moves')
  \/ (exists pre result,
        legalBranch L req st ply c clocks t moveResult chess
        = Closed (pre ++ [EndEvent result])%list
        /\ Forall not_end pre
        /\ legalEnding c result
        /\ illegalCounts result = counts
        /\ moves result = moves'
        /\ finalFen result = Chess.fen L chess).
Proof.
  intros counts moves'. unfold legalBranch. cbv zeta. fold counts moves'.
  unfold legalEnding.
  destruct (Chess.isCheckmate L chess);
    [right; eexists [_], _; split; [reflexivity|];
     split; [repeat constructor|]; repeat split; cbn; tauto|].
  destruct (Chess.isStalemate L chess);
    [right; eexists [_], _; split; [reflexivity|];
     split; [repeat constructor|]; repeat split; cbn; tauto|].
  destruct (Chess.isThreefoldRepetition L chess);
    [right; eexists [_], _; split; [reflexivity|];
     split; [repeat constructor|]; repeat split; cbn; tauto|].
  destruct (Chess.isInsufficientMaterial L chess);
    [right; eexists [_], _; split; [reflexivity|];
     split; [repeat constructor|]; repeat split; cbn; tauto|].
  destruct (Chess.isDraw L chess);
    [right; eexists [_], _; split; [reflexivity|];
     split; [repeat constructor|]; repeat split; cbn; tauto|].
  left. do 2 eexists. split; [reflexivity|].
  split; [repeat constructor|]. now repeat split.
Qed.

(** The loop body by attempt. *)
Lemma plyBody_spec st ply :
  let c := active st in
  let t := moveTime (thinkAt L MOVE_TIMEOUT_MS req agent st ply) in
  match attempt st ply with
  | FlagFall =>
      bulletMode req = true
      /\ charged st ply = charge (st_clocks st) c t
      /\ pc_get (charged st ply) c = 0%Q
      /\ body st ply
         = Closed
             [StatusEvent (FlaggedOnTime c t) (Some (st_illegalCounts st))
                (Some (snapshot (charged st ply))) None;
              EndEvent
                (buildResult L (wins (other c)) timeout (st_moves st)
                   (st_illegalCounts st) (st_chess st)
                   (Some (snapshot (charged st ply))) None)]
  | CallFailed message =>
      exists text,
        body st ply
        = Closed
            [StatusEvent (ModelError c text) None None None;
             EndEvent
               (buildResult L (wins (other c)) timeout (st_moves st)
                  (st_illegalCounts st) (st_chess st)
                  (clocksField req (charged st ply))
                  (Some (st_lastIllegalMoves st)))]
  | Resigned =>
      exists e,
        body st ply
        = Closed
            [MoveEvent e;
             EndEvent
               (buildResult L (wins (other c)) resignation (st_moves st)
                  (st_illegalCounts st) (st_chess st)
                  (clocksField req (charged st ply))
                  (Some (st_lastIllegalMoves st)))]
  | EmptyAttempt =>
      body st ply = emptyMoveBranch L req st ply c (charged st ply)
  | IllegalAttempt rawTrimmed cleaned =>
      body st ply
      = illegalBranch L req st ply c (charged st ply) t rawTrimmed cleaned
  | LegalMove moveResult chess =>
      body st ply
      = legalBranch L req st ply c (charged st ply) t moveResult chess
      /\ exists text,
           Chess.move L (st_chess st) text = Some (moveResult, chess)
  end.
Proof.
  intros c t. subst c t. by_attempt.
  - apply flagged_events in Eflag as (Hb & Hc & H0 & ->). now repeat split.
  - eexists; reflexivity.
  - split; [reflexivity|]. eauto.
  - reflexivity.
  - reflexivity.
  - eexists; reflexivity.
Qed.


(** Without a flag fall, the clocks after the think step. *)
Lemma charged_spec st ply :
  attempt st ply <> FlagFall ->
  if bulletMode req
  then charged st ply
       = charge (st_clocks st) (active st)
           (moveTime (thinkAt L MOVE_TIMEOUT_MS req agent st ply))
       /\ (0 < pc_get (charged st ply) (active st))%Q
  else charged st ply = st_clocks st.
Proof.
  intros H. unfold attemptOf, chargedAt in *.
  destruct (flagged L req st _ _) as [clocks [ev|]] eqn:E;
    cbn [fst snd] in *; [congruence|].
  now apply flagged_none in E.
Qed.

(** What is known when the loop goes on after the body. *)
Lemma body_Continue st ply st' evs :
  body st ply = Continue st' evs ->
  let c := active st in
  let incremented :=
    pc_set (st_illegalCounts st) c (pc_get (st_illegalCounts st) c + 1)%nat in
  Forall not_end evs
  /\ st_clocks st' = charged st ply
  /\ attempt st ply <> FlagFall
  /\ match attempt st ply with
     | LegalMove moveResult chess =>
         st_illegalCounts st' = pc_set (st_illegalCounts st) c 0%nat
         /\ st_lastIllegal st' = pc_set (st_lastIllegal st) c None
         /\ st_chess st' = chess /\ st_fen st' = Chess.fen L chess
         /\ st_moves st' = (st_moves st ++ [moveUciOf moveResult])%list
         /\ exists text,
              Chess.move L (st_chess st) text = Some (moveResult, chess)
     | EmptyAttempt =>
         st_illegalCounts st' = incremented
         /\ (strikesForfeit req = true ->
             (pc_get (st_illegalCounts st) c + 1 < 3)%nat)
         /\ st_chess st' = st_chess st /\ st_fen st' = st_fen st
         /\ st_moves st' = st_moves st
     | IllegalAttempt rawTrimmed cleaned =>
         st_illegalCounts st' = incremented
         /\ (strikesForfeit req = true ->
             (pc_get (st_illegalCounts st) c + 1 < 3)%nat)
         /\ match (if bool_decide (mode req = chaos)
                   then parseUciMove cleaned else None) with
            | None =>
                st_chess st' = st_chess st /\ st_fen st' = st_fen st
                /\ st_moves st' = st_moves st
            | Some u =>
                exists chaosMove,
                  applyChaosMove L (st_fen st) u c (st_fullmove st)
                  = Some chaosMove
                  /\ st_fen st' = chaos_fen chaosMove
                  /\ Chess.load L (chaos_fen chaosMove) = Some (st_chess st')
                  /\ st_moves st'
                     = (st_moves st ++ [chaos_san chaosMove])%list
                  /\ exists e,
                       In (MoveEvent e) evs
                       /\ ev_move e = chaos_san chaosMove
                       /\ ev_fen e = chaos_fen chaosMove
                       /\ ev_note e
                          = Some "Chaos move executed despite illegality"
            end
     | _ => False
     end.
Proof.
  intros Hbody c incremented.
  pose proof (plyBody_spec st ply) as Hspec. cbv zeta in Hspec.
  destruct (attempt st ply) as [|message| | |rawTrimmed cleaned|m chess].
  - destruct Hspec as (_ & _ & _ & E). congruence.
  - destruct Hspec as (? & E). congruence.
  - destruct Hspec as (? & E). congruence.
  - rewrite Hspec in Hbody.
    destruct (emptyMoveBranch_cases st ply (active st) (charged st ply))
      as [(st1 & evs1 & E & Hev & Hcl & Hcount & Hlt & Hrest)
         |(pre & result & E & _)];
      rewrite E in Hbody; [|discriminate].
    injection Hbody as <- <-. now repeat split.
  - rewrite Hspec in Hbody.
    destruct (illegalBranch_cases st ply (active st) (charged st ply)
                (moveTime (thinkAt L MOVE_TIMEOUT_MS req agent st ply))
                rawTrimmed cleaned)
      as [(st1 & evs1 & E & Hev & Hcl & Hcount & Hlt & Hrest)
         |[(pre & result & E & _)|(evs1 & u & E & _)]];
      rewrite E in Hbody; try discriminate.
    injection Hbody as <- <-. repeat split; try assumption; try discriminate.
    destruct (if bool_decide (mode req = chaos) then _ else _);
      [assumption|tauto].
  - destruct Hspec as (Hspec & Hmove). rewrite Hspec in Hbody.
    destruct (legalBranch_cases st ply (active st) (charged st ply)
                (moveTime (thinkAt L MOVE_TIMEOUT_MS req agent st ply))
                m chess)
      as [(st1 & evs1 & E & Hev & Hcl & Hcount & Hrest)
         |(pre & result & E & _)];
      rewrite E in Hbody; [|discriminate].
    injection Hbody as <- <-.
    repeat split; try tauto; try discriminate.
Qed.

(** What is known when the body closes the stream. *)
Lemma body_Closed st ply evs :
  body st ply = Closed evs ->
  let c := active st in
  let incremented :=
    pc_set (st_illegalCounts st) c (pc_get (st_illegalCounts st) c + 1)%nat in
  exists pre result,
    evs = (pre ++ [EndEvent result])%list
    /\ Forall not_end pre
    /\ match attempt st ply with
       | FlagFall =>
           result
           = buildResult L (wins (other c)) timeout (st_moves st)
               (st_illegalCounts st) (st_chess st)
               (Some (snapshot (charged st ply))) None
           /\ pc_get (charged st ply) c = 0%Q
       | CallFailed _ =>
           result
           = buildResult L (wins (other c)) timeout (st_moves st)
               (st_illegalCounts st) (st_chess st)
               (clocksField req (charged st ply))
               (Some (st_lastIllegalMoves st))
       | Resigned =>
           result
           = buildResult L (wins (other c)) resignation (st_moves st)
               (st_illegalCounts st) (st_chess st)
               (clocksField req (charged st ply))
               (Some (st_lastIllegalMoves st))
       | EmptyAttempt =>
           winner result = wins (other c) /\ reason result = illegal
           /\ illegalCounts result = incremented
           /\ moves result = st_moves st
           /\ finalFen result = Chess.fen L (st_chess st)
           /\ strikesForfeit req = true
           /\ (3 <= pc_get (st_illegalCounts st) c + 1)%nat
       | IllegalAttempt rawTrimmed cleaned =>
           winner result = wins (other c) /\ reason result = illegal
           /\ illegalCounts result = incremented
           /\ moves result = st_moves st
           /\ finalFen result = Chess.fen L (st_chess st)
           /\ ((strikesForfeit req = true
                /\ (3 <= pc_get (st_illegalCounts st) c + 1)%nat)
               \/ (exists u chaosMove,
                     mode req = chaos
                     /\ parseUciMove cleaned = Some u
                     /\ applyChaosMove L (st_fen st) u c (st_fullmove st)
                        = Some chaosMove
                     /\ Chess.load L (chaos_fen chaosMove) = None))
       | LegalMove moveResult chess =>
           legalEnding c result
           /\ illegalCounts result = pc_set (st_illegalCounts st) c 0%nat
           /\ moves result = (st_moves st ++ [moveUciOf moveResult])%list
           /\ finalFen result = Chess.fen L chess
           /\ exists text,
                Chess.move L (st_chess st) text = Some (moveResult, chess)
       end.
Proof.
  intros Hbody c incremented.
  pose proof (plyBody_spec st ply) as Hspec. cbv zeta in Hspec.
  destruct (attempt st ply) as [|message| | |rawTrimmed cleaned|m chess].
  - destruct Hspec as (_ & _ & H0 & E). rewrite E in Hbody.
    injection Hbody as <-. eexists [_], _.
    split; [reflexivity|]. split; [repeat constructor|]. now split.
  - destruct Hspec as (text & E). rewrite E in Hbody.
    injection Hbody as <-. eexists [_], _.
    split; [reflexivity|]. split; [repeat constructor|]. reflexivity.
  - destruct Hspec as (e & E). rewrite E in Hbody.
    injection Hbody as <-. eexists [_], _.
    split; [reflexivity|]. split; [repeat constructor|]. reflexivity.
  - rewrite Hspec in Hbody.
    destruct (emptyMoveBranch_cases st ply (active st) (charged st ply))
      as [(st1 & evs1 & E & _)|(pre & result & E & Hpre & Hrest)];
      rewrite E in Hbody; [discriminate|].
    injection Hbody as <-. exists pre, result. now repeat split.
  - rewrite Hspec in Hbody.
    destruct (illegalBranch_cases st ply (active st) (charged st ply)
                (moveTime (thinkAt L MOVE_TIMEOUT_MS req agent st ply))
                rawTrimmed cleaned)
      as [(st1 & evs1 & E & _)
         |[(pre & result & E & Hpre & Hrest)|(evs1 & u & E & _)]];
      rewrite E in Hbody; try discriminate.
    injection Hbody as <-. exists pre, result. now repeat split.
  - destruct Hspec as (Hspec & Hmove). rewrite Hspec in Hbody.
    destruct (legalBranch_cases st ply (active st) (charged st ply)
                (moveTime (thinkAt L MOVE_TIMEOUT_MS req agent st ply))
                m chess)
      as [(st1 & evs1 & E & _)|(pre & result & E & Hpre & Hrest)];
      rewrite E in Hbody; [discriminate|].
    injection Hbody as <-. exists pre, result.
    repeat split; try tauto.
Qed.

(** The body throws only inside [applyChaosMove]. *)
Lemma body_Thrown st ply evs :
  body st ply = Thrown evs ->
  mode req = chaos
  /\ exists rawTrimmed cleaned u,
       attempt st ply = IllegalAttempt rawTrimmed cleaned
       /\ parseUciMove cleaned = Some u
       /\ applyChaosMove L (st_fen st) u (active st) (st_fullmove st) = None.
Proof.
  intros Hbody.
  pose proof (plyBody_spec st ply) as Hspec. cbv zeta in Hspec.
  destruct (attempt st ply) as [|message| | |rawTrimmed cleaned|m chess].
  - destruct Hspec as (_ & _ & _ & E). congruence.
  - destruct Hspec as (? & E). congruence.
  - destruct Hspec as (? & E). congruence.
  - rewrite Hspec in Hbody.
    destruct (emptyMoveBranch_cases st ply (active st) (charged st ply))
      as [(? & ? & E & _)|(? & ? & E & _)]; congruence.
  - rewrite Hspec in Hbody.
    destruct (illegalBranch_cases st ply (active st) (charged st ply)
                (moveTime (thinkAt L MOVE_TIMEOUT_MS req agent st ply))
                rawTrimmed cleaned)
      as [(? & ? & E & _)|[(? & ? & E & _)|(evs1 & u & E & Hm & Hp & Ha)]];
      try congruence.
    split; [assumption|]. exists rawTrimmed, cleaned, u. now repeat split.
  - destruct Hspec as (Hspec & _). rewrite Hspec in Hbody.
    destruct (legalBranch_cases st ply (active st) (charged st ply)
                (moveTime (thinkAt L MOVE_TIMEOUT_MS req agent st ply))
                m chess)
      as [(? & ? & E & _)|(? & ? & E & _)]; congruence.
Qed.

End BodyFacts.

(** ** The states of the loop *)

Section LoopFacts.

Variable L : Chess.lib.
Variable MOVE_TIMEOUT_MS : Q.
Variable req : MatchRequest.
Variable agent : Agent.

Local Abbreviation body := (plyBody L MOVE_TIMEOUT_MS req agent).
Local Abbreviation attempt := (attemptOf L MOVE_TIMEOUT_MS req agent).
Local Abbreviation charged := (chargedAt L MOVE_TIMEOUT_MS req agent).
Local Abbreviation active := (activeAt L).
Local Abbreviation state := (stateAt L MOVE_TIMEOUT_MS req agent).

Lemma stateAt_S ply st' :
  state (S ply) = Some st' ->
  exists st evs, state ply = Some st /\ body st ply = Continue st' evs.
Proof.
  cbn [stateAt]. destruct (state ply) as [st|]; [|discriminate].
  destruct (body st ply) as [st1 evs| |] eqn:E; try discriminate.
  intros [= <-]. eauto.
Qed.

(** Induction over the iterations of the loop. *)
Lemma stateAt_invariant (P : State L -> Prop) :
  (forall st, initialState L req = Some st -> P st) ->
  (forall st ply st' evs, P st -> body st ply = Continue st' evs -> P st') ->
  forall ply st, state ply = Some st -> P st.
Proof.
  intros Hinit Hstep. induction ply as [|ply IH]; intros st H.
  - now apply Hinit.
  - apply stateAt_S in H as (st0 & evs & H0 & Hb). eauto.
Qed.

Lemma initialClockMs_range :
  mode req = bullet ->
  (60000 <= initialClockMs req /\ initialClockMs req <= 180000)%Q.
Proof. apply initialClockMs_bounds. Qed.

Lemma charge_other clocks c t :
  pc_get (charge clocks c t) (other c) = pc_get clocks (other c).
Proof. apply pc_get_set_other. Qed.

(** In the timed variant both clocks are positive at the head of every
    iteration. *)
Lemma clocks_positive ply st :
  mode req = bullet ->
  state ply = Some st ->
  (0 < white (st_clocks st) /\ 0 < black (st_clocks st))%Q.
Proof.
  intros Hm. revert ply st. apply stateAt_invariant.
  - intros st. unfold initialState.
    destruct (Chess.load L _); [|discriminate]. intros [= <-].
    cbn [st_clocks white black].
    pose proof (initialClockMs_range Hm). lra.
  - intros st ply st' evs [Hw Hb] Hbody.
    apply body_Continue in Hbody as (_ & Hcl & Hnf & _).
    pose proof (charged_spec L MOVE_TIMEOUT_MS req agent st ply Hnf) as Hc.
    unfold bulletMode in Hc. rewrite Hm in Hc. cbn [isBullet] in Hc.
    destruct Hc as [Hc Hpos]. rewrite Hcl.
    pose proof (charge_other (st_clocks st) (active st)
                  (moveTime (thinkAt L MOVE_TIMEOUT_MS req agent st ply)))
      as Ho.
    rewrite <- Hc in Ho.
    destruct (active st); cbn [pc_get other] in *; rewrite ?Ho; auto.
Qed.

End LoopFacts.

(** ** The per-move timeout and the clocks *)

(** Without the environment variable the ceiling is 12000 ms. *)
Lemma MOVE_TIMEOUT_MS_default : MOVE_TIMEOUT_MS_of_env None = Some 12000%Z.
Proof. reflexivity. Qed.

(** C4, as the code has it: in the timed variant, at every ply, the timeout
    of the request is [max(500, min(MOVE_TIMEOUT_MS, clock))] for the
    remaining clock of the acting side. So it is at least 500 ms; it does
    not exceed the remaining clock when at least 500 ms remain, and does not
    exceed [MOVE_TIMEOUT_MS] when that is at least 500 ms. *)
Theorem perMoveTimeout_bounds (L : Chess.lib) (MOVE_TIMEOUT_MS : Q)
    (req : MatchRequest) (agent : Agent) (ply : nat) (st : State L) :
  mode req = bullet ->
  stateAt L MOVE_TIMEOUT_MS req agent ply = Some st ->
  let clock := pc_get (st_clocks st) (activeAt L st) in
  let perMove := perMoveTimeout MOVE_TIMEOUT_MS req clock in
  (perMove == Qmax 500 (Qmin MOVE_TIMEOUT_MS clock)
   /\ 500 <= perMove
   /\ (500 <= clock -> perMove <= clock)
   /\ (500 <= MOVE_TIMEOUT_MS -> perMove <= MOVE_TIMEOUT_MS))%Q.
Proof.
  intros Hm Hst clock perMove.
  assert (Hpos : (0 < clock)%Q).
  { destruct (clocks_positive L MOVE_TIMEOUT_MS req agent ply st Hm Hst).
    subst clock. now destruct (activeAt L st). }
  assert (E : perMove = Qmax 500 (Qmin MOVE_TIMEOUT_MS clock)).
  { subst perMove. unfold perMoveTimeout, bulletMode.
    rewrite Hm; cbn [isBullet].
    destruct (Qeq_bool clock 0) eqn:E0; [|reflexivity].
    apply Qeq_bool_iff in E0. lra. }
  rewrite E. split; [reflexivity|]. split; [apply Q.le_max_l|].
  split; intros H.
  - apply Q.max_lub; [assumption|apply Q.le_min_r].
  - apply Q.max_lub; [assumption|apply Q.le_min_l].
Qed.

(** C4 as stated fails: in a one-minute match white spends 59750 ms over
    five answers, each within the timeout of its request, so that 250 ms
    remain at the sixth iteration of the loop; the request of that
    iteration is given 500 ms. *)
Lemma perMoveTimeout_exceeds_clock :
  ~ (forall (L : Chess.lib) (MOVE_TIMEOUT_MS : Q) (req : MatchRequest)
            (agent : Agent) (ply : nat) (st : State L),
        mode req = bullet ->
        stateAt L MOVE_TIMEOUT_MS req agent ply = Some st ->
        (perMoveTimeout MOVE_TIMEOUT_MS req
           (pc_get (st_clocks st) (activeAt L st))
         <= pc_get (st_clocks st) (activeAt L st)
         /\ perMoveTimeout MOVE_TIMEOUT_MS req
              (pc_get (st_clocks st) (activeAt L st))
            <= MOVE_TIMEOUT_MS)%Q).
Proof.
  intros H.
  set (req := mkRequest bullet (Some (Finite 1))).
  assert (C : option_map
                (fun st =>
                   (Qle_bool
                      (perMoveTimeout 12000 req
                         (pc_get (st_clocks st) (activeAt Scripted.lib st)))
                      (pc_get (st_clocks st) (activeAt Scripted.lib st)),
                    Qeq_bool
                      (pc_get (st_clocks st) (activeAt Scripted.lib st)) 250,
                    Qeq_bool
                      (perMoveTimeout 12000 req
                         (pc_get (st_clocks st) (activeAt Scripted.lib st)))
                      500))
                (stateAt Scripted.lib 12000 req Scripted.slowWhite 6)
              = Some (false, true, true)) by (vm_compute; reflexivity).
  destruct (stateAt Scripted.lib 12000 req Scripted.slowWhite 6)
    as [st|] eqn:E; [|discriminate C].
  destruct (H Scripted.lib _ req _ _ st eq_refl E) as [H1 _].
  apply Qle_bool_iff in H1. cbn [option_map] in C. congruence.
Qed.


(** ** The strike counters *)

(** C6: from one iteration of the loop to the next, the strike counter of
    the color that did not act is unchanged, and the counter of the acting
    color is 0 after an accepted legal move, its last-illegal memory being
    cleared with it, and one more than before after an illegal or an empty
    attempt; no other attempt lets the loop go on. When the body closes the
    stream instead, the counters of the result are obtained the same way:
    reset after a legal move, incremented after an illegal or an empty
    attempt, unchanged otherwise. *)
Theorem illegalCounts_steps (L : Chess.lib) (MOVE_TIMEOUT_MS : Q)
    (req : MatchRequest) (agent : Agent) (st : State L) (ply : nat) :
  let c := activeAt L st in
  let n := pc_get (st_illegalCounts st) c in
  (forall st' evs,
     plyBody L MOVE_TIMEOUT_MS req agent st ply = Continue st' evs ->
     pc_get (st_illegalCounts st') (other c)
     = pc_get (st_illegalCounts st) (other c)
     /\ match attemptOf L MOVE_TIMEOUT_MS req agent st ply with
        | LegalMove _ _ =>
            pc_get (st_illegalCounts st') c = 0%nat
            /\ pc_get (st_lastIllegal st') c = None
        | EmptyAttempt | IllegalAttempt _ _ =>
            pc_get (st_illegalCounts st') c = S n
        | _ => False
        end)
  /\ (forall evs result,
        plyBody L MOVE_TIMEOUT_MS req agent st ply = Closed evs ->
        last evs = Some (EndEvent result) ->
        illegalCounts result
        = match attemptOf L MOVE_TIMEOUT_MS req agent st ply with
          | LegalMove _ _ => pc_set (st_illegalCounts st) c 0%nat
          | EmptyAttempt | IllegalAttempt _ _ =>
              pc_set (st_illegalCounts st) c (S n)
          | _ => st_illegalCounts st
          end).
Proof.
  intros c n. split.
  - intros st' evs Hbody.
    apply body_Continue in Hbody as (_ & _ & _ & H). fold c in H.
    destruct (attemptOf L MOVE_TIMEOUT_MS req agent st ply);
      try contradiction.
    + destruct H as (-> & _). rewrite pc_get_set_eq, pc_get_set_other.
      split; [reflexivity|]. subst n. lia.
    + destruct H as (-> & _). rewrite pc_get_set_eq, pc_get_set_other.
      split; [reflexivity|]. subst n. lia.
    + destruct H as (-> & -> & _).
      rewrite !pc_get_set_eq, pc_get_set_other. auto.
  - intros evs result Hbody Hlast.
    apply body_Closed in Hbody as (pre & r & -> & _ & H). fold c in H.
    rewrite last_snoc in Hlast. injection Hlast as <-.
    replace (S n) with (n + 1)%nat by lia.
    destruct (attemptOf L MOVE_TIMEOUT_MS req agent st ply).
    + destruct H as (-> & _). reflexivity.
    + subst r. reflexivity.
    + subst r. reflexivity.
    + tauto.
    + tauto.
    + tauto.
Qed.

Section StrikeFacts.

Variable L : Chess.lib.
Variable MOVE_TIMEOUT_MS : Q.
Variable req : MatchRequest.
Variable agent : Agent.



End StrikeFacts.

Section ScriptedStrikes.

Variable L : Chess.lib.
Variable MOVE_TIMEOUT_MS : Q.
Variable req : MatchRequest.
Variable text : string.
Variable t : Z.

Hypothesis forfeits : strikesForfeit req = true.
Hypothesis not_resign : Js.toLowerCase (Js.trim text) <> "resign".

Local Abbreviation agent := (Scripted.always text t).


End ScriptedStrikes.


(** ** The chaos variant *)

Lemma parseUciMove_squares cleaned u :
  parseUciMove cleaned = Some u ->
  isSquare (from u) = true /\ isSquare (to u) = true.
Proof.
  unfold parseUciMove.
  destruct (_ || _); [discriminate|].
  destruct (_ || _); [discriminate|].
  destruct (isSquare (Js.slice 0 2 (clean cleaned))) eqn:Ef;
    [|discriminate].
  destruct (isSquare (Js.slice 2 4 (clean cleaned))) eqn:Et;
    [|discriminate].
  cbn [negb orb].
  destruct (Js.at_ 4 (clean cleaned)) as [p|];
    [destruct (negb (Js.char_in p "qrbn"))|]; intros [= <-]; auto.
Qed.

Section ChaosEngine.

Variable L : Chess.lib.
Variable MOVE_TIMEOUT_MS : Q.
Variable req : MatchRequest.
Variable agent : Agent.

(** [applyChaosMove] does not throw on a position that loads, for the
    squares of a parsed move. *)
Lemma applyChaosMove_returns fen cleaned u c fullmove :
  boardsHaveRanks L ->
  is_Some (Chess.load L fen) ->
  parseUciMove cleaned = Some u ->
  is_Some (applyChaosMove L fen u c fullmove).
Proof.
  intros Hranks [base Hload] Hparse.
  apply parseUciMove_squares in Hparse as [Hf Ht].
  destruct (ChaosFacts.chaosBoard_spec (Chess.board L base) u c
              (Hranks _ _ Hload) Hf Ht)
    as (fr & ff & tr & tf & board' & _ & _ & Hc & _).
  unfold applyChaosMove, applyChaosMoveOn. rewrite Hload, Hc. eauto.
Qed.

Lemma fenLoads_initial st : initialState L req = Some st -> fenLoads L req st.
Proof.
  unfold initialState.
  destruct (Chess.load L _) as [chess|] eqn:E; [|discriminate].
  intros [= <-] _. cbn [st_fen]. eauto.
Qed.

Lemma fenLoads_step st ply st' evs :
  (mode req = chaos -> movesReload L) ->
  fenLoads L req st ->
  plyBody L MOVE_TIMEOUT_MS req agent st ply = Continue st' evs ->
  fenLoads L req st'.
Proof.
  intros Hreload Hst Hbody Hm. specialize (Hreload Hm). specialize (Hst Hm).
  apply body_Continue in Hbody as (_ & _ & _ & H).
  destruct (attemptOf L MOVE_TIMEOUT_MS req agent st ply);
    try contradiction.
  - destruct H as (_ & _ & _ & -> & _). assumption.
  - destruct H as (_ & _ & H).
    destruct (if bool_decide (mode req = chaos) then _ else _).
    + destruct H as (chaosMove & _ & -> & Hl & _). eauto.
    + destruct H as (_ & -> & _). assumption.
  - destruct H as (_ & _ & _ & -> & _ & text & Hmove).
    eapply Hreload; eassumption.
Qed.

Lemma fenLoads_at ply st :
  (mode req = chaos -> movesReload L) ->
  stateAt L MOVE_TIMEOUT_MS req agent ply = Some st -> fenLoads L req st.
Proof.
  intros Hreload. revert ply st. apply stateAt_invariant.
  - apply fenLoads_initial.
  - intros st ply st' evs. now apply fenLoads_step.
Qed.

Lemma body_not_Thrown st ply evs :
  (mode req = chaos -> boardsHaveRanks L) ->
  fenLoads L req st ->
  plyBody L MOVE_TIMEOUT_MS req agent st ply <> Thrown evs.
Proof.
  intros Hranks Hst Hbody.
  apply body_Thrown in Hbody as (Hm & rt & cl & u & _ & Hparse & Hnone).
  destruct (applyChaosMove_returns (st_fen st) cl u (activeAt L st)
              (st_fullmove st) (Hranks Hm) (Hst Hm) Hparse) as [x Hx].
  congruence.
Qed.

End ChaosEngine.

(** C5, as the code has it: in the chaos variant, at every iteration of
    the loop: an empty attempt, or an illegal attempt whose text does not
    parse, is counted and the loop goes on with the same position and
    history, whatever the count; an illegal attempt whose text parses to a
    pair of squares is handed to [applyChaosMove]. When [applyChaosMove]
    returns a position and the rules library loads it, the loop goes on
    with that position, the move token appended to the history and a move
    event with the chaos note sent, the attempt being counted as a strike;
    when the rules library rejects that position the stream is closed with
    the reason "illegal" and the opponent as winner, the history and the
    position being left as they were. When [applyChaosMove] throws, which
    it does when the rules library does not load the position the loop
    holds, nothing catches the exception: the stream is left open and
    without an end event. *)
Theorem chaos_attempts (L : Chess.lib) (MOVE_TIMEOUT_MS : Q)
    (req : MatchRequest) (agent : Agent) (ply : nat) (st : State L) :
  mode req = chaos ->
  let c := activeAt L st in
  let counts :=
    pc_set (st_illegalCounts st) c (pc_get (st_illegalCounts st) c + 1)%nat in
  ((attemptOf L MOVE_TIMEOUT_MS req agent st ply = EmptyAttempt
    \/ exists rawTrimmed cleaned,
         attemptOf L MOVE_TIMEOUT_MS req agent st ply
         = IllegalAttempt rawTrimmed cleaned
         /\ parseUciMove cleaned = None) ->
   exists st' evs,
     plyBody L MOVE_TIMEOUT_MS req agent st ply = Continue st' evs
     /\ st_illegalCounts st' = counts
     /\ st_fen st' = st_fen st /\ st_chess st' = st_chess st
     /\ st_moves st' = st_moves st)
  /\ (forall rawTrimmed cleaned u,
        attemptOf L MOVE_TIMEOUT_MS req agent st ply
        = IllegalAttempt rawTrimmed cleaned ->
        parseUciMove cleaned = Some u ->
        match applyChaosMove L (st_fen st) u c (st_fullmove st) with
        | Some chaosMove =>
            match Chess.load L (chaos_fen chaosMove) with
            | Some chess' =>
                exists st' evs e,
                  plyBody L MOVE_TIMEOUT_MS req agent st ply
                  = Continue st' evs
                  /\ st_illegalCounts st' = counts
                  /\ st_fen st' = chaos_fen chaosMove
                  /\ st_chess st' = chess'
                  /\ st_moves st'
                     = (st_moves st ++ [chaos_san chaosMove])%list
                  /\ In (MoveEvent e) evs
                  /\ ev_move e = chaos_san chaosMove
                  /\ ev_fen e = chaos_fen chaosMove
                  /\ ev_note e
                     = Some "Chaos move executed despite illegality"
            | None =>
                exists pre result,
                  plyBody L MOVE_TIMEOUT_MS req agent st ply
                  = Closed (pre ++ [EndEvent result])%list
                  /\ winner result = wins (other c)
                  /\ reason result = illegal
                  /\ illegalCounts result = counts
                  /\ moves result = st_moves st
                  /\ finalFen result = Chess.fen L (st_chess st)
            end
        | None =>
            exists evs,
              plyBody L MOVE_TIMEOUT_MS req agent st ply = Thrown evs
              /\ Forall not_end evs
        end).
Proof.
  intros Hm c counts.
  assert (Hs : strikesForfeit req = false)
    by (unfold strikesForfeit; now rewrite Hm).
  assert (Hdec : bool_decide (mode req = chaos) = true)
    by now apply bool_decide_eq_true.
  destruct (plyBody L MOVE_TIMEOUT_MS req agent st ply)
    as [st' evs|evs|evs] eqn:Hbody.
  - pose proof (body_Continue _ _ _ _ _ _ _ _ Hbody) as (_ & _ & _ & H).
    fold c in H. fold counts in H. split.
    + intros [E|(rt & cl & E & Hp)]; rewrite E in H.
      * exists st', evs. split; [reflexivity|]. tauto.
      * rewrite Hdec, Hp in H. exists st', evs. split; [reflexivity|]. tauto.
    + intros rt cl u E Hp. rewrite E, Hdec, Hp in H.
      destruct H as (Hc & _ & chaosMove & Ha & Hf & Hl & Hmv & e & Hin & He).
      rewrite Ha, Hl.
      exists st', evs, e. split; [reflexivity|]. tauto.
  - pose proof (body_Closed _ _ _ _ _ _ _ Hbody) as (pre & r & -> & _ & H).
    fold c in H. fold counts in H. split.
    + intros [E|(rt & cl & E & Hp)]; rewrite E in H.
      * destruct H as (_ & _ & _ & _ & _ & Hs' & _). congruence.
      * destruct H as (_ & _ & _ & _ & _ & [[Hs' _]|(u & ch & _ & Hp' & _)]);
          congruence.
    + intros rt cl u E Hp. rewrite E in H.
      destruct H as (Hw & Hr & Hc & Hmv & Hf
                     & [[Hs' _]|(u' & ch & _ & Hp' & Ha & Hl)]);
        [congruence|].
      assert (u' = u) by congruence. subst u'.
      rewrite Ha, Hl.
      exists pre, r. split; [reflexivity|]. tauto.
  - pose proof (body_Thrown _ _ _ _ _ _ _ Hbody)
      as (_ & rt' & cl' & u' & E' & Hp' & Ha).
    fold c in Ha. split.
    + intros [E|(rt & cl & E & Hp)]; [congruence|].
      rewrite E in E'. injection E' as <- <-. congruence.
    + intros rt cl u E Hp. rewrite E in E'. injection E' as <- <-.
      assert (u' = u) by congruence. subst u'. rewrite Ha.
      exists evs. split; [reflexivity|].
      pose proof (plyBody_spec L MOVE_TIMEOUT_MS req agent st ply) as Hspec.
      cbv zeta in Hspec. rewrite E in Hspec. rewrite Hspec in Hbody.
      unfold illegalBranch in Hbody. cbv zeta in Hbody.
      rewrite Hdec, Hp in Hbody.
      unfold c, activeAt in Ha. rewrite Ha in Hbody. injection Hbody as <-.
      repeat constructor.
Qed.

(** C5 as stated fails: in a chaos match on the scripted library, white
    answers "e2e8" in the initial position; the text parses to a pair of
    squares and the rules library rejects the move, but the position that
    [applyChaosMove] builds has lost the black king, the library does not
    load it, and the loop does not go on. *)
Lemma chaos_move_not_executed :
  ~ (forall (L : Chess.lib) (MOVE_TIMEOUT_MS : Q) (req : MatchRequest)
            (agent : Agent) (ply : nat) (st : State L)
            (rawTrimmed cleaned : string) (u : UciMove),
        mode req = chaos ->
        stateAt L MOVE_TIMEOUT_MS req agent ply = Some st ->
        attemptOf L MOVE_TIMEOUT_MS req agent st ply
        = IllegalAttempt rawTrimmed cleaned ->
        parseUciMove cleaned = Some u ->
        exists st' evs token,
          plyBody L MOVE_TIMEOUT_MS req agent st ply = Continue st' evs
          /\ st_moves st' = (st_moves st ++ [token])%list).
Proof.
  intros H.
  set (req := mkRequest chaos None).
  set (agent := Scripted.always "e2e8" 0).
  assert (C : option_map
                (fun st =>
                   (match attemptOf Scripted.lib 12000 req agent st 0 with
                    | IllegalAttempt rawTrimmed cleaned =>
                        Some (rawTrimmed, cleaned)
                    | _ => None
                    end,
                    match plyBody Scripted.lib 12000 req agent st 0 with
                    | Continue _ _ => true
                    | _ => false
                    end))
                (stateAt Scripted.lib 12000 req agent 0)
              = Some (Some ("e2e8", "e2e8"), false))
    by (vm_compute; reflexivity).
  destruct (stateAt Scripted.lib 12000 req agent 0) as [st|] eqn:E;
    [|discriminate C].
  cbn [option_map] in C.
  destruct (attemptOf Scripted.lib 12000 req agent st 0)
    as [| | | |rt cl|] eqn:Ea; try discriminate C.
  assert (rt = "e2e8" /\ cl = "e2e8") as [-> ->]
    by (split; congruence).
  destruct (H Scripted.lib 12000%Q req agent 0%nat st "e2e8" "e2e8"
              (mkUci "e2" "e8" None) eq_refl E Ea eq_refl)
    as (st' & evs & token & Hbody & _).
  rewrite Hbody in C. discriminate C.
Qed.

(** ** The stream of a match *)

Section StreamFacts.

Variable L : Chess.lib.
Variable MOVE_TIMEOUT_MS : Q.
Variable req : MatchRequest.
Variable agent : Agent.

Hypothesis reloads : mode req = chaos -> movesReload L.
Hypothesis ranks : mode req = chaos -> boardsHaveRanks L.

(** The loop closes the stream after one end event, the last event. *)
Lemma plyLoop_ended n : forall ply st,
  fenLoads L req st ->
  let s := plyLoop L MOVE_TIMEOUT_MS req agent n ply st in
  closed s = true
  /\ exists pre result,
       sent s = (pre ++ [EndEvent result])%list /\ Forall not_end pre.
Proof.
  induction n as [|n IH]; intros ply st Hst; cbn [plyLoop].
  - split; [reflexivity|]. eexists [], _. now split.
  - destruct (plyBody L MOVE_TIMEOUT_MS req agent st ply)
      as [st' evs|evs|evs] eqn:Hbody.
    + pose proof (body_Continue _ _ _ _ _ _ _ _ Hbody) as (Hev & _).
      assert (Hst' : fenLoads L req st')
        by (eapply fenLoads_step; eauto).
      destruct (IH (S ply) st' Hst') as (Hc & pre & r & Hs & Hpre).
      split; [exact Hc|].
      exists (evs ++ pre)%list, r. cbn [emit sent]. rewrite Hs.
      split; [now rewrite app_assoc|]. now apply Forall_app.
    + apply body_Closed in Hbody as (pre & r & -> & Hpre & _).
      split; [reflexivity|]. eauto.
    + exfalso. eapply body_not_Thrown; eauto.
Qed.

End StreamFacts.

Lemma filter_not_end pre :
  Forall not_end pre -> List.filter is_end pre = [].
Proof.
  induction 1 as [|e pre He Hpre IH]; [reflexivity|].
  cbn [List.filter]. unfold not_end in He. now rewrite He.
Qed.

(** For a rules library that loads the initial position and, in the chaos
    variant, loads again the positions after its moves and has boards of
    eight ranks, whatever the agents answer, the stream of a match is a
    finite list of events, closed by the engine, with exactly one end event,
    which is its last event. *)
Lemma one_end_event_last (L : Chess.lib) (MOVE_TIMEOUT_MS : Q)
    (req : MatchRequest) (agent : Agent) :
  is_Some (Chess.load L (Chess.fen L (Chess.new L))) ->
  (mode req = chaos -> movesReload L /\ boardsHaveRanks L) ->
  wellEnded (start L MOVE_TIMEOUT_MS req agent)
  /\ exists events result,
       sent (start L MOVE_TIMEOUT_MS req agent)
       = (events ++ [EndEvent result])%list
       /\ Forall not_end events.
Proof.
  intros [chess0 Hload] Hlib.
  destruct (initialState L req) as [st0|] eqn:Hinit;
    [|unfold initialState in Hinit; rewrite Hload in Hinit; discriminate].
  assert (Hst0 : fenLoads L req st0) by now apply fenLoads_initial.
  destruct (plyLoop_ended L MOVE_TIMEOUT_MS req agent
              (fun Hm => proj1 (Hlib Hm)) (fun Hm => proj2 (Hlib Hm))
              MAX_PLY 0%nat st0 Hst0)
    as (Hc & pre & r & Hs & Hpre).
  assert (E : sent (start L MOVE_TIMEOUT_MS req agent)
              = ((StatusEvent MatchStarting None
                    (if bulletMode req then Some (snapshot (st_clocks st0))
                     else None) None :: pre) ++ [EndEvent r])%list).
  { unfold start. rewrite Hinit. cbn [emit sent]. now rewrite Hs. }
  assert (Hpre' : Forall not_end
                    (StatusEvent MatchStarting None
                       (if bulletMode req then Some (snapshot (st_clocks st0))
                        else None) None :: pre))
    by (constructor; [reflexivity|assumption]).
  split; [|eauto].
  unfold wellEnded. rewrite E.
  split; [unfold start; now rewrite Hinit|].
  split; [|exists r; apply last_snoc].
  rewrite List.filter_app, (filter_not_end _ Hpre'). reflexivity.
Qed.

(** C1 does not hold of the chaos variant: on the library whose table holds
    the capture of a king, white plays "e2e4", black "d7d5", white's "e1c4"
    is executed as a chaos move, black's pawn takes the king on c4 and
    white answers "e1e2". That text names two squares and is not a move, so
    the loop hands it to [applyChaosMove], whose [new Chess(fen)] throws on
    the position without a white king; nothing catches the exception. The
    stream holds seven events, none of them an end event, and is not
    closed. *)
Theorem chaos_stream_without_end :
  let s :=
    start KingCapture.lib 12000 (mkRequest chaos None) KingCapture.answers in
  closed s = false
  /\ List.filter is_end (sent s) = []
  /\ map (fun e =>
            match e with
            | MoveEvent m => Some (ev_move m, ev_fen m)
            | _ => None
            end)
         (sent s)
     = [None; Some ("e2e4", KingCapture.afterE4);
        Some ("d7d5", KingCapture.afterD5); None;
        Some ("e1c4", KingCapture.kingOnC4);
        Some ("d5c4", KingCapture.kingTaken); None]
  /\ ~ wellEnded s.
Proof.
  cbv zeta.
  assert (Hc : closed (start KingCapture.lib 12000 (mkRequest chaos None)
                         KingCapture.answers) = false)
    by (vm_compute; reflexivity).
  split; [exact Hc|]. split; [vm_compute; reflexivity|].
  split; [vm_compute; reflexivity|].
  intros [H _]. rewrite Hc in H. discriminate H.
Qed.

(** ** Replaying the history *)

Section ReplayFacts.

Variable L : Chess.lib.
Variable MOVE_TIMEOUT_MS : Q.
Variable req : MatchRequest.
Variable agent : Agent.

Hypothesis not_chaos : mode req <> chaos.
Hypothesis replays : uciReplays L.

Lemma replay_snoc chess tokens chess1 token moveResult chess2 :
  replay L chess tokens = Some chess1 ->
  Chess.move L chess1 token = Some (moveResult, chess2) ->
  replay L chess (tokens ++ [token]) = Some chess2.
Proof.
  revert chess; induction tokens as [|x tokens IH]; intros chess; cbn.
  - intros [= ->] ->. reflexivity.
  - destruct (Chess.move L chess x) as [[? chess']|]; [|discriminate].
    apply IH.
Qed.

Lemma replaysTo_legal st text moveResult chess :
  replaysTo L (st_moves st) (st_chess st) ->
  Chess.move L (st_chess st) text = Some (moveResult, chess) ->
  replaysTo L (st_moves st ++ [moveUciOf moveResult]) chess.
Proof.
  intros Hst Hmove. destruct (replays _ _ _ _ Hmove) as (m' & Hm').
  eapply replay_snoc; eassumption.
Qed.

Lemma replaysTo_step st ply st' evs :
  replaysTo L (st_moves st) (st_chess st) ->
  plyBody L MOVE_TIMEOUT_MS req agent st ply = Continue st' evs ->
  replaysTo L (st_moves st') (st_chess st').
Proof.
  intros Hst Hbody.
  apply body_Continue in Hbody as (_ & _ & _ & H).
  assert (Hdec : bool_decide (mode req = chaos) = false)
    by now apply bool_decide_eq_false.
  destruct (attemptOf L MOVE_TIMEOUT_MS req agent st ply);
    try contradiction.
  - destruct H as (_ & _ & -> & _ & ->). assumption.
  - rewrite Hdec in H. destruct H as (_ & _ & -> & _ & ->). assumption.
  - destruct H as (_ & _ & -> & _ & -> & text & Hmove).
    eapply replaysTo_legal; eassumption.
Qed.

Lemma replaysTo_closed st ply evs result :
  replaysTo L (st_moves st) (st_chess st) ->
  plyBody L MOVE_TIMEOUT_MS req agent st ply = Closed evs ->
  In (EndEvent result) evs ->
  exists chess,
    replaysTo L (moves result) chess /\ finalFen result = Chess.fen L chess.
Proof.
  intros Hst Hbody Hin.
  apply body_Closed in Hbody as (pre & r & -> & Hpre & H).
  apply in_app_or in Hin as [Hin|[Hin|[]]].
  { rewrite Forall_forall in Hpre.
    apply list_elem_of_In, Hpre in Hin. discriminate Hin. }
  injection Hin as ->.
  destruct (attemptOf L MOVE_TIMEOUT_MS req agent st ply).
  - destruct H as (-> & _). exists (st_chess st). now split.
  - subst result. exists (st_chess st). now split.
  - subst result. exists (st_chess st). now split.
  - destruct H as (_ & _ & _ & -> & -> & _). exists (st_chess st). now split.
  - destruct H as (_ & _ & _ & -> & -> & _). exists (st_chess st). now split.
  - destruct H as (_ & _ & -> & -> & text & Hmove). exists chess.
    split; [|reflexivity]. eapply replaysTo_legal; eassumption.
Qed.

Lemma plyLoop_replays n : forall ply st result,
  replaysTo L (st_moves st) (st_chess st) ->
  In (EndEvent result)
    (sent (plyLoop L MOVE_TIMEOUT_MS req agent n ply st)) ->
  replayedFen L (moves result) = Some (finalFen result).
Proof.
  induction n as [|n IH]; intros ply st result Hst; cbn [plyLoop].
  - intros [[= <-]|[]]. unfold replayedFen. cbn [moves resultFromDraw
      buildResult finalFen]. unfold replaysTo in Hst. now rewrite Hst.
  - destruct (plyBody L MOVE_TIMEOUT_MS req agent st ply)
      as [st' evs|evs|evs] eqn:Hbody; cbn [sent emit].
    + intros Hin. apply in_app_or in Hin as [Hin|Hin].
      * apply body_Continue in Hbody as (Hev & _).
        rewrite Forall_forall in Hev.
        apply list_elem_of_In, Hev in Hin. discriminate Hin.
      * eapply IH; [|exact Hin]. eapply replaysTo_step; eassumption.
    + intros Hin.
      destruct (replaysTo_closed _ _ _ _ Hst Hbody Hin) as (chess & Hr & Hf).
      unfold replayedFen. unfold replaysTo in Hr. now rewrite Hr, Hf.
    + apply body_Thrown in Hbody as (Hm & _). contradiction.
Qed.

End ReplayFacts.

(** C8, as the code has it: in the strict and timed variants, for a rules
    library whose default constructor is the constructor on the start
    position and which accepts the coordinate token of a move it accepted,
    with the same outcome, the move history of the result of an end event,
    replayed in order from the standard initial position, gives the final
    position that the result reports. *)
Theorem history_replays_to_finalFen (L : Chess.lib) (MOVE_TIMEOUT_MS : Q)
    (req : MatchRequest) (agent : Agent) (result : MatchResult) :
  mode req <> chaos ->
  startIsNew L ->
  uciReplays L ->
  In (EndEvent result) (sent (start L MOVE_TIMEOUT_MS req agent)) ->
  replayedFen L (moves result) = Some (finalFen result).
Proof.
  intros Hm Hnew Hreplays. unfold start, initialState.
  rewrite Hnew. cbn [emit sent].
  intros [Hin|Hin]; [discriminate Hin|].
  eapply plyLoop_replays; [exact Hm|exact Hreplays| |exact Hin].
  reflexivity.
Qed.

(** C8 as stated fails in the chaos variant: white answers "e2e5" in the
    initial position, the move is executed as a chaos move and recorded in
    the history, black resigns; the rules library rejects "e2e5" when the
    history is replayed from the initial position. *)
Lemma chaos_history_does_not_replay :
  exists result,
    In (EndEvent result)
      (sent (start Scripted.lib 12000 (mkRequest chaos None)
               (Scripted.script [mkThink (Returned "e2e5") 5])))
    /\ moves result = ["e2e5"]
    /\ finalFen result
       = "rnbqkbnr/pppppppp/8/4P3/8/8/PPPP1PPP/RNBQKBNR b - - 0 1"
    /\ replayedFen Scripted.lib (moves result) <> Some (finalFen result).
Proof.
  vm_compute. eexists. split; [do 4 right; left; reflexivity|].
  repeat split. discriminate.
Qed.

(** ** The model call with its retries *)

Module FetchFacts.

Import ParserFacts.

Lemma append_assoc (a b c : string) : (a ++ b) ++ c = a ++ (b ++ c).
Proof. induction a as [|x a IH]; cbn; congruence. Qed.

Lemma rev_onto_app s acc : Js.rev_onto s acc = Js.rev s ++ acc.
Proof.
  revert acc; induction s as [|c s IH]; intros acc; [reflexivity|].
  unfold Js.rev. cbn [Js.rev_onto].
  rewrite IH, (IH (String c EmptyString)), append_assoc. reflexivity.
Qed.

Lemma rev_append a b : Js.rev (a ++ b) = Js.rev b ++ Js.rev a.
Proof.
  induction a as [|x a IH]; cbn.
  - now rewrite append_empty.
  - unfold Js.rev in *. cbn [Js.rev_onto].
    rewrite (rev_onto_app (a ++ b)), (rev_onto_app a).
    unfold Js.rev. rewrite IH. apply append_assoc.
Qed.

Lemma trimStart_headOk s : headOk (Js.trimStart s).
Proof.
  induction s as [|c s IH]; cbn; [exact I|].
  destruct (Js.is_space c) eqn:E; [assumption|exact E].
Qed.

Lemma trimStart_fixed s : headOk s -> Js.trimStart s = s.
Proof. destruct s as [|c s]; cbn; [reflexivity|]. now intros ->. Qed.

Lemma trimStart_suffix s : exists p, s = p ++ Js.trimStart s.
Proof.
  induction s as [|c s [p IH]]; [now exists EmptyString|].
  cbn. destruct (Js.is_space c).
  - exists (String c p). cbn. now rewrite <- IH.
  - now exists EmptyString.
Qed.

Lemma headOk_prefix r w : headOk (r ++ w) -> r <> EmptyString -> headOk r.
Proof. destruct r; [congruence|]. now cbn. Qed.

Lemma trim_fixed r : headOk r -> headOk (Js.rev r) -> Js.trim r = r.
Proof.
  intros H1 H2. unfold Js.trim, Js.trimEnd.
  rewrite (trimStart_fixed r H1), (trimStart_fixed _ H2). apply rev_rev.
Qed.

Lemma trim_ends s : headOk (Js.trim s) /\ headOk (Js.rev (Js.trim s)).
Proof.
  unfold Js.trim, Js.trimEnd.
  set (u := Js.trimStart s).
  set (v := Js.trimStart (Js.rev u)).
  assert (Hu : headOk u) by apply trimStart_headOk.
  assert (Hv : headOk v) by apply trimStart_headOk.
  split; [|now rewrite rev_rev].
  destruct (trimStart_suffix (Js.rev u)) as [w Hw]. fold v in Hw.
  assert (E : u = Js.rev v ++ Js.rev w).
  { rewrite <- (rev_rev u), Hw. apply rev_append. }
  destruct (Js.rev v) as [|c r] eqn:Er; [exact I|].
  rewrite E in Hu. exact Hu.
Qed.

(** [trim] is idempotent. *)
Lemma trim_trim s : Js.trim (Js.trim s) = Js.trim s.
Proof. destruct (trim_ends s). now apply trim_fixed. Qed.

End FetchFacts.

(** X1: whatever the model call does, [fetchMove] ends after at most three calls
    of [streamText], numbered 1, 2, 3, and at most two backoffs, which add
    up to at most 4000 ms. *)
Theorem fetchMove_bounded (call : ModelCall) :
  exists r,
    fetchMove call = Some r
    /\ (1 <= calls r <= 3)%nat
    /\ length (slept r) = (calls r - 1)%nat
    /\ (0 <= totalSlept r <= 4000)%Z.
Proof.
  unfold fetchMove, totalSlept. cbn [fetchMoveFrom].
  repeat match goal with
         | |- context [call ?n] => destruct (call n) as [?chunks|?name ?message]
         | |- context [String.eqb ?a ?b] => destruct (String.eqb a b)
         | |- context [overloaded ?a ?b] => destruct (overloaded a b)
         end;
    cbn; eexists; (split; [reflexivity|]); cbn; lia.
Qed.

(** The error thrown for an empty move is not of the overload class. *)
Lemma empty_move_not_overloaded :
  overloaded "Error" "Model returned an empty move" = false.
Proof. vm_compute. reflexivity. Qed.

(** Splits a hypothesis about [fetchMove] along the outcomes of the calls. *)
Ltac fetch_cases call H :=
  unfold fetchMove in H; cbn [fetchMoveFrom Nat.add] in H;
  rewrite ?empty_move_not_overloaded in H;
  repeat match type of H with
         | context [call ?n] =>
             let E := fresh "Ecall" in
             destruct (call n) as [?chunks|?name ?message] eqn:E
         | context [String.eqb ?a EmptyString] =>
             let E := fresh "Eblank" in
             destruct (String.eqb_spec a EmptyString) as [E|E]
         | context [overloaded ?a ?b] =>
             let E := fresh "Eover" in
             destruct (overloaded a b) eqn:E
         end;
  cbn [andb Nat.ltb Nat.leb afterBackoff calls slept fetched Nat.add] in H;
  injection H as <-;
  cbn [calls slept fetched Nat.add] in *.

(** X2: when [fetchMove] returns, the text is not empty, has no white space at
    either end, and is the trimmed stream of the last call made. *)
Theorem fetchMove_returns (call : ModelCall) (r : Fetch) (text : string) :
  fetchMove call = Some r ->
  fetched r = Returned text ->
  text <> EmptyString
  /\ trimmedText text
  /\ exists chunks,
       call (calls r) = Streamed chunks
       /\ text = Js.trim (String.concat EmptyString chunks).
Proof.
  unfold trimmedText. intros H. fetch_cases call H; intros [= <-];
    (split; [assumption|]); (split; [apply FetchFacts.trim_trim|]); eauto.
Qed.

(** X3: when [fetchMove] throws, either the third call streamed an empty text
    and the error is "Model returned an empty move", or the error is the one
    of the last call made, which was the third call or was not of the
    overload class. *)
Theorem fetchMove_throws (call : ModelCall) (r : Fetch) (message : string) :
  fetchMove call = Some r ->
  fetched r = Threw message ->
  (calls r = 3%nat /\ blankStream (call 3%nat)
   /\ message = "Model returned an empty move")
  \/ (exists name,
        call (calls r) = Failed name message
        /\ (calls r = 3%nat \/ overloaded name message = false)).
Proof.
  unfold blankStream. intros H.
  fetch_cases call H; intros [= <-];
    first
      [ left; split; [reflexivity|];
        split; [eexists; split; [reflexivity || eassumption | eassumption]
               | reflexivity]
      | right; eexists; split; [reflexivity || eassumption|];
        first [left; reflexivity | right; assumption] ].
Qed.

(** X4: [fetchMove] calls again only after an empty text or an error of the
    overload class, sleeping [800 * attempt + 400] ms after the first and
    [1000 * attempt + 500] ms after the second. *)
Theorem fetchMove_retries (call : ModelCall) (r : Fetch) (k : nat) :
  fetchMove call = Some r ->
  (1 <= k < calls r)%nat ->
  (blankStream (call k)
   /\ slept r !! (k - 1)%nat = Some (800 * Z.of_nat k + 400)%Z)
  \/ (overloadFailure (call k)
      /\ slept r !! (k - 1)%nat = Some (1000 * Z.of_nat k + 500)%Z).
Proof.
  unfold blankStream, overloadFailure. intros H.
  fetch_cases call H; intros Hk;
    try lia;
    (assert (k = 1 \/ k = 2)%nat as [-> | ->] by lia
     || assert (k = 1)%nat as -> by lia);
    try lia; cbn; eauto 10.
Qed.

(** X5: a model that streams nothing but white space at every call is called
    three times, with backoffs of 1200 ms and 2000 ms, and the attempt of
    the iteration that made the calls is a strike for an empty move, unless
    the flag fell meanwhile: it is never a failed call. *)
Theorem silent_model_strike (L : Chess.lib) (MOVE_TIMEOUT_MS : Q)
    (req : MatchRequest) (agent : Agent) (st : State L) (ply : nat)
    (call : ModelCall) (r : Fetch) :
  (forall attempt, blankStream (call attempt)) ->
  fetchMove call = Some r ->
  outcome (thinkAt L MOVE_TIMEOUT_MS req agent st ply) = fetched r ->
  calls r = 3%nat
  /\ slept r = [1200; 2000]%Z
  /\ (attemptOf L MOVE_TIMEOUT_MS req agent st ply = FlagFall
      \/ attemptOf L MOVE_TIMEOUT_MS req agent st ply = EmptyAttempt).
Proof.
  intros Hblank Hfetch Hout.
  assert (E : r = mkFetch 3 [1200; 2000]%Z
                    (Threw "Model returned an empty move")).
  { destruct (Hblank 1%nat) as (c1 & E1 & B1).
    destruct (Hblank 2%nat) as (c2 & E2 & B2).
    destruct (Hblank 3%nat) as (c3 & E3 & B3).
    unfold fetchMove in Hfetch. cbn [fetchMoveFrom Nat.add] in Hfetch.
    rewrite E1, E2, E3, B1, B2, B3, empty_move_not_overloaded in Hfetch.
    cbn in Hfetch. injection Hfetch as <-. reflexivity. }
  subst r. cbn [calls slept fetched] in *.
  split; [reflexivity|]. split; [reflexivity|].
  unfold attemptOf. rewrite Hout.
  destruct (snd (flagged L req st _ _)); [now left|right].
  reflexivity.
Qed.

(** ** The event stream on the wire *)

Module WireFacts.

Import ParserFacts.

Section Split.

Variable sep : ascii.

Lemma split_on_cur cur s :
  Js.split_on sep cur s
  = match Js.split sep s with
    | x :: r => (Js.rev cur ++ x) :: r
    | [] => []
    end.
Proof.
  unfold Js.split. revert cur.
  induction s as [|c s IH]; intros cur; cbn [Js.split_on].
  - now rewrite append_empty.
  - destruct (Ascii.eqb c sep).
    + now rewrite append_empty.
    + rewrite (IH (String c cur)), (IH (String c EmptyString)).
      destruct (Js.split_on sep EmptyString s) as [|x r]; [reflexivity|].
      f_equal. unfold Js.rev. cbn [Js.rev_onto].
      rewrite (FetchFacts.rev_onto_app cur), FetchFacts.append_assoc.
      reflexivity.
Qed.

Lemma split_sep s : Js.split sep (String sep s) = EmptyString :: Js.split sep s.
Proof. unfold Js.split. cbn [Js.split_on]. now rewrite Ascii.eqb_refl. Qed.

Lemma split_other c s :
  Ascii.eqb c sep = false ->
  Js.split sep (String c s)
  = match Js.split sep s with
    | x :: r => String c x :: r
    | [] => []
    end.
Proof.
  intros E. unfold Js.split at 1. cbn [Js.split_on]. rewrite E.
  rewrite split_on_cur. reflexivity.
Qed.

Lemma split_nonempty s : Js.split sep s <> [].
Proof.
  induction s as [|c s IH]; [intros [=]|].
  destruct (Ascii.eqb_spec c sep) as [->|E].
  - now rewrite split_sep.
  - apply Ascii.eqb_neq in E. rewrite (split_other _ _ E).
    destruct (Js.split sep s); [congruence|discriminate].
Qed.

(** Splitting a text in two pieces: the last part of the first piece goes
    on with the second piece. *)
Lemma split_app a b :
  Js.split sep (a ++ b)
  = (removelast (Js.split sep a)
     ++ Js.split sep (default EmptyString (last (Js.split sep a)) ++ b))%list.
Proof.
  induction a as [|c a IH]; [reflexivity|].
  change (String c a ++ b) with (String c (a ++ b)).
  destruct (Ascii.eqb_spec c sep) as [->|E]; [|apply Ascii.eqb_neq in E].
  - rewrite !split_sep, IH.
    pose proof (split_nonempty a) as Hne.
    destruct (Js.split sep a) as [|x r] eqn:Ea; [congruence|]. reflexivity.
  - rewrite !(split_other _ _ E), IH.
    destruct (Js.split sep a) as [|x r] eqn:Ea;
      [now destruct (split_nonempty a)|].
    destruct r as [|y r].
    + cbn [removelast last default from_option id app].
      change (String c x ++ b) with (String c (x ++ b)).
      now rewrite (split_other _ _ E).
    + reflexivity.
Qed.

(** A text without the separator, followed by the separator. *)
Lemma split_line a rest :
  all_chars (fun c => negb (Ascii.eqb c sep)) a = true ->
  Js.split sep (a ++ String sep rest) = a :: Js.split sep rest.
Proof.
  induction a as [|c a IH]; cbn [all_chars append]; intros H.
  - apply split_sep.
  - apply andb_prop in H as [Hc Ha]. apply negb_true_iff in Hc.
    rewrite (split_other _ _ Hc), (IH Ha). reflexivity.
Qed.

Lemma split_tail a :
  all_chars (fun c => negb (Ascii.eqb c sep)) a = true ->
  Js.split sep a = [a].
Proof.
  induction a as [|c a IH]; cbn [all_chars]; intros H; [reflexivity|].
  apply andb_prop in H as [Hc Ha]. apply negb_true_iff in Hc.
  rewrite (split_other _ _ Hc), (IH Ha). reflexivity.
Qed.

End Split.

(** The reader after a text has gone through it, in whatever chunks. *)
Lemma readChunk_step text chunk :
  let after t :=
    mkReader (default EmptyString (last (Js.split newline t)))
      (List.filter (fun line => negb (blankLine line))
         (removelast (Js.split newline t))) in
  readChunk (after text) chunk = after (text ++ chunk).
Proof.
  cbv zeta. unfold readChunk. cbn [buffer parsed].
  rewrite (split_app newline text chunk).
  set (S2 := Js.split newline
               (default EmptyString (last (Js.split newline text)) ++ chunk)).
  assert (Hne : S2 <> []) by apply split_nonempty.
  rewrite removelast_app by assumption.
  rewrite List.filter_app. f_equal.
  destruct S2 as [|x r] using rev_ind; [congruence|].
  now rewrite app_assoc, !last_snoc.
Qed.

Lemma readStream_from chunks : forall text,
  fold_left readChunk chunks
    (mkReader (default EmptyString (last (Js.split newline text)))
       (List.filter (fun line => negb (blankLine line))
          (removelast (Js.split newline text))))
  = mkReader
      (default EmptyString
         (last (Js.split newline (text ++ String.concat EmptyString chunks))))
      (List.filter (fun line => negb (blankLine line))
         (removelast
            (Js.split newline (text ++ String.concat EmptyString chunks)))).
Proof.
  induction chunks as [|chunk chunks IH]; intros text; cbn [fold_left].
  - cbn [String.concat]. now rewrite append_empty.
  - rewrite (readChunk_step text chunk), IH. 
    assert (E : (text ++ chunk) ++ String.concat EmptyString chunks
                = text ++ String.concat EmptyString (chunk :: chunks)).
    { rewrite FetchFacts.append_assoc. f_equal.
      destruct chunks; cbn [String.concat]; [now rewrite append_empty|].
      reflexivity. }
    now rewrite E.
Qed.

Lemma split_wire texts tail :
  Forall (fun t => oneLine t = true) texts ->
  oneLine tail = true ->
  Js.split newline (wire texts ++ tail) = (texts ++ [tail])%list.
Proof.
  intros Htexts Htail. unfold wire.
  induction Htexts as [|t texts Ht Htexts IH]; cbn [map app].
  - now apply split_tail.
  - assert (E : String.concat EmptyString (send t :: map send texts) ++ tail
                = t ++ String newline
                         (String.concat EmptyString (map send texts) ++ tail)).
    { destruct texts as [|t' texts]; cbn [map String.concat]; unfold send.
      - now rewrite FetchFacts.append_assoc.
      - now rewrite !FetchFacts.append_assoc. }
    rewrite E, split_line by exact Ht. now rewrite IH.
Qed.

(** The reader after the chunks, by the text they add up to. *)
Lemma readStream_spec chunks :
  readStream chunks
  = mkReader
      (default EmptyString
         (last (Js.split newline (String.concat EmptyString chunks))))
      (List.filter (fun line => negb (blankLine line))
         (removelast (Js.split newline (String.concat EmptyString chunks)))).
Proof. exact (readStream_from chunks EmptyString). Qed.

End WireFacts.

(** X6: what the reading loop hands to [JSON.parse], and what it keeps in its
    buffer, depends only on the text received, not on how the transport cut
    it into chunks. *)
Theorem readStream_chunking (chunks : list string) :
  readStream chunks = readStream [String.concat EmptyString chunks].
Proof.
  rewrite (WireFacts.readStream_spec chunks),
    (WireFacts.readStream_spec [String.concat EmptyString chunks]).
  reflexivity.
Qed.

(** X7: when the server has sent texts without line feeds, each followed by a
    line feed as [send] does, and then an unterminated rest, the reading loop
    hands to [JSON.parse] exactly the texts that are not blank, in the order
    sent, however the stream was cut into chunks; the rest stays in the
    buffer and is never parsed. *)
Theorem readStream_wire (texts : list string) (tail : string)
    (chunks : list string) :
  Forall (fun t => oneLine t = true) texts ->
  oneLine tail = true ->
  String.concat EmptyString chunks = wire texts ++ tail ->
  parsed (readStream chunks)
  = List.filter (fun t => negb (blankLine t)) texts
  /\ buffer (readStream chunks) = tail.
Proof.
  intros Htexts Htail Hchunks.
  rewrite (WireFacts.readStream_spec chunks), Hchunks,
    (WireFacts.split_wire texts tail Htexts Htail).
  cbn [buffer parsed].
  rewrite removelast_last, last_snoc. now split.
Qed.

(** ** The results of a match *)

Section ResultFacts.

Variable L : Chess.lib.
Variable MOVE_TIMEOUT_MS : Q.
Variable req : MatchRequest.
Variable agent : Agent.

Local Abbreviation body := (plyBody L MOVE_TIMEOUT_MS req agent).
Local Abbreviation attempt := (attemptOf L MOVE_TIMEOUT_MS req agent).
Local Abbreviation charged := (chargedAt L MOVE_TIMEOUT_MS req agent).
Local Abbreviation active := (activeAt L).
Local Abbreviation loop := (plyLoop L MOVE_TIMEOUT_MS req agent).

(** The events sent before [applyChaosMove] throws hold no end event. *)
Lemma thrown_not_end st ply evs : body st ply = Thrown evs -> Forall not_end evs.
Proof.
  intros Hbody.
  destruct (body_Thrown _ _ _ _ _ _ _ Hbody)
    as (_ & rawTrimmed & cleaned & u & Ha & _).
  pose proof (plyBody_spec L MOVE_TIMEOUT_MS req agent st ply) as Hspec.
  cbv zeta in Hspec. rewrite Ha in Hspec. rewrite Hspec in Hbody.
  unfold illegalBranch in Hbody. cbv zeta in Hbody.
  repeat case_match; try discriminate Hbody;
    injection Hbody as <-; repeat constructor.
Qed.

Lemma in_end_snoc pre result r :
  Forall not_end pre ->
  In (EndEvent r) (pre ++ [EndEvent result])%list -> r = result.
Proof.
  intros Hpre Hin. apply in_app_or in Hin as [Hin|[Hin|[]]].
  - rewrite Forall_forall in Hpre.
    apply list_elem_of_In, Hpre in Hin. discriminate Hin.
  - congruence.
Qed.

Lemma not_in_end evs r : Forall not_end evs -> ~ In (EndEvent r) evs.
Proof.
  intros Hev Hin. rewrite Forall_forall in Hev.
  apply list_elem_of_In, Hev in Hin. discriminate Hin.
Qed.

(** Induction over the loop for a property of the result of the end
    event. *)
Lemma plyLoop_results (I : State L -> Prop) (P : MatchResult -> Prop) :
  (forall st ply st' evs, I st -> body st ply = Continue st' evs -> I st') ->
  (forall st ply pre result,
     I st -> body st ply = Closed (pre ++ [EndEvent result])%list ->
     Forall not_end pre -> P result) ->
  (forall st,
     I st ->
     P (resultFromDraw L max_move (st_moves st) (st_illegalCounts st)
          (st_chess st) (clocksField req (st_clocks st))
          (Some (st_lastIllegalMoves st)))) ->
  forall n ply st r,
    I st -> In (EndEvent r) (sent (loop n ply st)) -> P r.
Proof.
  intros Hstep Hclosed Hmax.
  induction n as [|n IH]; intros ply st r Hst Hin; cbn [plyLoop] in Hin.
  - destruct Hin as [[= <-]|[]]. now apply Hmax.
  - destruct (body st ply) as [st' evs|evs|evs] eqn:Hbody.
    + cbn [emit sent] in Hin. apply in_app_or in Hin as [Hin|Hin].
      * pose proof (body_Continue _ _ _ _ _ _ _ _ Hbody) as (Hev & _).
        now destruct (not_in_end evs r Hev).
      * eapply IH; [|exact Hin]. eauto.
    + cbn [sent] in Hin.
      destruct (body_Closed _ _ _ _ _ _ _ Hbody) as (pre & res & -> & Hpre & _).
      apply (in_end_snoc _ _ _ Hpre) in Hin as ->. eauto.
    + cbn [sent] in Hin.
      now destruct (not_in_end evs r (thrown_not_end _ _ _ Hbody)).
Qed.

(** The same for the stream of a match, which the loop follows on the
    first status event. *)
Lemma start_results (I : State L -> Prop) (P : MatchResult -> Prop) :
  (forall st, initialState L req = Some st -> I st) ->
  (forall st ply st' evs, I st -> body st ply = Continue st' evs -> I st') ->
  (forall st ply pre result,
     I st -> body st ply = Closed (pre ++ [EndEvent result])%list ->
     Forall not_end pre -> P result) ->
  (forall st,
     I st ->
     P (resultFromDraw L max_move (st_moves st) (st_illegalCounts st)
          (st_chess st) (clocksField req (st_clocks st))
          (Some (st_lastIllegalMoves st)))) ->
  forall r,
    In (EndEvent r) (sent (start L MOVE_TIMEOUT_MS req agent)) -> P r.
Proof.
  intros Hinit Hstep Hclosed Hmax r. unfold start.
  destruct (initialState L req) as [st0|] eqn:E; [|intros []].
  cbn [emit sent app]. intros [Hin|Hin]; [discriminate Hin|].
  eapply plyLoop_results; eauto.
Qed.

(** The winner and the reason of the result a closing iteration sends. *)
Lemma closed_winner_reason st ply pre result :
  body st ply = Closed (pre ++ [EndEvent result])%list ->
  Forall not_end pre ->
  (winner result = draw <-> drawnReason (reason result) = true)
  /\ (reason result = checkmate -> winner result = wins (active st))
  /\ (drawnReason (reason result) = false ->
      reason result <> checkmate ->
      winner result = wins (other (active st))).
Proof.
  intros Hbody Hpre.
  destruct (body_Closed _ _ _ _ _ _ _ Hbody) as (pre' & res & E & Hpre' & H).
  assert (res = result) as ->.
  { symmetry. eapply (in_end_snoc pre'); [exact Hpre'|].
    rewrite <- E. apply in_or_app. right. now left. }
  clear E Hpre'. cbv zeta in H.
  destruct (attempt st ply).
  - destruct H as [-> _]. cbn. repeat split; congruence.
  - subst result. cbn. repeat split; congruence.
  - subst result. cbn. repeat split; congruence.
  - destruct H as (Hw & Hr & _). rewrite Hw, Hr. cbn.
    repeat split; congruence.
  - destruct H as (Hw & Hr & _). rewrite Hw, Hr. cbn.
    repeat split; congruence.
  - destruct H as (Hend & _).
    destruct Hend as [[Hw Hr]|[Hw [Hr|[Hr|[Hr|Hr]]]]]; rewrite Hw, Hr; cbn;
      repeat split; congruence.
Qed.

(** The moves and the clocks of the branches of the loop body. *)
Lemma emptyMoveBranch_shape st ply c clocks :
  stepShape L req st clocks (emptyMoveBranch L req st ply c clocks).
Proof.
  unfold emptyMoveBranch. cbv zeta. case_match; cbn.
  - eexists [_], _. split; [reflexivity|]. split; [repeat constructor|].
    cbn. rewrite ?app_nil_r. now split.
  - now rewrite ?app_nil_r.
Qed.

Lemma illegalBranch_shape st ply c clocks t rawTrimmed cleaned :
  stepShape L req st clocks
    (illegalBranch L req st ply c clocks t rawTrimmed cleaned).
Proof.
  unfold illegalBranch. cbv zeta.
  repeat case_match; cbn; rewrite ?app_nil_r; try reflexivity;
    try exact I;
    first [eexists [_], _; split; [reflexivity|]
          |eexists [_; _], _; split; [reflexivity|]];
    (split; [repeat constructor|]); cbn; rewrite ?app_nil_r; now split.
Qed.

Lemma legalBranch_shape st ply c clocks t moveResult chess :
  stepShape L req st clocks
    (legalBranch L req st ply c clocks t moveResult chess).
Proof.
  unfold legalBranch. cbv zeta.
  repeat case_match; cbn; try reflexivity;
    (eexists [_], _; split; [reflexivity|];
     split; [repeat constructor|]; cbn; split; reflexivity).
Qed.

Lemma plyBody_shape st ply : stepShape L req st (charged st ply) (body st ply).
Proof.
  unfold plyBody, chargedAt, thinkAt, activeAt. cbv zeta.
  destruct (flagged L req st _ _) as [clocks [flagEvents|]] eqn:Eflag;
    cbn [fst snd].
  - apply flagged_events in Eflag as (Hb & _ & _ & ->).
    eexists [_], _. split; [reflexivity|]. split; [repeat constructor|].
    cbn. unfold clocksField. rewrite Hb, ?app_nil_r. now split.
  - destruct (outcome _) as [rawMove|message].
    + unfold returnedBranch. cbv zeta.
      destruct (String.eqb _ "resign").
      * eexists [_], _. split; [reflexivity|].
        split; [repeat constructor|]. cbn. rewrite ?app_nil_r. now split.
      * destruct (Chess.move L _ _) as [[m chess]|].
        -- apply legalBranch_shape.
        -- apply illegalBranch_shape.
    + unfold fetchErrBranch. cbv zeta.
      destruct (Js.includes _ _).
      * apply emptyMoveBranch_shape.
      * eexists [_], _. split; [reflexivity|].
        split; [repeat constructor|]. cbn. rewrite ?app_nil_r. now split.
Qed.

Lemma movesOf_app a b : movesOf (a ++ b) = (movesOf a ++ movesOf b)%list.
Proof. apply flat_map_app. Qed.

(** The history of the result is the history at the head of the loop
    followed by the moves announced from there on. *)
Lemma plyLoop_moves n : forall ply st r,
  In (EndEvent r) (sent (loop n ply st)) ->
  moves r = (st_moves st ++ movesOf (sent (loop n ply st)))%list.
Proof.
  induction n as [|n IH]; intros ply st r Hin; cbn [plyLoop] in *.
  - destruct Hin as [[= <-]|[]]. cbn. now rewrite app_nil_r.
  - pose proof (plyBody_shape st ply) as Hshape.
    destruct (body st ply) as [st' evs|evs|evs] eqn:Hbody;
      cbn [stepShape emit sent] in *.
    + apply in_app_or in Hin as [Hin|Hin].
      * pose proof (body_Continue _ _ _ _ _ _ _ _ Hbody) as (Hev & _).
        now destruct (not_in_end evs r Hev).
      * rewrite (IH _ _ _ Hin), Hshape, movesOf_app, app_assoc.
        reflexivity.
    + destruct Hshape as (pre & res & -> & Hpre & _ & Hm).
      apply (in_end_snoc _ _ _ Hpre) in Hin as ->.
      rewrite movesOf_app. cbn. now rewrite app_nil_r.
    + now destruct (not_in_end evs r (thrown_not_end _ _ _ Hbody)).
Qed.

Lemma charge_nonneg clocks c t :
  (0 <= white clocks)%Q -> (0 <= black clocks)%Q ->
  (0 <= white (charge clocks c t))%Q /\ (0 <= black (charge clocks c t))%Q.
Proof.
  intros Hw Hb. unfold charge.
  destruct c; cbn [pc_set pc_get white black]; split; try assumption;
    apply Q.le_max_l.
Qed.

Lemma charged_nonneg st ply :
  (0 <= white (st_clocks st))%Q -> (0 <= black (st_clocks st))%Q ->
  (0 <= white (charged st ply))%Q /\ (0 <= black (charged st ply))%Q.
Proof.
  intros Hw Hb. unfold chargedAt, flagged.
  destruct (bulletMode req); [|now split].
  destruct (Qle_bool _ 0); cbn [fst]; now apply charge_nonneg.
Qed.

End ResultFacts.

(** X8: the winner of a match and the reason of its end agree: the match is
    drawn exactly for the reasons stalemate, threefold repetition,
    insufficient material, fifty-move rule and move limit, and has a winner
    for checkmate, resignation, illegal moves and timeout. *)
Theorem winner_matches_reason (L : Chess.lib) (MOVE_TIMEOUT_MS : Q)
    (req : MatchRequest) (agent : Agent) (result : MatchResult) :
  In (EndEvent result) (sent (start L MOVE_TIMEOUT_MS req agent)) ->
  (winner result = draw <-> drawnReason (reason result) = true)
  /\ (drawnReason (reason result) = false -> exists c, winner result = wins c).
Proof.
  apply (start_results L MOVE_TIMEOUT_MS req agent (fun _ => True)
           (fun result =>
              (winner result = draw <-> drawnReason (reason result) = true)
              /\ (drawnReason (reason result) = false ->
                  exists c, winner result = wins c))); auto.
  - intros st ply pre res _ Hbody Hpre.
    destruct (closed_winner_reason _ _ _ _ _ _ _ _ Hbody Hpre)
      as (Hd & Hc & Ho).
    split; [exact Hd|]. intros Hr.
    destruct (reason res) eqn:Er; try discriminate Hr;
      first [exists (activeAt L st); now apply Hc
            |exists (other (activeAt L st)); now apply Ho].
  - intros st _. cbn. split; [tauto|discriminate].
Qed.

(** X9: the history of the result of a match is the list of the moves that the
    move events of its stream announced, in their order, the event of a
    resignation apart. *)
Theorem result_moves_announced (L : Chess.lib) (MOVE_TIMEOUT_MS : Q)
    (req : MatchRequest) (agent : Agent) (result : MatchResult) :
  In (EndEvent result) (sent (start L MOVE_TIMEOUT_MS req agent)) ->
  moves result = movesOf (sent (start L MOVE_TIMEOUT_MS req agent)).
Proof.
  unfold start.
  destruct (initialState L req) as [st0|] eqn:E; [|intros []].
  cbn [emit sent app]. intros [Hin|Hin]; [discriminate Hin|].
  rewrite (plyLoop_moves _ _ _ _ _ _ _ _ Hin).
  unfold initialState in E. destruct (Chess.load L _); [|discriminate E].
  injection E as <-. reflexivity.
Qed.

(** X10: the result of a match reports the clocks in the timed variant only, and
    never a negative clock. *)
Theorem result_clocks (L : Chess.lib) (MOVE_TIMEOUT_MS : Q)
    (req : MatchRequest) (agent : Agent) (result : MatchResult) :
  In (EndEvent result) (sent (start L MOVE_TIMEOUT_MS req agent)) ->
  match clocks result with
  | Some c => mode req = bullet /\ (0 <= whiteMs c)%Q /\ (0 <= blackMs c)%Q
  | None => mode req <> bullet
  end.
Proof.
  assert (Hfield : forall charged : PerColor Q,
            (0 <= white charged)%Q -> (0 <= black charged)%Q ->
            match clocksField req charged with
            | Some c =>
                mode req = bullet /\ (0 <= whiteMs c)%Q /\ (0 <= blackMs c)%Q
            | None => mode req <> bullet
            end).
  { intros charged Hw Hb. unfold clocksField, bulletMode.
    destruct (mode req); cbn; try discriminate. now repeat split. }
  apply (start_results L MOVE_TIMEOUT_MS req agent
           (fun st =>
              (0 <= white (st_clocks st))%Q /\ (0 <= black (st_clocks st))%Q)
           (fun result =>
              match clocks result with
              | Some c =>
                  mode req = bullet
                  /\ (0 <= whiteMs c)%Q /\ (0 <= blackMs c)%Q
              | None => mode req <> bullet
              end)).
  - intros st. unfold initialState.
    destruct (Chess.load L _); [|discriminate]. intros [= <-].
    cbn [st_clocks white black].
    assert (0 <= initialClockMs req)%Q; [|now split].
    apply initialClockMs_nonneg.
  - intros st ply st' evs [Hw Hb] Hbody.
    apply body_Continue in Hbody as (_ & -> & _).
    now apply charged_nonneg.
  - intros st ply pre res [Hw Hb] Hbody Hpre.
    pose proof (plyBody_shape L MOVE_TIMEOUT_MS req agent st ply) as Hshape.
    rewrite Hbody in Hshape.
    destruct Hshape as (pre' & res' & E & Hpre' & Hc & _).
    apply app_inj_tail in E as [_ [= <-]]. rewrite Hc.
    destruct (charged_nonneg L MOVE_TIMEOUT_MS req agent st ply Hw Hb).
    now apply Hfield.
  - intros st [Hw Hb]. cbn. now apply Hfield.
Qed.

(** X11: where three strikes forfeit, the result of a match never reports more
    than three strikes, and it reports three strikes of a side exactly when
    that side lost the match for its illegal moves. *)
Theorem result_strikes (L : Chess.lib) (MOVE_TIMEOUT_MS : Q)
    (req : MatchRequest) (agent : Agent) (result : MatchResult) (c : Color) :
  In (EndEvent result) (sent (start L MOVE_TIMEOUT_MS req agent)) ->
  mode req <> chaos ->
  (pc_get (illegalCounts result) c <= 3)%nat
  /\ (pc_get (illegalCounts result) c = 3%nat
      <-> reason result = illegal /\ winner result = wins (other c)).
Proof.
  intros Hin Hmode. revert c.
  assert (Hs : strikesForfeit req = true)
    by (unfold strikesForfeit; now destruct (mode req)).
  revert result Hin.
  apply (start_results L MOVE_TIMEOUT_MS req agent
           (fun st =>
              (white (st_illegalCounts st) < 3
               /\ black (st_illegalCounts st) < 3)%nat)
           (fun result =>
              forall c,
                (pc_get (illegalCounts result) c <= 3)%nat
                /\ (pc_get (illegalCounts result) c = 3%nat
                    <-> reason result = illegal
                        /\ winner result = wins (other c)))).
  - intros st. unfold initialState.
    destruct (Chess.load L _); [|discriminate]. intros [= <-]. cbn. lia.
  - intros st ply st' evs [Hw Hb] Hbody.
    apply body_Continue in Hbody as (_ & _ & _ & H).
    destruct (attemptOf L MOVE_TIMEOUT_MS req agent st ply);
      try contradiction.
    + destruct H as (-> & Hlt & _). specialize (Hlt Hs).
      destruct (activeAt L st); cbn in *; lia.
    + destruct H as (-> & Hlt & _). specialize (Hlt Hs).
      destruct (activeAt L st); cbn in *; lia.
    + destruct H as (-> & _).
      destruct (activeAt L st); cbn in *; lia.
  - intros st ply pre res [Hw Hb] Hbody Hpre c.
    destruct (body_Closed _ _ _ _ _ _ _ Hbody) as (pre' & res' & E & _ & H).
    apply app_inj_tail in E as [_ [= <-]]. cbv zeta in H.
    destruct (attemptOf L MOVE_TIMEOUT_MS req agent st ply).
    + destruct H as [-> _]. cbn.
      split; [destruct c; cbn; lia|].
      split; [destruct c; cbn; lia|intros [[=] _]].
    + subst res. cbn.
      split; [destruct c; cbn; lia|].
      split; [destruct c; cbn; lia|intros [[=] _]].
    + subst res. cbn.
      split; [destruct c; cbn; lia|].
      split; [destruct c; cbn; lia|intros [[=] _]].
    + destruct H as (Hwin & Hr & Hc & _ & _ & _ & Hge).
      rewrite Hwin, Hr, Hc.
      destruct (activeAt L st), c; cbn in *;
        (split; [lia|]); (split; [intros ?; (split; [reflexivity|]);
                                  first [reflexivity|lia]
                                 |first [intros _; lia|intros [_ [=]]]]).
    + destruct H as (Hwin & Hr & Hc & _ & _ & [[_ Hge]|Hchaos]).
      * rewrite Hwin, Hr, Hc.
        destruct (activeAt L st), c; cbn in *;
          (split; [lia|]); (split; [intros ?; (split; [reflexivity|]);
                                    first [reflexivity|lia]
                                   |first [intros _; lia|intros [_ [=]]]]).
      * destruct Hchaos as (_ & _ & Hm & _). contradiction.
    + destruct H as (Hend & Hc & _). rewrite Hc.
      split; [destruct (activeAt L st), c; cbn; lia|].
      split.
      * destruct (activeAt L st), c; cbn; lia.
      * intros [Hr _].
        destruct Hend as [[_ Hr']|[_ [Hr'|[Hr'|[Hr'|Hr']]]]]; congruence.
  - intros st [Hw Hb] c. cbn.
    split; [destruct c; cbn; lia|].
    split; [destruct c; cbn; lia|intros [[=] _]].
Qed.

(** ** The end of the stream *)

(** X30: in the strict and the timed variant, for a rules library that loads
    its starting position, whatever the models answer, the stream of a match
    is closed by the engine after exactly one end event, which is its last
    event. *)
Theorem stream_well_ended (L : Chess.lib) (MOVE_TIMEOUT_MS : Q)
    (req : MatchRequest) (agent : Agent) :
  mode req <> chaos ->
  is_Some (Chess.load L (Chess.fen L (Chess.new L))) ->
  wellEnded (start L MOVE_TIMEOUT_MS req agent)
  /\ exists events result,
       sent (start L MOVE_TIMEOUT_MS req agent)
       = (events ++ [EndEvent result])%list
       /\ Forall not_end events.
Proof.
  intros Hmode Hload.
  apply one_end_event_last; [exact Hload|].
  intros Hm. contradiction.
Qed.

(** ** The position string after a chaos move *)

(** The position string that [applyChaosMove] returns. *)
Lemma applyChaosMove_fen (L : Chess.lib) (fen : string) (uci : UciMove)
    (acting : Color) (fullmoveNumber : Z) (result : ChaosResult) :
  applyChaosMove L fen uci acting fullmoveNumber = Some result ->
  exists base board',
    Chess.load L fen = Some base
    /\ chaosBoard (Chess.board L base) uci acting = Some board'
    /\ Js.split " " (chaos_fen result)
       = [boardToFen board'; color_char (other acting); "-"; "-"; "0";
          Js.of_int (nextFullmove acting fullmoveNumber)].
Proof.
  unfold applyChaosMove, applyChaosMoveOn.
  destruct (Chess.load L fen) as [base|]; [|discriminate].
  destruct (chaosBoard _ uci acting) as [board'|] eqn:Hc; [|discriminate].
  intros [= <-]. exists base, board'. split; [reflexivity|].
  split; [exact Hc|]. cbn [chaos_fen].
  apply ChaosFacts.split_fen.
  - apply ChaosFacts.nospace_boardToFen.
  - now destruct acting.
  - apply ChaosFacts.nospace_of_int.
Qed.

(** X12: after a chaos move, the position string names the other side as the
    side to move, for the reader of lib/chess-utils.ts and for the one of
    the page alike. *)
Theorem activeColor_after_chaos (L : Chess.lib) (fen : string)
    (uci : UciMove) (acting : Color) (fullmoveNumber : Z)
    (result : ChaosResult) :
  applyChaosMove L fen uci acting fullmoveNumber = Some result ->
  activeColorFromFen (chaos_fen result) = color_char (other acting)
  /\ pageActiveColor (chaos_fen result) = other acting.
Proof.
  intros H.
  apply applyChaosMove_fen in H as (base & board' & _ & _ & Hsplit).
  unfold activeColorFromFen, pageActiveColor. rewrite Hsplit.
  now destruct acting.
Qed.

(** X13: for a text without a space, which has no second field, such as the
    "start" that the page holds before the first move, the reader of
    lib/chess-utils.ts answers white and the reader of the page answers
    black. *)
Theorem activeColor_without_field (fen : string) :
  nospace fen = true ->
  activeColorFromFen fen = "w" /\ pageActiveColor fen = Black.
Proof.
  intros H. unfold activeColorFromFen, pageActiveColor.
  rewrite (ChaosFacts.split_last fen H). now split.
Qed.

(** X14: a chaos move leaves every square other than its two squares as it was,
    and empties the square it starts from unless it ends there. *)
Theorem applyChaosMove_frame (L : Chess.lib) (fen : string)
    (base : Chess.t L) (uci : UciMove) (acting : Color)
    (fullmoveNumber : Z) :
  Chess.load L fen = Some base ->
  length (Chess.board L base) = 8%nat ->
  isSquare (from uci) = true ->
  isSquare (to uci) = true ->
  exists fromRank fromFile toRank toFile board' result,
    squareToIndex (from uci) = Some (fromRank, fromFile)
    /\ squareToIndex (to uci) = Some (toRank, toFile)
    /\ applyChaosMove L fen uci acting fullmoveNumber = Some result
    /\ Js.split " " (chaos_fen result) !! 0%nat = Some (boardToFen board')
    /\ length board' = 8%nat
    /\ ((fromRank, fromFile) <> (toRank, toFile) ->
        board_get board' fromRank fromFile = None)
    /\ (forall rank file,
          (rank, file) <> (fromRank, fromFile) ->
          (rank, file) <> (toRank, toFile) ->
          board_get board' rank file
          = board_get (Chess.board L base) rank file).
Proof.
  intros Hload Hlen Hfrom Hto.
  destruct (ChaosFacts.chaosBoard_spec _ uci acting Hlen Hfrom Hto)
    as (fr & ff & tr & tf & board' & Ef & Et & Hc & Hlen' & _ & Hsrc & Hrest).
  assert (Hres : applyChaosMove L fen uci acting fullmoveNumber
                 = Some (mkChaos
                           (boardToFen board' ++ " "
                              ++ color_char (other acting) ++ " - - 0 "
                              ++ Js.of_int
                                   (nextFullmove acting fullmoveNumber))
                           (from uci ++ to uci
                              ++ promotion_text (promotion uci)))).
  { unfold applyChaosMove, applyChaosMoveOn. now rewrite Hload, Hc. }
  destruct (applyChaosMove_fen _ _ _ _ _ _ Hres)
    as (base' & board'' & Hload' & Hc' & Hsplit).
  exists fr, ff, tr, tf, board'. eexists.
  split; [exact Ef|]. split; [exact Et|]. split; [exact Hres|].
  split; [|now repeat split].
  rewrite Hsplit. cbn. do 2 f_equal. congruence.
Qed.

(** ** Numbers in position strings *)

Module NumberFacts.

(** One step of [digits_prefix] on a decimal digit. *)
Ltac digit_step :=
  cbn [Js.digits_prefix];
  match goal with
  | |- (if ?b then _ else _) = _ => change b with true; cbv iota
  end;
  match goal with
  | |- context [Js.digit_val ?c] =>
      let v := eval vm_compute in (Js.digit_val c) in
      change (Js.digit_val c) with v
  end.

Lemma digits_acc d : forall a,
  Js.digits_prefix (NilEmpty.string_of_uint d) (Some (Z.pos a))
  = Some (Z.pos (Pos.of_uint_acc d a)).
Proof.
  induction d; intros a; cbn [NilEmpty.string_of_uint Pos.of_uint_acc];
    [reflexivity|..];
    rewrite <- IHd; digit_step; do 2 f_equal; lia.
Qed.

Lemma digits_zero d :
  Js.digits_prefix (NilEmpty.string_of_uint d) (Some 0%Z)
  = Some (Z.of_N (Pos.of_uint d)).
Proof.
  induction d; cbn [NilEmpty.string_of_uint Pos.of_uint];
    [reflexivity|..]; digit_step;
    first [exact IHd|apply digits_acc].
Qed.

Lemma digits_none d :
  d <> Decimal.Nil ->
  Js.digits_prefix (NilEmpty.string_of_uint d) None
  = Some (Z.of_N (Pos.of_uint d)).
Proof.
  destruct d; [congruence|..]; intros _;
    cbn [NilEmpty.string_of_uint Pos.of_uint]; digit_step;
    first [apply digits_zero|apply digits_acc].
Qed.

(** The decimal text of a positive number starts with a digit. *)
Lemma uint_head d :
  d <> Decimal.Nil ->
  exists c s,
    NilZero.string_of_uint d = String c s
    /\ NilEmpty.string_of_uint d = String c s
    /\ Js.is_digit c = true.
Proof.
  destruct d; [congruence|..]; intros _; eexists _, _;
    (split; [reflexivity|]); split; reflexivity.
Qed.

Lemma parseInt_unsigned c s :
  Js.is_digit c = true ->
  Js.parseInt (String c s) = Js.digits_prefix (String c s) None.
Proof.
  destruct c as [[] [] [] [] [] [] [] []]; try discriminate; reflexivity.
Qed.

Lemma parseInt_minus s :
  Js.parseInt (String "-" s) = option_map Z.opp (Js.digits_prefix s None).
Proof. reflexivity. Qed.

(** [parseInt] reads back the decimal text of an integer. *)
Lemma parseInt_of_int n : Js.parseInt (Js.of_int n) = Some n.
Proof.
  unfold Js.of_int. destruct n as [|p|p]; [reflexivity|..];
    cbn [Z.to_int NilZero.string_of_int];
    pose proof (Unsigned.to_uint_nonnil p) as Hnil;
    pose proof (Unsigned.of_to p) as Hof;
    pose proof (digits_none _ Hnil) as Hd;
    destruct (uint_head _ Hnil) as (c & s & E0 & E & Hc);
    rewrite E0; rewrite E in Hd; rewrite Hof in Hd.
  - now rewrite (parseInt_unsigned c s Hc), Hd.
  - now rewrite parseInt_minus, Hd.
Qed.

End NumberFacts.

(** X15: after a chaos move the loop reads its full-move number back from the
    position string that [applyChaosMove] returned: the number it passed
    in, plus one after a move of black; it keeps its own number when that
    number is zero. *)
Theorem fullmoveOf_after_chaos (L : Chess.lib) (fen : string)
    (uci : UciMove) (acting : Color) (fullmove : Z) (result : ChaosResult) :
  applyChaosMove L fen uci acting fullmove = Some result ->
  fullmoveOf (chaos_fen result) fullmove
  = if (nextFullmove acting fullmove =? 0)%Z then fullmove
    else nextFullmove acting fullmove.
Proof.
  intros H.
  apply applyChaosMove_fen in H as (base & board' & _ & _ & Hsplit).
  unfold fullmoveOf. rewrite Hsplit. cbn [lookup list_lookup].
  now rewrite NumberFacts.parseInt_of_int.
Qed.

(** ** The piece placement that [boardToFen] writes *)

Module BoardFacts.

Import ParserFacts.

Lemma rankToFen_row rank : forall empty row,
  rankToFen rank empty row = row ++ rankToFen rank empty EmptyString.
Proof.
  induction rank as [|[sq|] rank IH]; intros empty row; cbn [rankToFen].
  - destruct (empty =? 0)%nat; [now rewrite append_empty|reflexivity].
  - rewrite IH, (IH _ (_ ++ piece_letter sq)).
    destruct (empty =? 0)%nat; cbn [append];
      now rewrite ?FetchFacts.append_assoc.
  - apply IH.
Qed.

Lemma parseRank_app a b :
  Scripted.parseRank (a ++ b)
  = (Scripted.parseRank a ++ Scripted.parseRank b)%list.
Proof.
  induction a as [|c a IH]; [reflexivity|].
  cbn [append Scripted.parseRank]. now rewrite IH, app_assoc.
Qed.

Lemma parseRank_letter sq : Scripted.parseRank (piece_letter sq) = [Some sq].
Proof. destruct sq as [[] []]; reflexivity. Qed.

(** A run of one to nine empty squares is written as one digit. *)
Lemma parseRank_run empty :
  (1 <= empty <= 9)%nat ->
  Scripted.parseRank (Js.of_int (Z.of_nat empty)) = replicate empty None.
Proof.
  intros H.
  do 10 (destruct empty as [|empty]; [try lia; reflexivity|]). lia.
Qed.

Lemma parseRank_pending empty :
  (empty <= 9)%nat ->
  Scripted.parseRank
    (if (empty =? 0)%nat then EmptyString else Js.of_int (Z.of_nat empty))
  = replicate empty None.
Proof.
  intros H. destruct empty as [|empty]; [reflexivity|].
  cbn [Nat.eqb]. apply parseRank_run. lia.
Qed.

(** Reading back a rank. *)
Lemma parseRank_rankToFen rank : forall empty,
  (empty + length rank <= 9)%nat ->
  Scripted.parseRank (rankToFen rank empty EmptyString)
  = (replicate empty None ++ rank)%list.
Proof.
  induction rank as [|[sq|] rank IH]; intros empty H;
    cbn [rankToFen length] in *.
  - rewrite app_nil_r.
    rewrite <- (parseRank_pending empty) by lia.
    now destruct (empty =? 0)%nat.
  - rewrite rankToFen_row, parseRank_app, (IH 0%nat) by lia.
    cbn [replicate app].
    assert (E : (if (empty =? 0)%nat then EmptyString
                 else EmptyString ++ Js.of_int (Z.of_nat empty))
                = (if (empty =? 0)%nat then EmptyString
                   else Js.of_int (Z.of_nat empty)))
      by now destruct (empty =? 0)%nat.
    rewrite E, parseRank_app, parseRank_letter, parseRank_pending by lia.
    now rewrite <- app_assoc.
  - rewrite (IH (S empty)) by lia.
    change (replicate (S empty) None ++ rank)%list
      with ((None :: replicate empty None) ++ rank)%list.
    rewrite (replicate_cons_app empty (@None Piece)).
    now rewrite <- app_assoc.
Qed.

Lemma noslash_app a b :
  noslash a = true -> noslash b = true -> noslash (a ++ b) = true.
Proof.
  unfold noslash. induction a as [|c a IH]; cbn; [auto|].
  intros H Hb; apply andb_prop in H as [Hc Ha].
  rewrite Hc; cbn; auto.
Qed.

Lemma noslash_uint d : noslash (NilEmpty.string_of_uint d) = true.
Proof. unfold noslash. induction d; cbn; auto. Qed.

Lemma noslash_of_int n : noslash (Js.of_int n) = true.
Proof.
  unfold Js.of_int, NilZero.string_of_int, NilZero.string_of_uint.
  destruct (Z.to_int n) as [d|d].
  - destruct d; try reflexivity; apply (noslash_uint (_ _)).
  - destruct d; try reflexivity;
      apply (noslash_app "-"); try reflexivity; apply (noslash_uint (_ _)).
Qed.

Lemma noslash_piece_letter sq : noslash (piece_letter sq) = true.
Proof. destruct sq as [[] []]; reflexivity. Qed.

Lemma noslash_rankToFen rank : forall empty row,
  noslash row = true -> noslash (rankToFen rank empty row) = true.
Proof.
  induction rank as [|[sq|] rank IH]; intros empty row Hrow; cbn [rankToFen].
  - destruct (empty =? 0)%nat; [assumption|].
    apply noslash_app; [assumption|apply noslash_of_int].
  - apply IH. apply noslash_app; [|apply noslash_piece_letter].
    destruct (empty =? 0)%nat; [assumption|].
    apply noslash_app; [assumption|apply noslash_of_int].
  - now apply IH.
Qed.

(** Splitting what was joined. *)
Lemma split_join rows :
  rows <> [] ->
  Forall (fun row => noslash row = true) rows ->
  Js.split "/" (Js.join "/" rows) = rows.
Proof.
  intros Hne Hrows. induction Hrows as [|row rows Hrow Hrows IH];
    [congruence|].
  destruct rows as [|row' rows].
  - now apply WireFacts.split_tail.
  - change (Js.join "/" (row :: row' :: rows))
      with (row ++ String "/" (Js.join "/" (row' :: rows))).
    rewrite WireFacts.split_line by exact Hrow.
    now rewrite IH.
Qed.

(** Reading back a board. *)
Lemma parsePlacement_boardToFen board :
  renderable board -> Scripted.parsePlacement (boardToFen board) = board.
Proof.
  intros [Hne Hw]. unfold Scripted.parsePlacement, boardToFen.
  rewrite split_join.
  - rewrite map_map. rewrite <- (map_id board) at 2.
    apply map_ext_in. intros rank Hin.
    rewrite Forall_forall in Hw.
    apply list_elem_of_In, Hw in Hin.
    now rewrite parseRank_rankToFen by lia.
  - now destruct board.
  - apply Forall_map, Forall_forall. intros rank _.
    now apply noslash_rankToFen.
Qed.

End BoardFacts.

(** X16: [boardToFen] loses nothing: two boards whose ranks have at most nine
    squares and that are written as the same piece placement are the same
    board. *)
Theorem boardToFen_injective (board1 board2 : Board) :
  renderable board1 -> renderable board2 ->
  boardToFen board1 = boardToFen board2 -> board1 = board2.
Proof.
  intros H1 H2 E.
  rewrite <- (BoardFacts.parsePlacement_boardToFen board1 H1),
    <- (BoardFacts.parsePlacement_boardToFen board2 H2).
  now rewrite E.
Qed.

(** ** The position after a chaos move *)

Module SquareFacts.

Ltac pattern_chars H :=
  repeat match type of H with
         | (Ascii.eqb ?a ?c || _) = true =>
             destruct (Ascii.eqb_spec a c) as [<-|_];
             [|cbn [orb] in H]
         | false = true => discriminate H
         end.

(** The indices that [squareToIndex] computes are the place of the
    square. *)
Lemma squareToIndex_place square :
  squarePattern square = true ->
  squareToIndex square = Some (rowOf square, columnOf square).
Proof.
  destruct square as [|file [|rank [|]]]; try discriminate.
  cbn [squarePattern]. intros H. apply andb_prop in H as [Hf Hr].
  cbn [Js.char_in] in Hf, Hr.
  pattern_chars Hf; pattern_chars Hr; reflexivity.
Qed.

Lemma place_bounds square :
  squarePattern square = true ->
  (rowOf square < 8 /\ columnOf square < 8)%nat.
Proof.
  destruct square as [|file [|rank [|]]]; try discriminate.
  cbn [squarePattern]. intros H. apply andb_prop in H as [Hf Hr].
  cbn [Js.char_in] in Hf, Hr.
  pattern_chars Hf; pattern_chars Hr; vm_compute; lia.
Qed.

Lemma board_set_eightByEight board rank file x board' :
  eightByEight board -> (file < 8)%nat ->
  board_set board rank file x = Some board' -> eightByEight board'.
Proof.
  intros [Hlen Hrows] Hfile. unfold board_set.
  destruct (board !! rank) as [row|] eqn:E; [|discriminate].
  intros [= <-]. split; [now rewrite length_insert|].
  apply Forall_insert; [assumption|].
  assert (Hrow : length row = 8%nat).
  { rewrite Forall_forall in Hrows. apply Hrows.
    eapply list_elem_of_lookup_2; eassumption. }
  unfold array_set. case_decide; [|lia]. now rewrite length_insert.
Qed.

Lemma chaosBoard_eightByEight board uci color board' :
  eightByEight board ->
  squarePattern (from uci) = true -> squarePattern (to uci) = true ->
  chaosBoard board uci color = Some board' -> eightByEight board'.
Proof.
  intros Hb Hf Ht. unfold chaosBoard.
  rewrite (squareToIndex_place _ Hf), (squareToIndex_place _ Ht).
  destruct (place_bounds _ Hf) as [_ Hff].
  destruct (place_bounds _ Ht) as [_ Htf].
  destruct (board !! rowOf (from uci)); [|discriminate].
  destruct (board_set board _ _ None) as [board1|] eqn:E1; [|discriminate].
  intros E2.
  eapply board_set_eightByEight; [|exact Htf|exact E2].
  eapply board_set_eightByEight; [exact Hb|exact Hff|exact E1].
Qed.

Lemma eightByEight_renderable board : eightByEight board -> renderable board.
Proof.
  intros [Hlen Hrows]. split.
  - intros ->. discriminate Hlen.
  - eapply Forall_impl; [exact Hrows|]. cbn. intros rank ->. lia.
Qed.

End SquareFacts.

(** C9: on a position that the rules library loads with a board of eight
    ranks of eight squares, and for two squares, [applyChaosMove] returns a
    position of six fields. Its piece placement, read back, holds on the
    destination square a piece of the acting color, whatever the color of
    the piece taken from the source square; the type of that piece is the
    promotion piece when one is given, else the type of the piece on the
    source square, else (empty source square) a pawn. The other fields are
    the opposite color as the side to move, "-" for the castling rights, "-"
    for the en-passant square, 0 for the halfmove clock and a full-move
    counter that is one more than the given one when the acting color is
    black and equal to it when it is white. *)
Theorem applyChaosMove_spec (L : Chess.lib) (fen : string) (base : Chess.t L)
    (uci : UciMove) (acting : Color) (fullmoveNumber : Z) :
  Chess.load L fen = Some base ->
  eightByEight (Chess.board L base) ->
  squarePattern (from uci) = true ->
  squarePattern (to uci) = true ->
  exists result placement,
    applyChaosMove L fen uci acting fullmoveNumber = Some result
    /\ Js.split " " (chaos_fen result)
       = [placement; color_char (other acting); "-"; "-"; "0";
          Js.of_int match acting with
                    | Black => fullmoveNumber + 1
                    | White => fullmoveNumber
                    end%Z]
    /\ board_get (readPlacement placement) (rowOf (to uci)) (columnOf (to uci))
       = Some (mkPiece
                 match promotion uci with
                 | Some t => t
                 | None =>
                     match board_get (Chess.board L base)
                             (rowOf (from uci)) (columnOf (from uci)) with
                     | Some existing => type existing
                     | None => Pawn
                     end
                 end
                 acting).
Proof.
  intros Hload Hboard Hfrom Hto.
  pose proof Hfrom as Hfrom'. pose proof Hto as Hto'.
  rewrite <- ParserFacts.isSquare_pattern in Hfrom', Hto'.
  destruct (ChaosFacts.chaosBoard_spec _ uci acting (proj1 Hboard)
              Hfrom' Hto')
    as (fr & ff & tr & tf & board' & Ef & Et & Hc & _ & Hdest & _).
  rewrite (SquareFacts.squareToIndex_place _ Hfrom) in Ef.
  rewrite (SquareFacts.squareToIndex_place _ Hto) in Et.
  injection Ef as <- <-. injection Et as <- <-.
  eexists. exists (boardToFen board').
  split; [|split].
  - unfold applyChaosMove, applyChaosMoveOn. rewrite Hload, Hc. reflexivity.
  - cbn [chaos_fen]. rewrite ChaosFacts.split_fen.
    + unfold nextFullmove. now destruct acting.
    + apply ChaosFacts.nospace_boardToFen.
    + now destruct acting.
    + apply ChaosFacts.nospace_of_int.
  - unfold readPlacement.
    rewrite BoardFacts.parsePlacement_boardToFen.
    + exact Hdest.
    + apply SquareFacts.eightByEight_renderable.
      eapply SquareFacts.chaosBoard_eightByEight; eassumption.
Qed.

(** ** The pairings of a tournament *)

Module PairingFacts.

Lemma in_indexPairs n i j : In (i, j) (indexPairs n) <-> (i < j < n)%nat.
Proof.
  unfold indexPairs. rewrite in_flat_map. split.
  - intros (i' & Hi & Hin). apply in_map_iff in Hin as (j' & [= -> ->] & Hj).
    apply in_seq in Hi, Hj. lia.
  - intros H. exists i. split; [apply in_seq; lia|].
    apply in_map_iff. exists j. split; [reflexivity|]. apply in_seq. lia.
Qed.

Lemma NoDup_flat_map {A B} (g : A -> list B) (l : list A) :
  NoDup l ->
  (forall x, NoDup (g x)) ->
  (forall x y z, x <> y -> In z (g x) -> In z (g y) -> False) ->
  NoDup (flat_map g l).
Proof.
  intros Hl Hg Hdisj. induction Hl as [|x l Hx Hl IH]; cbn [flat_map].
  - constructor.
  - apply NoDup_app. split; [apply Hg|]. split; [|exact IH].
    intros z Hz Hz'. apply list_elem_of_In in Hz, Hz'.
    apply in_flat_map in Hz' as (y & Hy & Hzy).
    apply (Hdisj x y z); try assumption.
    intros ->. apply Hx. now apply list_elem_of_In.
Qed.

Lemma NoDup_indexPairs n : NoDup (indexPairs n).
Proof.
  unfold indexPairs. apply NoDup_flat_map.
  - apply NoDup_ListNoDup, seq_NoDup.
  - intros i. apply NoDup_fmap_2; [intros ? ? [=]; assumption|].
    apply NoDup_ListNoDup, seq_NoDup.
  - intros i i' [a b] Hne H1 H2.
    apply in_map_iff in H1 as (? & [= <- <-] & _).
    apply in_map_iff in H2 as (? & [= <- _] & _). congruence.
Qed.

Lemma length_indexPairs_from k : forall lo,
  (2 * length (flat_map
                 (fun i => map (pair i) (seq (i + 1) (lo + k - (i + 1))))
                 (seq lo k))
   = k * (k - 1))%nat.
Proof.
  induction k as [|k IH]; intros lo; [reflexivity|].
  cbn [seq flat_map]. rewrite length_app, length_map, length_seq.
  specialize (IH (S lo)).
  replace (S lo + k)%nat with (lo + S k)%nat in IH by lia.
  nia.
Qed.

Lemma length_indexPairs n : (2 * length (indexPairs n) = n * (n - 1))%nat.
Proof. apply (length_indexPairs_from n 0). Qed.

Section Distinct.

Variable models : list string.
Hypothesis distinct : NoDup models.

Lemma modelAt_lookup i :
  (i < length models)%nat -> models !! i = Some (modelAt models i).
Proof.
  intros H. unfold modelAt.
  destruct (lookup_lt_is_Some_2 models i H) as [m ->]. reflexivity.
Qed.

Lemma modelAt_inj i j :
  (i < length models)%nat -> (j < length models)%nat ->
  modelAt models i = modelAt models j -> i = j.
Proof.
  intros Hi Hj E. apply modelAt_lookup in Hi, Hj. rewrite E in Hi.
  exact (NoDup_lookup models i j _ distinct Hi Hj).
Qed.

(** With distinct names, the game of two indexes is between the two models,
    the first one playing white when the sum of the indexes is even. *)
Lemma pairingOf_distinct i j :
  (i < j < length models)%nat ->
  pairingOf models i j
  = if ((i + j) mod 2 =? 0)%nat
    then mkPairing (modelAt models i) (modelAt models j)
    else mkPairing (modelAt models j) (modelAt models i).
Proof.
  intros H. unfold pairingOf. cbv zeta.
  destruct ((i + j) mod 2 =? 0)%nat.
  - now rewrite String.eqb_refl.
  - destruct (String.eqb_spec (modelAt models j) (modelAt models i)) as [E|E];
      [|reflexivity].
    apply modelAt_inj in E; lia.
Qed.

Lemma pairingOf_sides i j :
  (i < j < length models)%nat ->
  (pair_white (pairingOf models i j) = modelAt models i
   /\ pair_black (pairingOf models i j) = modelAt models j)
  \/ (pair_white (pairingOf models i j) = modelAt models j
      /\ pair_black (pairingOf models i j) = modelAt models i).
Proof.
  intros H. rewrite (pairingOf_distinct i j H).
  destruct ((i + j) mod 2 =? 0)%nat; cbn; auto.
Qed.

(** Two index pairs whose games are between the same two models are the
    same pair. *)
Lemma same_players i j i' j' :
  (i < j < length models)%nat -> (i' < j' < length models)%nat ->
  (pair_white (pairingOf models i j) = pair_white (pairingOf models i' j')
   /\ pair_black (pairingOf models i j) = pair_black (pairingOf models i' j'))
  \/ (pair_white (pairingOf models i j) = pair_black (pairingOf models i' j')
      /\ pair_black (pairingOf models i j)
         = pair_white (pairingOf models i' j')) ->
  i = i' /\ j = j'.
Proof.
  intros H H' E.
  destruct (pairingOf_sides i j H) as [[W B]|[W B]];
    destruct (pairingOf_sides i' j' H') as [[W' B']|[W' B']];
    rewrite W, B, W', B' in E;
    destruct E as [[E1 E2]|[E1 E2]];
    apply modelAt_inj in E1; try lia;
    apply modelAt_inj in E2; lia.
Qed.

End Distinct.

Lemma in_pairings models p :
  In p (pairings models)
  <-> exists i j, (i < j < length models)%nat /\ p = pairingOf models i j.
Proof.
  unfold pairings. rewrite in_map_iff. split.
  - intros ([i j] & <- & Hin). apply in_indexPairs in Hin. eauto.
  - intros (i & j & H & ->). exists (i, j). split; [reflexivity|].
    now apply in_indexPairs.
Qed.

(** The parts of a split text do not hold the separator. *)
Lemma split_elements sep s :
  Forall
    (fun part => all_chars (fun c => negb (Ascii.eqb c sep)) part = true)
    (Js.split sep s).
Proof.
  induction s as [|c s IH]; [repeat constructor|].
  destruct (Ascii.eqb_spec c sep) as [->|E].
  - rewrite WireFacts.split_sep. now constructor.
  - apply Ascii.eqb_neq in E. rewrite (WireFacts.split_other _ _ _ E).
    destruct (Js.split sep s) as [|x r]; [constructor|].
    inversion IH as [|? ? Hx Hr]; subst. constructor; [|assumption].
    cbn [all_chars]. now rewrite E, Hx.
Qed.

(** The last part of a text that ends with the separator and a text
    without it. *)
Lemma split_suffix sep a d :
  all_chars (fun c => negb (Ascii.eqb c sep)) d = true ->
  last (Js.split sep (a ++ String sep d)) = Some d.
Proof.
  intros Hd. rewrite WireFacts.split_app.
  pose proof (split_elements sep a) as Hparts.
  pose proof (WireFacts.split_nonempty sep a) as Hne.
  destruct (Js.split sep a) as [|x r] using rev_ind; [congruence|].
  clear IHr. apply Forall_app in Hparts as [_ Hx].
  inversion Hx as [|? ? Hx' _]; subst.
  rewrite last_snoc. cbn [default from_option id].
  rewrite WireFacts.split_line by exact Hx'.
  rewrite (WireFacts.split_tail _ _ Hd).
  rewrite last_app. reflexivity.
Qed.

Lemma no_underscore_of_int n :
  (0 <= n)%Z ->
  all_chars (fun c => negb (Ascii.eqb c "_")) (Js.of_int n) = true.
Proof.
  intros Hn.
  assert (U : forall d,
            all_chars (fun c => negb (Ascii.eqb c "_"))
              (NilEmpty.string_of_uint d) = true)
    by (induction d; cbn; auto).
  unfold Js.of_int, NilZero.string_of_int, NilZero.string_of_uint.
  destruct n as [|p|p]; [reflexivity| |lia].
  cbn [Z.to_int]. destruct (Pos.to_uint p); try reflexivity; apply (U (_ _)).
Qed.

(** The [id] of a card determines its index. *)
Lemma cardId_index k p k' p' : cardId k p = cardId k' p' -> k = k'.
Proof.
  unfold cardId. intros E.
  assert (H : forall k p,
            last (Js.split "_"
                    (pair_white p ++ "_vs_" ++ pair_black p ++ "_"
                       ++ Js.of_int (Z.of_nat k)))
            = Some (Js.of_int (Z.of_nat k))).
  { intros k0 p0.
    replace (pair_white p0 ++ "_vs_" ++ pair_black p0 ++ "_"
               ++ Js.of_int (Z.of_nat k0))
      with ((pair_white p0 ++ "_vs_" ++ pair_black p0)
              ++ String "_" (Js.of_int (Z.of_nat k0))).
    - apply split_suffix, no_underscore_of_int. lia.
    - rewrite !FetchFacts.append_assoc. reflexivity. }
  pose proof (H k p) as H1. rewrite E, H in H1.
  injection H1 as H1.
  apply (f_equal Js.parseInt) in H1.
  rewrite !NumberFacts.parseInt_of_int in H1. injection H1 as H1. lia.
Qed.

End PairingFacts.

(** X17: the round robin has one game for every two entries of the list of
    models, [n * (n - 1) / 2] games in all; [POST] rejects a list of fewer
    than two or more than eight models and otherwise plays between one and
    28 games. *)
Theorem pairings_count (models : list string) :
  (2 * length (pairings models) = length models * (length models - 1))%nat
  /\ match tournamentGames models with
     | Some games =>
         games = pairings models /\ (1 <= length games <= 28)%nat
     | None => (length models < 2 \/ 8 < length models)%nat
     end.
Proof.
  assert (H : (2 * length (pairings models)
               = length models * (length models - 1))%nat).
  { unfold pairings. rewrite length_map.
    apply PairingFacts.length_indexPairs. }
  split; [exact H|].
  unfold tournamentGames.
  destruct (Nat.ltb_spec (length models) 2); [now left|].
  destruct (Nat.ltb_spec 8 (length models)); [now right|].
  split; [reflexivity|]. nia.
Qed.

(** X18: with distinct model names the pairings are a round robin: every game
    is between two different models of the list, no game is played twice,
    and any two models of the list meet in exactly one game, with one
    assignment of the colors. *)
Theorem pairings_round_robin (models : list string) :
  NoDup models ->
  (forall p,
     In p (pairings models) ->
     pair_white p <> pair_black p
     /\ In (pair_white p) models /\ In (pair_black p) models)
  /\ NoDup (pairings models)
  /\ (forall a b,
        In a models -> In b models -> a <> b ->
        (In (mkPairing a b) (pairings models)
         \/ In (mkPairing b a) (pairings models))
        /\ ~ (In (mkPairing a b) (pairings models)
              /\ In (mkPairing b a) (pairings models))).
Proof.
  intros Hd.
  assert (Hat : forall i,
            (i < length models)%nat -> In (modelAt models i) models).
  { intros i Hi. apply list_elem_of_In, list_elem_of_lookup. exists i.
    now apply PairingFacts.modelAt_lookup. }
  split; [|split].
  - intros p Hp. apply PairingFacts.in_pairings in Hp as (i & j & H & ->).
    destruct (PairingFacts.pairingOf_sides models Hd i j H)
      as [[W B]|[W B]]; rewrite W, B;
      (split; [intros E; apply PairingFacts.modelAt_inj in E;
               (assumption || lia)
              |split; apply Hat; lia]).
  - unfold pairings.
    apply NoDup_fmap_2_strong; [|apply PairingFacts.NoDup_indexPairs].
    intros [i j] [i' j'] Hin Hin' E. cbn [fst snd] in E.
    apply list_elem_of_In, PairingFacts.in_indexPairs in Hin, Hin'.
    destruct (PairingFacts.same_players models Hd i j i' j' Hin Hin')
      as [-> ->]; [left; now rewrite E|reflexivity].
  - intros a b Ha Hb Hab.
    apply list_elem_of_In, list_elem_of_lookup in Ha as [i Hi], Hb as [j Hj].
    assert (Hi' : (i < length models)%nat) by (eapply lookup_lt_Some; eauto).
    assert (Hj' : (j < length models)%nat) by (eapply lookup_lt_Some; eauto).
    assert (Ea : modelAt models i = a) by (unfold modelAt; now rewrite Hi).
    assert (Eb : modelAt models j = b) by (unfold modelAt; now rewrite Hj).
    assert (Hij : i <> j) by congruence.
    split.
    + destruct (Nat.lt_ge_cases i j) as [Hlt|Hge].
      * pose proof (proj2 (PairingFacts.in_pairings models _)
                      (ex_intro _ i
                         (ex_intro _ j (conj (conj Hlt Hj') eq_refl))))
          as Hin.
        rewrite PairingFacts.pairingOf_distinct in Hin by (assumption || lia).
        rewrite Ea, Eb in Hin.
        destruct ((i + j) mod 2 =? 0)%nat; auto.
      * assert (Hlt : (j < i)%nat) by lia.
        pose proof (proj2 (PairingFacts.in_pairings models _)
                      (ex_intro _ j
                         (ex_intro _ i (conj (conj Hlt Hi') eq_refl))))
          as Hin.
        rewrite PairingFacts.pairingOf_distinct in Hin by (assumption || lia).
        rewrite Ea, Eb in Hin.
        destruct ((j + i) mod 2 =? 0)%nat; auto.
    + intros [H1 H2].
      apply PairingFacts.in_pairings in H1 as (i1 & j1 & Hlt1 & E1).
      apply PairingFacts.in_pairings in H2 as (i2 & j2 & Hlt2 & E2).
      destruct (PairingFacts.same_players models Hd i1 j1 i2 j2 Hlt1 Hlt2)
        as [-> ->].
      * right. rewrite <- E1, <- E2. now split.
      * rewrite <- E1 in E2. congruence.
Qed.

(** X19: the list of models is not checked for repeated names: a name that
    occurs twice plays against itself. *)
Theorem pairings_repeated_name (models : list string) (i j : nat)
    (m : string) :
  (i < j)%nat ->
  models !! i = Some m -> models !! j = Some m ->
  In (mkPairing m m) (pairings models).
Proof.
  intros Hlt Hi Hj. apply PairingFacts.in_pairings. exists i, j.
  split; [split; [assumption|eapply lookup_lt_Some; eauto]|].
  unfold pairingOf, modelAt. rewrite Hi, Hj.
  cbn [default from_option id].
  destruct ((i + j) mod 2 =? 0)%nat; now rewrite String.eqb_refl.
Qed.

(** X20: the cards of [buildPairings] are the pairings in their order, and no
    two cards have the same [id], whatever the names of the models. *)
Theorem buildPairings_ids (models : list string) :
  map card_pairing (buildPairings models) = pairings models
  /\ NoDup (map card_id (buildPairings models)).
Proof.
  unfold buildPairings. split.
  - generalize (pairings models) as ps. intros ps.
    change (map card_pairing ?l) with (card_pairing <$> l).
    apply list_eq. intros k. rewrite list_lookup_fmap, list_lookup_imap.
    now destruct (ps !! k).
  - apply NoDup_alt. intros k k' id Hk Hk'.
    change (map card_id ?l) with (card_id <$> l) in Hk, Hk'.
    rewrite list_lookup_fmap, list_lookup_imap in Hk, Hk'.
    destruct (pairings models !! k) as [p|]; [|discriminate].
    destruct (pairings models !! k') as [p'|]; [|discriminate].
    cbn in Hk, Hk'. injection Hk as Hk. injection Hk' as Hk'.
    apply (PairingFacts.cardId_index k p k' p'). congruence.
Qed.

(** ** The tournament's [playMatch] and the match route *)

Section Agreement.

Variable L : Chess.lib.
Variable MOVE_TIMEOUT_MS : Q.
Variable req : MatchRequest.
Variable agent : Agent.

Hypothesis calls_return : neverThrows agent.

(** Reads the fields of the locals. *)
Ltac locals :=
  cbn [st_fen st_chess st_fullmove st_illegalCounts st_moves st_clocks
    st_lastIllegal st_lastIllegalMoves
    Tournament.st_fen Tournament.st_chess Tournament.st_fullmove
    Tournament.st_illegalCounts Tournament.st_moves Tournament.st_clocks
    Tournament.st_lastIllegal].

(** Closes a goal about the step of the match route that goes with a step
    of [playMatch]. *)
Ltac same_step :=
  first
    [ exact I
    | eexists _, _; split; [reflexivity|]; repeat split; reflexivity
    | eexists [_], _; split; [reflexivity|]; reflexivity
    | eexists [_; _], _; split; [reflexivity|]; reflexivity ].

(** One iteration of [playMatch] and the iteration of the match route on
    the same locals. *)
Lemma plyBody_agrees st tst ply :
  sameLocals st tst ->
  match Tournament.plyBody L MOVE_TIMEOUT_MS req agent tst ply with
  | Tournament.Continue tst' =>
      exists st' evs,
        plyBody L MOVE_TIMEOUT_MS req agent st ply = Continue st' evs
        /\ sameLocals st' tst'
  | Tournament.Return r =>
      exists pre r',
        plyBody L MOVE_TIMEOUT_MS req agent st ply
        = Closed (pre ++ [EndEvent r'])%list
        /\ r = withoutSummary r'
  | Tournament.Throw => True
  end.
Proof.
  destruct st as [fen chess fullmove counts moves lastIllegal summaries clocks].
  destruct tst as [tfen tchess tfullmove tcounts tmoves tlast tclocks].
  unfold sameLocals. cbn [st_fen st_chess st_fullmove st_illegalCounts
    st_moves st_clocks Tournament.st_fen Tournament.st_chess
    Tournament.st_fullmove Tournament.st_illegalCounts Tournament.st_moves
    Tournament.st_clocks].
  intros (<- & <- & <- & <- & <- & <-).
  unfold Tournament.plyBody, plyBody, flagged. cbv zeta.
  cbn [st_fen st_chess st_fullmove st_illegalCounts st_moves st_clocks
    st_lastIllegal st_lastIllegalMoves
    Tournament.st_fen Tournament.st_chess Tournament.st_fullmove
    Tournament.st_illegalCounts Tournament.st_moves Tournament.st_clocks
    Tournament.st_lastIllegal].
  destruct (calls_return ply (Chess.turn L chess)
              (perMoveTimeout MOVE_TIMEOUT_MS req
                 (pc_get clocks (Chess.turn L chess)))) as [rawMove ->].
  destruct (bulletMode req) eqn:Eb; cbn [andb].
  - destruct (Qle_bool _ 0) eqn:Eq.
    + eexists [_], _. split; [reflexivity|]. reflexivity.
    + unfold returnedBranch. cbv zeta. locals.
      destruct (String.eqb _ "resign").
      * eexists [_], _. split; [reflexivity|].
        unfold withoutSummary, buildResult, Tournament.buildResult,
          clocksField. cbn. now rewrite Eb.
      * destruct (Chess.move L chess _) as [[m chess']|].
        -- unfold Tournament.legalBranch, legalBranch,
             Tournament.resultFromDraw, resultFromDraw. cbv zeta.
           locals.
           destruct (Chess.isCheckmate L chess'); [same_step|].
           destruct (Chess.isStalemate L chess'); [same_step|].
           destruct (Chess.isThreefoldRepetition L chess'); [same_step|].
           destruct (Chess.isInsufficientMaterial L chess'); [same_step|].
           destruct (Chess.isDraw L chess'); same_step.
        -- unfold Tournament.illegalBranch, illegalBranch. cbv zeta.
           locals.
           destruct (if bool_decide (mode req = chaos) then _ else None)
             as [parsedChaos|].
           ++ destruct (applyChaosMove L _ _ _ _) as [chaosMove|];
                [|exact I].
              destruct (Chess.load L _) as [chess'|]; [|exact I].
              destruct (strikesForfeit req && _); same_step.
           ++ destruct (strikesForfeit req && _); same_step.
  - unfold returnedBranch. cbv zeta. locals.
    destruct (String.eqb _ "resign").
    + eexists [_], _. split; [reflexivity|].
      unfold withoutSummary, buildResult, Tournament.buildResult,
        clocksField. cbn. now rewrite Eb.
    + destruct (Chess.move L chess _) as [[m chess']|].
      * unfold Tournament.legalBranch, legalBranch,
          Tournament.resultFromDraw, resultFromDraw. cbv zeta.
        locals.
        destruct (Chess.isCheckmate L chess'); [same_step|].
           destruct (Chess.isStalemate L chess'); [same_step|].
           destruct (Chess.isThreefoldRepetition L chess'); [same_step|].
           destruct (Chess.isInsufficientMaterial L chess'); [same_step|].
           destruct (Chess.isDraw L chess'); same_step.
      * unfold Tournament.illegalBranch, illegalBranch. cbv zeta.
        locals.
        destruct (if bool_decide (mode req = chaos) then _ else None)
             as [parsedChaos|].
           ++ destruct (applyChaosMove L _ _ _ _) as [chaosMove|];
                [|exact I].
              destruct (Chess.load L _) as [chess'|]; [|exact I].
              destruct (strikesForfeit req && _); same_step.
           ++ destruct (strikesForfeit req && _); same_step.
Qed.

(** The loop of [playMatch] and the loop of the match route, which runs at
    least as long. *)
Lemma plyLoop_agrees n : forall m ply st tst r,
  sameLocals st tst ->
  (n <= m)%nat ->
  Tournament.plyLoop L MOVE_TIMEOUT_MS req agent n ply tst = Some r ->
  reason r <> max_move ->
  exists r',
    In (EndEvent r') (sent (plyLoop L MOVE_TIMEOUT_MS req agent m ply st))
    /\ r = withoutSummary r'.
Proof.
  induction n as [|n IH]; intros m ply st tst r Hsame Hle Hloop Hreason;
    cbn [Tournament.plyLoop] in Hloop.
  - injection Hloop as <-. now destruct Hreason.
  - destruct m as [|m]; [lia|]. cbn [plyLoop].
    pose proof (plyBody_agrees st tst ply Hsame) as Hbody.
    destruct (Tournament.plyBody L MOVE_TIMEOUT_MS req agent tst ply)
      as [tst'|r0|]; [| |discriminate Hloop].
    + destruct Hbody as (st' & evs & -> & Hsame').
      destruct (IH m (S ply) st' tst' r Hsame' ltac:(lia) Hloop Hreason)
        as (r' & Hin & Hr).
      exists r'. split; [|exact Hr].
      cbn [emit sent]. apply in_or_app. now right.
    + destruct Hbody as (pre & r' & -> & Hr). injection Hloop as <-.
      exists r'. split; [|exact Hr].
      cbn [sent]. apply in_or_app. right. now left.
Qed.

End Agreement.

(** X21: when no model call fails and [playMatch] of the tournament route
    returns a result before its limit of 300 iterations, the match route,
    given the same answers, ends its stream with the same result: the same
    winner, reason, history, notation, strikes, clocks and final position.
    The tournament's result only lacks the summary of the illegal moves. *)
Theorem playMatch_agrees (L : Chess.lib) (MOVE_TIMEOUT_MS : Q)
    (req : MatchRequest) (agent : Agent) (result : MatchResult) :
  neverThrows agent ->
  Tournament.playMatch L MOVE_TIMEOUT_MS req agent = Some result ->
  reason result <> max_move ->
  exists result',
    In (EndEvent result') (sent (start L MOVE_TIMEOUT_MS req agent))
    /\ result = withoutSummary result'.
Proof.
  intros Hagent Hplay Hreason.
  unfold Tournament.playMatch in Hplay. unfold start, initialState.
  destruct (Chess.load L (Chess.fen L (Chess.new L))) as [chess|];
    [|discriminate Hplay].
  assert (Hsame : sameLocals
                    (mkState (Chess.fen L (Chess.new L)) chess 1
                       (mkPerColor 0 0)%nat [] (mkPerColor None None)
                       (mkPerColor None None)
                       (mkPerColor (initialClockMs req) (initialClockMs req)))
                    (Tournament.mkState (Chess.fen L (Chess.new L)) chess 1
                       (mkPerColor 0 0)%nat [] (mkPerColor None None)
                       (mkPerColor (initialClockMs req)
                          (initialClockMs req))))
    by (unfold sameLocals; cbn; auto 10).
  assert (Hle : (Tournament.MAX_PLY <= MAX_PLY)%nat)
    by (unfold Tournament.MAX_PLY, MAX_PLY; lia).
  destruct (plyLoop_agrees L MOVE_TIMEOUT_MS req agent Hagent
              Tournament.MAX_PLY MAX_PLY 0%nat _ _ result Hsame Hle Hplay
              Hreason)
    as (r' & Hin & Hr).
  exists r'. split; [|exact Hr]. cbn [emit sent app]. now right.
Qed.


Section Returns.

Variable L : Chess.lib.
Variable MOVE_TIMEOUT_MS : Q.
Variable req : MatchRequest.
Variable agent : Agent.

(** Only the chaos block of the loop body throws. *)
Lemma plyBody_throws st ply :
  Tournament.plyBody L MOVE_TIMEOUT_MS req agent st ply = Tournament.Throw ->
  mode req = chaos.
Proof.
  unfold Tournament.plyBody, Tournament.legalBranch,
    Tournament.illegalBranch. cbv zeta.
  destruct (outcome _); [|discriminate].
  destruct (bulletMode req && _); [discriminate|].
  destruct (String.eqb _ "resign"); [discriminate|].
  destruct (Chess.move L _ _) as [[m chess']|].
  - destruct (Chess.isCheckmate L chess'); [discriminate|].
    destruct (Chess.isStalemate L chess'); [discriminate|].
    destruct (Chess.isThreefoldRepetition L chess'); [discriminate|].
    destruct (Chess.isInsufficientMaterial L chess'); [discriminate|].
    destruct (Chess.isDraw L chess'); discriminate.
  - destruct (bool_decide_reflect (mode req = chaos)) as [E|E];
      [intros _; exact E|].
    destruct (strikesForfeit req && _); discriminate.
Qed.

Lemma plyLoop_returns n : forall ply st,
  mode req <> chaos ->
  is_Some (Tournament.plyLoop L MOVE_TIMEOUT_MS req agent n ply st).
Proof.
  induction n as [|n IH]; intros ply st Hm; cbn [Tournament.plyLoop];
    [eexists; reflexivity|].
  destruct (Tournament.plyBody L MOVE_TIMEOUT_MS req agent st ply)
    as [st'|r|] eqn:E.
  - now apply IH.
  - eexists; reflexivity.
  - now apply plyBody_throws in E.
Qed.

End Returns.

(** X22: in the strict and the timed variant [playMatch] returns a result
    whenever the rules library loads the initial position: nothing in the
    loop throws, whatever the models answer, failed calls included. *)
Theorem playMatch_returns (L : Chess.lib) (MOVE_TIMEOUT_MS : Q)
    (req : MatchRequest) (agent : Agent) :
  mode req <> chaos ->
  is_Some (Chess.load L (Chess.fen L (Chess.new L))) ->
  is_Some (Tournament.playMatch L MOVE_TIMEOUT_MS req agent).
Proof.
  intros Hm [chess Hload]. unfold Tournament.playMatch. rewrite Hload.
  now apply plyLoop_returns.
Qed.

(** Splits a hypothesis about the tournament's [fetchMove] along the
    outcomes of the calls. *)
Ltac tournament_fetch_cases call H :=
  unfold Tournament.fetchMove in H;
  cbn [Tournament.fetchMoveFrom Nat.add] in H;
  repeat match type of H with
         | context [call ?n] =>
             let E := fresh "Ecall" in
             destruct (call n) as [?chunks|?name ?message] eqn:E
         | context [overloaded ?a ?b] =>
             let E := fresh "Eover" in
             destruct (overloaded a b) eqn:E
         end;
  cbn [andb Nat.ltb Nat.leb afterBackoff calls slept fetched Nat.add] in H;
  injection H as <-;
  cbn [calls slept fetched Nat.add] in *.

(** X23: [fetchMove] of the tournament route makes at most three calls, going on
    only after an error of the overload class, and ends with the last call
    made: it returns the trimmed text of its stream, empty or not, or throws
    its error. An empty answer is not asked for again. *)
Theorem tournament_fetchMove (call : ModelCall) :
  exists r,
    Tournament.fetchMove call = Some r
    /\ (1 <= calls r <= 3)%nat
    /\ slept r = take (calls r - 1) [1500; 2500]%Z
    /\ (forall k, (1 <= k < calls r)%nat -> overloadFailure (call k))
    /\ match call (calls r) with
       | Streamed chunks =>
           fetched r = Returned (Js.trim (String.concat EmptyString chunks))
       | Failed name message =>
           fetched r = Threw message
           /\ (calls r = 3%nat \/ overloaded name message = false)
       end.
Proof.
  destruct (Tournament.fetchMove call) as [r|] eqn:H.
  - exists r. split; [reflexivity|].
    unfold overloadFailure.
    tournament_fetch_cases call H;
      (split; [lia|]); (split; [reflexivity|]);
      (split;
       [intros k Hk; try lia;
        (assert (k = 1 \/ k = 2)%nat as [-> | ->] by lia
         || assert (k = 1)%nat as -> by lia); try lia; eauto
       |]);
      rewrite ?Ecall, ?Ecall0, ?Ecall1; auto.
  - exfalso. unfold Tournament.fetchMove in H.
    cbn [Tournament.fetchMoveFrom Nat.add] in H.
    repeat match type of H with
           | context [call ?n] => destruct (call n)
           | context [overloaded ?a ?b] => destruct (overloaded a b)
           end; discriminate H.
Qed.
(** ** The standings of a tournament *)

Module StandingFacts.

Lemma onKey_other key assign k (x : option TournamentStanding) :
  k <> key -> onKey key assign k <$> x = x.
Proof.
  intros H. unfold onKey.
  destruct (String.eqb_spec k key); [contradiction|]. now destruct x.
Qed.

(** An assignment to [table[key]], seen from the rows of the table. *)
Lemma tableUpdate_rows a ratings key s s' :
  tableUpdate a ratings key s = Some s' ->
  forall k,
    t_rows (table s') k
    = onKey key
        (Standing.assign a (ratingsGet (inherited s) ratings key)) k
      <$> t_rows (table s) k.
Proof.
  unfold tableUpdate, tableGet.
  destruct (t_rows (table s) key) as [row|] eqn:E.
  - intros [= <-] k. cbn [table t_rows]. unfold onKey.
    destruct (String.eqb_spec k key) as [->|_]; [now rewrite E|].
    now destruct (t_rows (table s) k).
  - intros H k.
    assert (Hsame : t_rows (table s') k = t_rows (table s) k).
    { revert H. unfold fromObjectPrototype.
      repeat case_match; try congruence;
        try (match goal with
             | H : ofRating ?r = _ |- _ => now destruct r
             end);
        intros [= <-]; reflexivity. }
    rewrite Hsame.
    destruct (String.eqb_spec k key) as [->|Hne].
    + now rewrite E.
    + now rewrite onKey_other.
Qed.

(** The body of the loop, row by row. *)
Lemma recordMatch_rows ratings s m s' :
  recordMatch ratings s m = Some s' ->
  exists forWhite forBlack,
    forall k,
      t_rows (table s') k
      = rowAfter forWhite forBlack m k <$> t_rows (table s) k.
Proof.
  unfold recordMatch, rowAfter, tableBlame. cbv zeta. intros H.
  apply bind_Some in H as (t1 & U1 & H).
  apply bind_Some in H as (t2 & U2 & H).
  apply bind_Some in H as (t3 & U3 & H).
  apply bind_Some in H as (t4 & U4 & H).
  apply bind_Some in H as (t5 & U5 & U6).
  exists (ratingsGet (inherited t4) ratings (tm_white m)),
    (ratingsGet (inherited t5) ratings (tm_black m)).
  intros k.
  rewrite (tableUpdate_rows _ _ _ _ _ U6 k), (tableUpdate_rows _ _ _ _ _ U5 k).
  assert (E4 : t_rows (table t4) k
               = match reason (tm_result m) with
                 | checkmate =>
                     match winner (tm_result m) with
                     | wins White =>
                         onKey (tm_white m)
                           (Standing.count Standing.checkmates) k
                     | wins Black =>
                         onKey (tm_black m)
                           (Standing.count Standing.checkmates) k
                     | draw => fun row => row
                     end
                 | illegal =>
                     match winner (tm_result m) with
                     | wins White =>
                         onKey (tm_black m)
                           (Standing.count Standing.illegalForfeits) k
                     | wins Black =>
                         onKey (tm_white m)
                           (Standing.count Standing.illegalForfeits) k
                     | draw => fun row => row
                     end
                 | timeout =>
                     match winner (tm_result m) with
                     | wins White =>
                         onKey (tm_black m)
                           (Standing.count Standing.timeouts) k
                     | wins Black =>
                         onKey (tm_white m)
                           (Standing.count Standing.timeouts) k
                     | draw => fun row => row
                     end
                 | resignation =>
                     match winner (tm_result m) with
                     | wins White =>
                         onKey (tm_black m)
                           (Standing.count Standing.resignations) k
                     | wins Black =>
                         onKey (tm_white m)
                           (Standing.count Standing.resignations) k
                     | draw => fun row => row
                     end
                 | _ => fun row => row
                 end <$> t_rows (table t3) k).
  { destruct (reason (tm_result m)); try (injection U4 as <-);
      try (now destruct (t_rows (table t3) k));
      destruct (winner (tm_result m)) as [[]|];
      try (injection U4 as <-; now destruct (t_rows (table t3) k));
      apply (tableUpdate_rows _ _ _ _ _ U4). }
  assert (E3 : t_rows (table t3) k
               = match winner (tm_result m) with
                 | draw =>
                     fun row =>
                       onKey (tm_black m)
                         (Standing.assign (Standing.plusPoints (1 # 2)%Q)
                            None) k
                         (onKey (tm_white m)
                            (Standing.assign (Standing.plusPoints (1 # 2)%Q)
                               None) k
                            (onKey (tm_black m)
                               (Standing.count Standing.draws) k
                               (onKey (tm_white m)
                                  (Standing.count Standing.draws) k row)))
                 | wins White =>
                     fun row =>
                       onKey (tm_white m)
                         (Standing.assign (Standing.plusPoints 1%Q) None) k
                         (onKey (tm_black m)
                            (Standing.count Standing.losses) k
                            (onKey (tm_white m)
                               (Standing.count Standing.wins) k row))
                 | wins Black =>
                     fun row =>
                       onKey (tm_black m)
                         (Standing.assign (Standing.plusPoints 1%Q) None) k
                         (onKey (tm_white m)
                            (Standing.count Standing.losses) k
                            (onKey (tm_black m)
                               (Standing.count Standing.wins) k row))
                 end <$> t_rows (table t2) k).
  { destruct (winner (tm_result m)) as [[]|].
    - apply bind_Some in U3 as (a & A & U3).
      apply bind_Some in U3 as (b & B & C).
      rewrite (tableUpdate_rows _ _ _ _ _ C k),
        (tableUpdate_rows _ _ _ _ _ B k), (tableUpdate_rows _ _ _ _ _ A k).
      now destruct (t_rows (table t2) k).
    - apply bind_Some in U3 as (a & A & U3).
      apply bind_Some in U3 as (b & B & C).
      rewrite (tableUpdate_rows _ _ _ _ _ C k),
        (tableUpdate_rows _ _ _ _ _ B k), (tableUpdate_rows _ _ _ _ _ A k).
      now destruct (t_rows (table t2) k).
    - apply bind_Some in U3 as (a & A & U3).
      apply bind_Some in U3 as (b & B & U3).
      apply bind_Some in U3 as (c & C & D).
      rewrite (tableUpdate_rows _ _ _ _ _ D k),
        (tableUpdate_rows _ _ _ _ _ C k), (tableUpdate_rows _ _ _ _ _ B k),
        (tableUpdate_rows _ _ _ _ _ A k).
      now destruct (t_rows (table t2) k). }
  rewrite E4, E3, (tableUpdate_rows _ _ _ _ _ U2 k),
    (tableUpdate_rows _ _ _ _ _ U1 k).
  destruct (t_rows (table s) k) as [row|]; [|reflexivity].
  cbn [fmap option_fmap option_map]. f_equal.
  destruct (reason (tm_result m)), (winner (tm_result m)) as [[]|];
    reflexivity.
Qed.

Lemma asNumber_succ n : (asNumber (n + 1) == asNumber n + 1)%Q.
Proof.
  unfold asNumber. rewrite Nat2Z.inj_add, inject_Z_plus. reflexivity.
Qed.

(** What the loop body does to a row. *)
Lemma rowAfter_spec forWhite forBlack m k row :
  s_model (rowAfter forWhite forBlack m k row) = s_model row
  /\ (balanced row -> balanced (rowAfter forWhite forBlack m k row))
  /\ s_games (rowAfter forWhite forBlack m k row)
     = (s_games row
        + (if String.eqb k (tm_white m) then 1 else 0)
        + (if String.eqb k (tm_black m) then 1 else 0))%nat.
Proof.
  pose proof (asNumber_succ (s_wins row)) as Sw.
  pose proof (asNumber_succ (s_draws row)) as Sd.
  pose proof (asNumber_succ (s_draws row + 1)) as Sd'.
  unfold rowAfter, balanced.
  destruct (winner (tm_result m)) as [[]|], (reason (tm_result m));
    cbv zeta beta iota; unfold onKey;
    destruct (String.eqb k (tm_white m)), (String.eqb k (tm_black m));
    cbn [s_model s_rating s_games s_points s_wins s_draws s_losses
           s_checkmates s_illegalForfeits s_timeouts s_resignations
           Standing.assign Standing.count];
    (split; [reflexivity|]); (split; [|lia]);
    intros (Hg & Hp & Hc & Hl);
    (split; [lia|]); (split; [lra|lia]).
Qed.

(** The rows of the table after the loop over the matches. *)
Lemma matches_rows ratings matches : forall s s',
  fold_left (recordNext ratings) matches (Some s) = Some s' ->
  forall k,
    match t_rows (table s) k with
    | Some row =>
        exists row',
          t_rows (table s') k = Some row'
          /\ s_model row' = s_model row
          /\ (balanced row -> balanced row')
          /\ s_games row' = (s_games row + appearances k matches)%nat
    | None => t_rows (table s') k = None
    end.
Proof.
  unfold appearances.
  induction matches as [|m matches IH]; intros s s' H k;
    cbn [fold_left List.filter length] in *.
  - injection H as <-. destruct (t_rows (table s) k) as [row|];
      [|reflexivity].
    exists row. split; [reflexivity|]. split; [reflexivity|].
    split; [auto|]. lia.
  - unfold recordNext at 2 in H. cbn [mbind option_bind] in H.
    destruct (recordMatch ratings s m) as [s1|] eqn:E.
    + destruct (recordMatch_rows _ _ _ _ E) as (fw & fb & Hrows).
      specialize (IH _ _ H k). rewrite (Hrows k) in IH.
      destruct (t_rows (table s) k) as [row|]; [|exact IH].
      cbn [fmap option_fmap option_map] in IH.
      destruct IH as (row' & E' & H1 & H2 & H3).
      destruct (rowAfter_spec fw fb m k row) as (R1 & R2 & R3).
      exists row'. split; [exact E'|]. split; [congruence|].
      split; [auto|]. rewrite H3, R3.
      destruct (String.eqb k (tm_white m)), (String.eqb k (tm_black m));
        cbn [length]; lia.
    + exfalso. clear -H. induction matches; [discriminate|]. auto.
Qed.

Lemma tableSet_other key row t :
  key <> "__proto__" ->
  tableSet key row t
  = mkTable (fun k => if String.eqb k key then Some row else t_rows t k)
      (t_prototype t).
Proof.
  intros H. unfold tableSet.
  destruct (t_rows t key); [reflexivity|].
  destruct (String.eqb_spec key "__proto__"); [contradiction|reflexivity].
Qed.

(** The table after the loop over the models. *)
Lemma models_rows ratings models : forall s,
  t_rows (table s) "__proto__" = None ->
  let s' := fold_left (addRow ratings) models s in
  inherited s' = inherited s
  /\ t_rows (table s') "__proto__" = None
  /\ (t_prototype (table s) = None -> ~ In "__proto__" models ->
      t_prototype (table s') = None)
  /\ (is_Some (t_prototype (table s)) \/ In "__proto__" models ->
      is_Some (t_prototype (table s')))
  /\ forall k,
       k <> "__proto__" ->
       (In k models ->
        exists reading,
          t_rows (table s') k = Some (Standing.fresh reading k))
       /\ (~ In k models -> t_rows (table s') k = t_rows (table s) k).
Proof.
  induction models as [|m models IH]; intros s Hp; cbn [fold_left In].
  - split; [reflexivity|]. split; [exact Hp|]. split; [auto|].
    split; [intros [H|[]]; exact H|].
    intros k _. split; [intros []|reflexivity].
  - assert (Hadd : inherited (addRow ratings s m) = inherited s
                   /\ t_rows (table (addRow ratings s m)) "__proto__" = None
                   /\ (m <> "__proto__" ->
                       t_prototype (table (addRow ratings s m))
                       = t_prototype (table s)
                       /\ forall k,
                            t_rows (table (addRow ratings s m)) k
                            = if String.eqb k m
                              then Some (Standing.fresh
                                           (ratingsGet (inherited s) ratings
                                              m) m)
                              else t_rows (table s) k)
                   /\ (m = "__proto__" ->
                       is_Some (t_prototype (table (addRow ratings s m)))
                       /\ forall k,
                            t_rows (table (addRow ratings s m)) k
                            = t_rows (table s) k)).
    { unfold addRow. cbn [inherited table].
      split; [reflexivity|].
      destruct (string_dec m "__proto__") as [->|Hm].
      - unfold tableSet. rewrite Hp. cbn [String.eqb Ascii.eqb Bool.eqb].
        cbn [t_rows t_prototype].
        split; [exact Hp|]. split; [congruence|].
        intros _. split; [eauto|reflexivity].
      - rewrite (tableSet_other _ _ _ Hm). cbn [t_rows t_prototype].
        split.
        + destruct (String.eqb_spec "__proto__" m); [congruence|exact Hp].
        + split; [intros _; split; reflexivity|contradiction]. }
    destruct Hadd as (Hi & Hp' & Hne & Heq).
    destruct (IH (addRow ratings s m) Hp') as (I1 & I2 & I3 & I4 & I5).
    split; [congruence|]. split; [exact I2|]. split; [|split].
    + intros Hnone Hnot. apply I3; [|tauto].
      destruct (Hne ltac:(intros ->; tauto)) as [-> _]. exact Hnone.
    + intros H. apply I4.
      destruct (string_dec m "__proto__") as [Hm|Hm].
      * left. now apply Heq.
      * destruct (Hne Hm) as [-> _].
        destruct H as [H|[H|H]]; [now left|congruence|now right].
    + intros k Hk. destruct (I5 k Hk) as [J1 J2].
      destruct (in_dec string_dec k models) as [Hin|Hin].
      * split; [intros _; now apply J1|tauto].
      * rewrite (J2 Hin).
        destruct (string_dec m "__proto__") as [Hm|Hm].
        -- destruct (Heq Hm) as [_ ->].
           split; [intros [->|?]; [congruence|contradiction]|reflexivity].
        -- destruct (Hne Hm) as [_ ->].
           destruct (String.eqb_spec k m) as [->|Hkm].
           ++ split; [eauto|tauto].
           ++ split; [intros [->|?]; [congruence|contradiction]|reflexivity].
Qed.

(** *** When the players are models *)

Lemma tableUpdate_hasRow a ratings key s :
  hasRow s key ->
  exists s',
    tableUpdate a ratings key s = Some s'
    /\ forall k, hasRow s k -> hasRow s' k.
Proof.
  unfold hasRow, tableUpdate, tableGet. intros H.
  destruct (t_rows (table s) key) as [row|] eqn:E.
  - eexists. split; [reflexivity|]. cbn [table t_rows t_prototype].
    intros k [Hk|Hk]; [left|now right].
    destruct (String.eqb k key); [eauto|exact Hk].
  - destruct H as [[x H]|[-> [row Hrow]]]; [discriminate H|].
    cbn [String.eqb Ascii.eqb Bool.eqb]. rewrite Hrow.
    eexists. split; [reflexivity|]. cbn [table t_rows t_prototype].
    intros k [Hk|[-> _]]; [now left|right; eauto].
Qed.

Ltac update_hasRow :=
  match goal with
  | Hall : forall k, hasRow ?s k -> hasRow ?s0 k
    |- context [tableUpdate ?a ?ratings ?key ?s0] =>
      let s' := fresh "s" in
      let E := fresh "E" in
      let Hall' := fresh "Hall" in
      destruct (tableUpdate_hasRow a ratings key s0 ltac:(auto))
        as (s' & E & Hall');
      rewrite E; cbn [mbind option_bind]; clear E;
      assert (forall k, hasRow s k -> hasRow s' k) by auto;
      clear Hall Hall'
  end.

Lemma recordMatch_hasRow ratings s m :
  hasRow s (tm_white m) -> hasRow s (tm_black m) ->
  exists s',
    recordMatch ratings s m = Some s'
    /\ forall k, hasRow s k -> hasRow s' k.
Proof.
  intros Hw Hb.
  assert (Hall : forall k, hasRow s k -> hasRow s k) by auto.
  unfold recordMatch, tableBlame. cbv zeta.
  do 2 update_hasRow.
  destruct (winner (tm_result m)) as [[]|], (reason (tm_result m));
    repeat update_hasRow; eauto.
Qed.

Lemma matches_hasRow ratings matches : forall s,
  (forall g, In g matches ->
             hasRow s (tm_white g) /\ hasRow s (tm_black g)) ->
  is_Some (fold_left (recordNext ratings) matches (Some s)).
Proof.
  induction matches as [|m matches IH]; intros s H; cbn [fold_left].
  - eauto.
  - destruct (H m (or_introl eq_refl)) as [Hw Hb].
    destruct (recordMatch_hasRow ratings s m Hw Hb) as (s' & E & Hall).
    unfold recordNext at 2. cbn [mbind option_bind]. rewrite E.
    apply IH. intros g Hg.
    destruct (H g (or_intror Hg)). split; now apply Hall.
Qed.

(** *** When no name is [__proto__] *)

Lemma tableUpdate_clean a ratings key s :
  pristine s -> key <> "__proto__" ->
  match tableUpdate a ratings key s with
  | Some s' =>
      ~ absent s key /\ pristine s'
      /\ forall k, t_rows (table s') k = None <-> t_rows (table s) k = None
  | None => absent s key
  end.
Proof.
  intros [Hp Hi] Hkey.
  destruct (tableUpdate a ratings key s) as [s'|] eqn:E.
  - assert (Hdom : forall k,
              t_rows (table s') k = None <-> t_rows (table s) k = None).
    { intros k. rewrite (tableUpdate_rows _ _ _ _ _ E k).
      now destruct (t_rows (table s) k). }
    revert E. unfold tableUpdate, tableGet, absent, pristine.
    rewrite Hp, Hi.
    destruct (t_rows (table s) key) as [row|] eqn:Er.
    + intros [= <-]. cbn [table t_prototype inherited].
      split; [intros [[=] _]|]. split; [now split|].
      intros k. rewrite <- Hdom. reflexivity.
    + destruct (String.eqb_spec key "__proto__"); [contradiction|].
      unfold fromObjectPrototype. cbn [op_numbers op_rating existsb].
      destruct (isBuiltIn key).
      * intros [= <-]. split; [intros [_ [=]]|]. split; [now split|].
        reflexivity.
      * destruct (String.eqb key "rating"); discriminate.
  - revert E. unfold tableUpdate, tableGet, absent.
    rewrite Hp, Hi.
    destruct (t_rows (table s) key) as [row|]; [discriminate|].
    destruct (String.eqb_spec key "__proto__"); [contradiction|].
    unfold fromObjectPrototype. cbn [op_numbers op_rating existsb].
    destruct (isBuiltIn key); [discriminate|]. now split.
Qed.

Lemma tableUpdate_found s0 white black a ratings key s :
  white <> "__proto__" -> black <> "__proto__" ->
  bothPresent s0 white black s ->
  key = white \/ key = black ->
  exists s',
    tableUpdate a ratings key s = Some s' /\ bothPresent s0 white black s'.
Proof.
  intros Hw Hb (Hc & Mw & Mb & Hdom) Hkey.
  assert (Hk : key <> "__proto__") by (destruct Hkey; congruence).
  pose proof (tableUpdate_clean a ratings key s Hc Hk) as H.
  destruct (tableUpdate a ratings key s) as [s'|].
  - destruct H as (_ & Hc' & Hdom').
    exists s'. split; [reflexivity|]. split; [exact Hc'|].
    unfold absent in *. rewrite !Hdom'.
    split; [exact Mw|]. split; [exact Mb|].
    intros k. now rewrite Hdom'.
  - destruct Hkey as [->| ->]; contradiction.
Qed.

Ltac update_found :=
  match goal with
  | Hw : ?white <> "__proto__", Hb : ?black <> "__proto__",
    Hf : bothPresent ?s0 ?white ?black ?s
    |- context [tableUpdate ?a ?ratings ?key ?s] =>
      let s' := fresh "s" in
      let E := fresh "E" in
      let Hf' := fresh "Hf" in
      destruct (tableUpdate_found s0 white black a ratings key s Hw Hb Hf
                  ltac:(auto)) as (s' & E & Hf');
      rewrite E; cbn [mbind option_bind]; clear E Hf
  end.

Lemma absent_dec s k : absent s k \/ ~ absent s k.
Proof.
  unfold absent.
  destruct (t_rows (table s) k); [right; intros [[=] _]|].
  destruct (isBuiltIn k); [right; intros [_ [=]]|now left].
Qed.

Lemma recordMatch_clean ratings s m :
  pristine s ->
  tm_white m <> "__proto__" -> tm_black m <> "__proto__" ->
  match recordMatch ratings s m with
  | Some s' =>
      ~ absent s (tm_white m) /\ ~ absent s (tm_black m) /\ pristine s'
      /\ forall k, t_rows (table s') k = None <-> t_rows (table s) k = None
  | None => absent s (tm_white m) \/ absent s (tm_black m)
  end.
Proof.
  intros Hc Hw Hb.
  destruct (absent_dec s (tm_white m)) as [Mw|Mw];
    [|destruct (absent_dec s (tm_black m)) as [Mb|Mb]].
  - (* white is absent: the first assignment throws *)
    pose proof (tableUpdate_clean (Standing.plusOne Standing.games) ratings
                  (tm_white m) s Hc Hw) as H.
    unfold recordMatch. cbv zeta.
    destruct (tableUpdate _ ratings (tm_white m) s) as [s1|];
      [destruct H as [H _]; contradiction|].
    now left.
  - (* black is absent: the second assignment throws *)
    pose proof (tableUpdate_clean (Standing.plusOne Standing.games) ratings
                  (tm_white m) s Hc Hw) as H.
    unfold recordMatch. cbv zeta.
    destruct (tableUpdate _ ratings (tm_white m) s) as [s1|];
      [|contradiction].
    destruct H as (_ & Hc1 & Hdom1). cbn [mbind option_bind].
    pose proof (tableUpdate_clean (Standing.plusOne Standing.games) ratings
                  (tm_black m) s1 Hc1 Hb) as H.
    destruct (tableUpdate _ ratings (tm_black m) s1) as [s2|].
    + destruct H as [H _]. destruct H. unfold absent in *.
      now rewrite Hdom1.
    + now right.
  - (* both are found: the body runs to its end *)
    assert (Hf : bothPresent s (tm_white m) (tm_black m) s).
    { split; [exact Hc|]. split; [exact Mw|]. split; [exact Mb|].
      intros k. reflexivity. }
    assert (Hend : exists s',
               recordMatch ratings s m = Some s'
               /\ bothPresent s (tm_white m) (tm_black m) s').
    { unfold recordMatch, tableBlame. cbv zeta.
      do 2 update_found.
      destruct (winner (tm_result m)) as [[]|], (reason (tm_result m));
        repeat update_found; eauto. }
    destruct Hend as (s' & -> & (Hc' & _ & _ & Hdom)).
    split; [exact Mw|]. split; [exact Mb|]. split; [exact Hc'|exact Hdom].
Qed.

Lemma matches_throw ratings matches :
  fold_left (recordNext ratings) matches None = None.
Proof. induction matches; [reflexivity|assumption]. Qed.

Lemma matches_clean ratings matches : forall s,
  pristine s ->
  (forall g, In g matches ->
             tm_white g <> "__proto__" /\ tm_black g <> "__proto__") ->
  fold_left (recordNext ratings) matches (Some s) = None
  <-> exists g,
        In g matches /\ (absent s (tm_white g) \/ absent s (tm_black g)).
Proof.
  induction matches as [|m matches IH]; intros s Hc Hnames;
    cbn [fold_left In].
  - split; [discriminate|intros (g & [] & _)].
  - destruct (Hnames m (or_introl eq_refl)) as [Hw Hb].
    pose proof (recordMatch_clean ratings s m Hc Hw Hb) as H.
    unfold recordNext at 2. cbn [mbind option_bind].
    destruct (recordMatch ratings s m) as [s1|].
    + destruct H as (Mw & Mb & Hc1 & Hdom).
      rewrite (IH s1 Hc1 (fun g Hg => Hnames g (or_intror Hg))).
      unfold absent in *.
      split.
      * intros (g & Hg & H). exists g. split; [now right|].
        now rewrite <- !Hdom.
      * intros (g & [<-|Hg] & H); [tauto|].
        exists g. split; [assumption|]. now rewrite !Hdom.
    + split; [|intros _; apply matches_throw].
      intros _. exists m. split; [now left|exact H].
Qed.

End StandingFacts.

(** X24: when [buildStandings] gets to its [return], its table has as
    properties one row for every name in [models] other than [__proto__],
    and no other row; the row carries the name, its games are as many as the
    sides the model played, and its books balance: the games are the wins,
    draws and losses, the points are the wins and half the draws, the
    checkmates are among the wins, and the forfeits, timeouts and
    resignations are among the losses. The row of a model named [__proto__]
    is not a property of the table: the assignment has made it the
    prototype of the table, and [Object.values] does not list it. *)
Theorem standings_rows (models : list string)
    (matches : list TournamentMatch) (ratings : Ratings)
    (table : StandingsTable) (m : string) :
  standingsTable models matches ratings = Some table ->
  match t_rows table m with
  | Some row =>
      In m models /\ m <> "__proto__" /\ s_model row = m /\ balanced row
      /\ s_games row = appearances m matches
  | None => ~ In m models \/ m = "__proto__"
  end.
Proof.
  unfold standingsTable, standingsRun. cbv zeta.
  set (s0 := mkStore (mkTable (fun _ => None) None)
               (mkObjectPrototype [] None)).
  intros H. apply fmap_Some in H as (s' & H & ->).
  destruct (StandingFacts.models_rows ratings models s0 eq_refl)
    as (_ & Hproto & _ & _ & Hrows).
  pose proof (StandingFacts.matches_rows _ _ _ _ H m) as Hm.
  destruct (string_dec m "__proto__") as [->|Hne].
  - rewrite Hproto in Hm. rewrite Hm. now right.
  - destruct (Hrows m Hne) as [Hin Hout].
    destruct (in_dec string_dec m models) as [E|E].
    + destruct (Hin E) as [reading Hfresh]. rewrite Hfresh in Hm.
      destruct Hm as (row' & -> & H1 & H2 & H3).
      split; [exact E|]. split; [exact Hne|]. split; [exact H1|].
      split; [|exact H3].
      apply H2. unfold balanced, asNumber. cbn.
      repeat split; lia || reflexivity.
    + rewrite (Hout E) in Hm. cbn [s0 table t_rows] in Hm.
      rewrite Hm. now left.
Qed.

(** X25: when no model and no player is named [__proto__], [buildStandings]
    throws exactly when a match names a player that is neither in [models]
    nor the name of a function that every object inherits: the table reads
    as [undefined] under such a name, and as the function under the name of
    one. *)
Theorem standings_throws (models : list string)
    (matches : list TournamentMatch) (ratings : Ratings) :
  ~ In "__proto__" models ->
  (forall g, In g matches ->
             tm_white g <> "__proto__" /\ tm_black g <> "__proto__") ->
  standingsTable models matches ratings = None
  <-> exists g,
        In g matches
        /\ (unknown models (tm_white g) \/ unknown models (tm_black g)).
Proof.
  intros Hmodels Hnames.
  unfold standingsTable, standingsRun. cbv zeta.
  set (s0 := mkStore (mkTable (fun _ => None) None)
               (mkObjectPrototype [] None)).
  destruct (StandingFacts.models_rows ratings models s0 eq_refl)
    as (Hi & Hproto & Hnone & _ & Hrows).
  set (s1 := fold_left (addRow ratings) models s0) in *.
  assert (Hc : pristine s1).
  { split; [now apply Hnone|now rewrite Hi]. }
  assert (D : forall k, absent s1 k <-> unknown models k).
  { intros k. unfold absent, unknown.
    destruct (string_dec k "__proto__") as [->|Hne].
    - rewrite Hproto. tauto.
    - destruct (Hrows k Hne) as [Hin Hout].
      destruct (in_dec string_dec k models) as [E|E].
      + destruct (Hin E) as [reading ->].
        split; [intros [[=] _]|tauto].
      + rewrite (Hout E). cbn [s0 table t_rows]. tauto. }
  rewrite fmap_None, (StandingFacts.matches_clean ratings matches s1 Hc Hnames).
  split; intros (g & Hg & H); exists g; (split; [assumption|]);
    now rewrite ?D in *.
Qed.

(** X26: the matches of the round robin name models of the list only, so that
    [buildStandings] does not throw on the matches that [POST] has
    played. *)
Theorem standings_of_round_robin (models : list string)
    (matches : list TournamentMatch) (ratings : Ratings) :
  map (fun g => mkPairing (tm_white g) (tm_black g)) matches
  = pairings models ->
  is_Some (standingsTable models matches ratings).
Proof.
  intros Hpairs.
  unfold standingsTable, standingsRun. cbv zeta.
  set (s0 := mkStore (mkTable (fun _ => None) None)
               (mkObjectPrototype [] None)).
  destruct (StandingFacts.models_rows ratings models s0 eq_refl)
    as (_ & _ & _ & Hsome & Hrows).
  set (s1 := fold_left (addRow ratings) models s0) in *.
  assert (Hhas : forall k, In k models -> hasRow s1 k).
  { intros k Hk. unfold hasRow.
    destruct (string_dec k "__proto__") as [->|Hne].
    - right. split; [reflexivity|]. apply Hsome. now right.
    - left. destruct (proj1 (Hrows k Hne) Hk) as [reading ->]. eauto. }
  apply fmap_is_Some, StandingFacts.matches_hasRow.
  intros g Hg.
  assert (Hin : In (mkPairing (tm_white g) (tm_black g)) (pairings models)).
  { rewrite <- Hpairs. apply in_map_iff. eauto. }
  apply PairingFacts.in_pairings in Hin as (i & j & Hij & Hp).
  assert (Hat : forall k,
            (k < length models)%nat -> In (modelAt models k) models).
  { intros k Hk. unfold modelAt.
    destruct (lookup_lt_is_Some_2 models k Hk) as [x Hx]. rewrite Hx.
    apply list_elem_of_In, list_elem_of_lookup. eauto. }
  split; apply Hhas.
  - apply (f_equal pair_white) in Hp. cbn [pair_white] in Hp. rewrite Hp.
    unfold pairingOf. cbv zeta. cbn [pair_white].
    destruct ((i + j) mod 2 =? 0)%nat; apply Hat; lia.
  - apply (f_equal pair_black) in Hp. cbn [pair_black] in Hp. rewrite Hp.
    unfold pairingOf. cbv zeta. cbn [pair_black].
    destruct (String.eqb _ _); apply Hat; lia.
Qed.

(** ** The move log *)

Module MoveLogFacts.

Lemma placeMove_num move group :
  g_moveNum (placeMove move group) = g_moveNum group.
Proof. unfold placeMove. now destruct (ev_activeColor move). Qed.

Lemma placeMove_slot move group c :
  match c with
  | White => g_white (placeMove move group)
  | Black => g_black (placeMove move group)
  end
  = if bool_decide (ev_activeColor move = c) then Some move
    else match c with White => g_white group | Black => g_black group end.
Proof. unfold placeMove. now destruct (ev_activeColor move), c. Qed.

Lemma shown_addMove move groups moveNum c :
  shown (addMove move groups) moveNum c
  = if placedAt moveNum c move then Some move else shown groups moveNum c.
Proof.
  unfold placedAt.
  induction groups as [|g groups IH]; cbn [addMove shown].
  - rewrite placeMove_num, placeMove_slot. cbn [g_moveNum g_white g_black].
    destruct (Nat.eqb_spec (moveNumOf move) moveNum) as [E|E];
      cbn [andb]; [|reflexivity].
    now destruct (bool_decide _), c.
  - destruct (Nat.eqb_spec (g_moveNum g) (moveNumOf move)) as [Eg|Eg];
      cbn [shown].
    + rewrite placeMove_num, placeMove_slot, Eg.
      destruct (Nat.eqb_spec (moveNumOf move) moveNum) as [E|E];
        cbn [andb]; reflexivity.
    + destruct (Nat.eqb_spec (g_moveNum g) moveNum) as [E|E]; [|exact IH].
      destruct (Nat.eqb_spec (moveNumOf move) moveNum) as [E'|E'];
        [congruence|reflexivity].
Qed.

Lemma numbers_addMove move groups :
  map g_moveNum (addMove move groups)
  = if in_dec Nat.eq_dec (moveNumOf move) (map g_moveNum groups)
    then map g_moveNum groups
    else (map g_moveNum groups ++ [moveNumOf move])%list.
Proof.
  induction groups as [|g groups IH]; cbn [addMove map].
  - destruct (in_dec _ _ _) as [[]|_]. now rewrite placeMove_num.
  - destruct (Nat.eqb_spec (g_moveNum g) (moveNumOf move)) as [Eg|Eg].
    + destruct (in_dec _ _ (g_moveNum g :: _)) as [_|N];
        [|exfalso; apply N; now left].
      cbn [map]. now rewrite placeMove_num.
    + cbn [map]. rewrite IH.
      destruct (in_dec _ _ (map g_moveNum groups)) as [Hin|Hin];
        destruct (in_dec _ _ (g_moveNum g :: _)) as [Hin'|Hin'];
        try reflexivity.
      * exfalso. apply Hin'. cbn [map In]. now right.
      * destruct Hin' as [?|?]; [congruence|contradiction].
Qed.

Lemma shown_fold moves moveNum c : forall groups,
  shown (fold_left (fun groupedMoves move => addMove move groupedMoves)
           moves groups) moveNum c
  = match last (List.filter (placedAt moveNum c) moves) with
    | Some move => Some move
    | None => shown groups moveNum c
    end.
Proof.
  induction moves as [|move moves IH]; intros groups;
    cbn [fold_left List.filter]; [reflexivity|].
  rewrite IH, shown_addMove.
  destruct (placedAt moveNum c move); [|reflexivity].
  destruct (List.filter (placedAt moveNum c) moves) as [|e l] eqn:E;
    [reflexivity|].
  rewrite (last_cons move). now destruct (last (e :: l)).
Qed.

Lemma numbers_fold moves : forall groups,
  NoDup (map g_moveNum groups) ->
  NoDup (map g_moveNum
           (fold_left (fun groupedMoves move => addMove move groupedMoves)
              moves groups))
  /\ forall moveNum,
       In moveNum
         (map g_moveNum
            (fold_left (fun groupedMoves move => addMove move groupedMoves)
               moves groups))
       <-> In moveNum (map g_moveNum groups)
           \/ In moveNum (map moveNumOf moves).
Proof.
  induction moves as [|move moves IH]; intros groups Hd;
    cbn [fold_left map In].
  - split; [assumption|tauto].
  - assert (Hd' : NoDup (map g_moveNum (addMove move groups))).
    { rewrite numbers_addMove. destruct (in_dec _ _ _) as [Hin|Hin];
        [assumption|].
      apply NoDup_app. split; [assumption|].
      split; [|apply NoDup_singleton].
      intros x Hx Hx'. apply list_elem_of_In in Hx.
      apply list_elem_of_In in Hx'. destruct Hx' as [<-|[]]. tauto. }
    destruct (IH _ Hd') as [IH1 IH2]. split; [assumption|].
    intros moveNum. rewrite IH2, numbers_addMove.
    destruct (in_dec _ _ _) as [Hin|Hin].
    + split; [tauto|]. intros [?|[<-|?]]; tauto.
    + rewrite in_app_iff. cbn [In]. tauto.
Qed.

Lemma shown_groupMoves moves moveNum c :
  shown (groupMoves moves) moveNum c
  = last (List.filter (placedAt moveNum c) moves).
Proof.
  unfold groupMoves. rewrite shown_fold. cbn [shown].
  now destruct (last _).
Qed.

Lemma filter_absent moves moveNum c :
  ~ In (moveNum, c) (map (fun e => (moveNumOf e, ev_activeColor e)) moves) ->
  List.filter (placedAt moveNum c) moves = [].
Proof.
  induction moves as [|x moves IH]; [reflexivity|].
  cbn [map In List.filter]. intros Hne.
  rewrite IH by tauto. unfold placedAt.
  destruct (Nat.eqb_spec (moveNumOf x) moveNum) as [E|E]; [|reflexivity].
  destruct (bool_decide_reflect (ev_activeColor x = c)) as [E'|E'];
    [|reflexivity].
  destruct Hne. left. congruence.
Qed.

Lemma filter_unique moves move :
  NoDup (map (fun e => (moveNumOf e, ev_activeColor e)) moves) ->
  In move moves ->
  List.filter (placedAt (moveNumOf move) (ev_activeColor move)) moves
  = [move].
Proof.
  intros Hd Hin. induction moves as [|e moves IH]; [destruct Hin|].
  cbn [map] in Hd. apply NoDup_cons in Hd as [Hne Hd].
  rewrite list_elem_of_In in Hne. cbn [List.filter].
  destruct Hin as [->|Hin].
  - unfold placedAt at 1. rewrite Nat.eqb_refl, bool_decide_eq_true_2 by easy.
    cbn [andb]. now rewrite (filter_absent _ _ _ Hne).
  - rewrite (IH Hd Hin).
    destruct (placedAt _ _ e) eqn:Ee; [|reflexivity].
    destruct Hne. unfold placedAt in Ee.
    apply andb_prop in Ee as [E1 E2].
    apply Nat.eqb_eq in E1. apply bool_decide_eq_true_1 in E2.
    rewrite E1, E2.
    exact (in_map (fun e => (moveNumOf e, ev_activeColor e)) moves move Hin).
Qed.

End MoveLogFacts.

(** X27: the move log has one row for every move number of its moves and no
    two rows with the same number, and in the place of a move number and a
    color it shows the last move of that number and color: an earlier one
    is overwritten. *)
Theorem groupMoves_shows (moves : list MatchMoveEvent) (moveNum : nat)
    (c : Color) :
  NoDup (map g_moveNum (groupMoves moves))
  /\ (In moveNum (map g_moveNum (groupMoves moves))
      <-> In moveNum (map moveNumOf moves))
  /\ shown (groupMoves moves) moveNum c
     = last (List.filter (placedAt moveNum c) moves).
Proof.
  destruct (MoveLogFacts.numbers_fold moves [] (NoDup_nil_2 (A:=nat))) as [H1 H2].
  split; [exact H1|]. split.
  - unfold groupMoves. rewrite H2. cbn [map In]. tauto.
  - apply MoveLogFacts.shown_groupMoves.
Qed.

(** X28: when no two moves have the same move number and color, the move log
    shows every move in its place. *)
Theorem groupMoves_complete (moves : list MatchMoveEvent)
    (move : MatchMoveEvent) :
  NoDup (map (fun e => (moveNumOf e, ev_activeColor e)) moves) ->
  In move moves ->
  shown (groupMoves moves) (moveNumOf move) (ev_activeColor move)
  = Some move.
Proof.
  intros Hd Hin.
  rewrite MoveLogFacts.shown_groupMoves.
  now rewrite (MoveLogFacts.filter_unique moves move Hd Hin).
Qed.

(** ** The move log of a match *)

Module PlaceFacts.

(** The scripted library passes the turn. *)
Lemma table_alternates :
  forallb
    (fun e =>
       bool_decide
         (Scripted.turn (Scripted.mkPosition (Scripted.after e) [])
          = other
              (Scripted.turn (Scripted.mkPosition (Scripted.before e) []))))
    Scripted.table = true.
Proof. vm_compute. reflexivity. Qed.

Lemma scripted_alternates : turnAlternates Scripted.lib.
Proof.
  intros c text m c' H.
  apply ScriptedFacts.move_inv in H as (e & Hin & Hm & _ & ->).
  assert (Hb : Scripted.before e = Scripted.pos_fen c).
  { unfold Scripted.matches in Hm. apply andb_prop in Hm as [Hm _].
    now apply String.eqb_eq in Hm. }
  pose proof table_alternates as Ht. rewrite forallb_forall in Ht.
  specialize (Ht e Hin). apply bool_decide_eq_true_1 in Ht.
  cbn. unfold Scripted.turn in *. cbn [Scripted.pos_fen] in *.
  now rewrite <- Hb.
Qed.

Lemma flipped_S i c : flipped (S i) c = flipped i (other c).
Proof.
  unfold flipped. rewrite Nat.even_succ, <- Nat.negb_even.
  destruct (Nat.even i), c; reflexivity.
Qed.

Lemma placesFrom_S n k c :
  placesFrom n (S k) c
  = ((n / 2 + 1)%nat, c) :: placesFrom (S n) k (other c).
Proof.
  unfold placesFrom. cbn [seq map]. rewrite Nat.add_0_r. f_equal.
  rewrite <- seq_shift, map_map. apply map_ext. intros i.
  rewrite flipped_S. now replace (n + S i)%nat with (S n + i)%nat by lia.
Qed.

Lemma parity_half a b :
  (a / 2 = b / 2)%nat -> Nat.even a = Nat.even b -> a = b.
Proof.
  intros Hh Hp.
  pose proof (Nat.div_mod_eq a 2) as Ha.
  pose proof (Nat.div_mod_eq b 2) as Hb.
  assert (Hm : forall n, (n mod 2 = if Nat.even n then 0 else 1)%nat).
  { intros n. pose proof (Nat.mod_upper_bound n 2 ltac:(lia)) as Hlt.
    destruct (Nat.even n) eqn:E.
    - apply Nat.even_spec in E as [m ->].
      rewrite Nat.mul_comm. apply Nat.Div0.mod_mul.
    - rewrite <- Nat.negb_odd in E. apply negb_false_iff in E.
      apply Nat.odd_spec in E as [m ->].
      rewrite Nat.add_comm, Nat.mul_comm, Nat.Div0.mod_add. reflexivity. }
  rewrite (Hm a), Hh, Hp in Ha. rewrite (Hm b) in Hb.
  etransitivity; [exact Ha|symmetry; exact Hb].
Qed.

Lemma flipped_inj i j c : flipped i c = flipped j c -> Nat.even i = Nat.even j.
Proof.
  unfold flipped. destruct (Nat.even i), (Nat.even j), c;
    (reflexivity || discriminate).
Qed.

(** The places of moves in a row differ, and so does the place of a
    resignation after them. *)
Lemma NoDup_places n k c tail :
  tail = []
  \/ (exists p, (n + k <= p)%nat /\ tail = [((p / 2 + 1)%nat, flipped k c)]) ->
  NoDup (placesFrom n k c ++ tail).
Proof.
  intros Htail. apply NoDup_app. split; [|split].
  - unfold placesFrom. apply NoDup_fmap_2_strong; [|apply NoDup_seq].
    intros i j _ _ [= Hh Hc]. apply flipped_inj in Hc.
    assert (Hp : Nat.even (n + i) = Nat.even (n + j))
      by now rewrite !Nat.even_add, Hc.
    apply Nat.add_cancel_r in Hh.
    pose proof (parity_half _ _ Hh Hp). lia.
  - intros x Hx Hx'. destruct Htail as [->|(p & Hp & ->)];
      [now apply not_elem_of_nil in Hx'|].
    apply list_elem_of_singleton in Hx'. subst x.
    unfold placesFrom in Hx.
    apply list_elem_of_fmap in Hx as (i & [= Hh Hc] & Hi).
    apply Nat.add_cancel_r in Hh.
    apply elem_of_seq in Hi. apply flipped_inj in Hc.
    assert (Hk : exists d, k = (i + S d)%nat) by (exists (k - i - 1)%nat; lia).
    destruct Hk as [d ->].
    rewrite Nat.even_add, Nat.even_succ, <- Nat.negb_even in Hc.
    assert (Hd : Nat.even d = false)
      by (destruct (Nat.even i), (Nat.even d); easy).
    destruct d as [|d]; [discriminate Hd|].
    assert (Hle : ((n + i + 1 * 2) / 2 <= p / 2)%nat)
      by (apply Nat.Div0.div_le_mono; lia).
    rewrite Nat.div_add in Hle by lia.
    change (p / 2 = (n + i) / 2)%nat in Hh.
    revert Hle Hh. generalize (p / 2)%nat, ((n + i) / 2)%nat. lia.
  - destruct Htail as [->|(p & _ & ->)];
      [apply NoDup_nil_2|apply NoDup_singleton].
Qed.

Lemma moveEvents_app a b :
  moveEvents (a ++ b) = (moveEvents a ++ moveEvents b)%list.
Proof. apply flat_map_app. Qed.

Section Places.

Variable L : Chess.lib.
Variable MOVE_TIMEOUT_MS : Q.
Variable req : MatchRequest.
Variable agent : Agent.

Hypothesis nochaos : mode req <> chaos.
Hypothesis alternates : turnAlternates L.

Local Abbreviation body := (plyBody L MOVE_TIMEOUT_MS req agent).
Local Abbreviation loop := (plyLoop L MOVE_TIMEOUT_MS req agent).
Local Abbreviation places := (fun evs => map placeOf (moveEvents evs)).

(** The places of the moves that one iteration announces. *)
Lemma body_places st ply :
  let n := length (st_moves st) in
  let c := Chess.turn L (st_chess st) in
  match body st ply with
  | Continue st' evs =>
      (places evs = [] /\ st_moves st' = st_moves st
       /\ st_chess st' = st_chess st)
      \/ (places evs = [((n / 2 + 1)%nat, c)]
          /\ length (st_moves st') = S n
          /\ Chess.turn L (st_chess st') = other c)
  | Closed evs =>
      places evs = [] \/ places evs = [((n / 2 + 1)%nat, c)]
      \/ places evs = [((ply / 2 + 1)%nat, c)]
  | Thrown _ => False
  end.
Proof.
  cbv zeta. unfold plyBody. cbv zeta.
  destruct (flagged L req st _ _) as [clocks [flagEvents|]] eqn:Eflag.
  - apply flagged_events in Eflag as (_ & _ & _ & ->). now left.
  - destruct (outcome _) as [rawMove|message].
    + unfold returnedBranch. cbv zeta.
      destruct (String.eqb _ "resign"); [do 2 right; reflexivity|].
      destruct (Chess.move L _ _) as [[m chess']|] eqn:Emove.
      * apply alternates in Emove.
        unfold legalBranch, displayMoveNumOf. cbv zeta.
        destruct (Chess.isCheckmate L chess'); [right; left; reflexivity|].
        destruct (Chess.isStalemate L chess'); [right; left; reflexivity|].
        destruct (Chess.isThreefoldRepetition L chess');
          [right; left; reflexivity|].
        destruct (Chess.isInsufficientMaterial L chess');
          [right; left; reflexivity|].
        destruct (Chess.isDraw L chess'); [right; left; reflexivity|].
        right. cbn [st_moves st_chess]. rewrite length_app. cbn [length].
        split; [reflexivity|]. split; [lia|exact Emove].
      * unfold illegalBranch. cbv zeta.
        rewrite bool_decide_eq_false_2 by exact nochaos.
        destruct (strikesForfeit req && _); [now left|].
        left. now repeat split.
    + unfold fetchErrBranch. cbv zeta.
      destruct (Js.includes _ _); [|now left].
      unfold emptyMoveBranch. cbv zeta.
      destruct (strikesForfeit req && _); [now left|].
      left. now repeat split.
Qed.

(** The places of the moves that the loop announces from an iteration
    on. *)
Lemma loop_places fuel : forall ply st,
  (length (st_moves st) <= ply)%nat ->
  exists k tail,
    places (sent (loop fuel ply st))
    = (placesFrom (length (st_moves st)) k (Chess.turn L (st_chess st))
       ++ tail)%list
    /\ (tail = []
        \/ exists p,
             (length (st_moves st) + k <= p)%nat
             /\ tail
                = [((p / 2 + 1)%nat,
                    flipped k (Chess.turn L (st_chess st)))]).
Proof.
  induction fuel as [|fuel IH]; intros ply st Hply; cbn [plyLoop].
  - exists 0%nat, []. split; [reflexivity|now left].
  - pose proof (body_places st ply) as Hbody. cbv zeta in Hbody.
    destruct (body st ply) as [st' evs|evs|evs]; [| |contradiction].
    + cbn [emit sent]. rewrite moveEvents_app, map_app.
      destruct Hbody as [(-> & Hm & Hc)|(-> & Hm & Hc)].
      * destruct (IH (S ply) st' ltac:(rewrite Hm; lia))
          as (k & tail & -> & Htail).
        rewrite Hm, Hc in *. eauto.
      * destruct (IH (S ply) st' ltac:(rewrite Hm; lia))
          as (k & tail & -> & Htail).
        exists (S k), tail. rewrite placesFrom_S, Hm, Hc. split; [reflexivity|].
        destruct Htail as [->|(p & Hp & ->)]; [now left|right].
        exists p. rewrite flipped_S, Hm, Hc in *. split; [lia|reflexivity].
    + cbn [sent]. destruct Hbody as [->|[->| ->]].
      * exists 0%nat, []. split; [reflexivity|now left].
      * exists 1%nat, []. split; [|now left].
        unfold placesFrom. cbn. now rewrite Nat.add_0_r.
      * exists 0%nat, [((ply / 2 + 1)%nat, Chess.turn L (st_chess st))].
        split; [reflexivity|right]. exists ply.
        split; [lia|reflexivity].
Qed.

End Places.

End PlaceFacts.

(** X29: in the strict and the timed variant, with a rules library whose
    accepted moves pass the turn, the move log of the page shows every move
    event of a match in its place: no move is overwritten by a later one. *)
Theorem moveLog_shows_match (L : Chess.lib) (MOVE_TIMEOUT_MS : Q)
    (req : MatchRequest) (agent : Agent) (move : MatchMoveEvent) :
  mode req <> chaos ->
  turnAlternates L ->
  In move (moveEvents (sent (start L MOVE_TIMEOUT_MS req agent))) ->
  shown (groupMoves (moveEvents (sent (start L MOVE_TIMEOUT_MS req agent))))
    (moveNumOf move) (ev_activeColor move)
  = Some move.
Proof.
  intros Hmode Halt Hin.
  rewrite MoveLogFacts.shown_groupMoves.
  rewrite (MoveLogFacts.filter_unique _ move); [reflexivity| |exact Hin].
  clear Hin. unfold start.
  destruct (initialState L req) as [st0|] eqn:E; [|apply NoDup_nil_2].
  cbn [emit sent app moveEvents flat_map].
  assert (Hst0 : (length (st_moves st0) <= 0)%nat).
  { unfold initialState in E.
    destruct (Chess.load L _); [|discriminate E]. now injection E as <-. }
  destruct (PlaceFacts.loop_places L MOVE_TIMEOUT_MS req agent Hmode Halt
              MAX_PLY 0%nat st0 Hst0) as (k & tail & Hp & Htail).
  change (map (fun e => (moveNumOf e, ev_activeColor e)) ?l)
    with (map placeOf l).
  change (flat_map _ ?l) with (moveEvents l).
  rewrite Hp. now apply PlaceFacts.NoDup_places.
Qed.

(** ** The theorems at concrete matches on the scripted library *)

(** The chaos move for white's "e7e4" in the initial position: the pawn of
    black on e7 is put on e4 as a pawn of white. *)
Lemma applyChaosMove_spec_witness :
  exists result,
    applyChaosMove Scripted.lib Scripted.START (mkUci "e7" "e4" None) White 1
    = Some result
    /\ Js.split " " (chaos_fen result)
       = ["rnbqkbnr/pppp1ppp/8/8/4P3/8/PPPPPPPP/RNBQKBNR"; "b"; "-"; "-";
          "0"; "1"]
    /\ board_get
         (readPlacement "rnbqkbnr/pppp1ppp/8/8/4P3/8/PPPPPPPP/RNBQKBNR")
         4 4
       = Some (mkPiece Pawn White).
Proof.
  assert (Hboard : eightByEight
                     (Chess.board Scripted.lib
                        (Scripted.mkPosition Scripted.START [])))
    by (split; [reflexivity|vm_compute; repeat constructor]).
  destruct (applyChaosMove_spec Scripted.lib Scripted.START
              (Scripted.mkPosition Scripted.START []) (mkUci "e7" "e4" None)
              White 1 eq_refl Hboard eq_refl eq_refl)
    as (result & placement & Hr & Hs & Hp).
  assert (E : applyChaosMove Scripted.lib Scripted.START
                (mkUci "e7" "e4" None) White 1
              = Some (mkChaos
                        "rnbqkbnr/pppp1ppp/8/8/4P3/8/PPPPPPPP/RNBQKBNR b - - 0 1"
                        "e7e4"))
    by (vm_compute; reflexivity).
  rewrite E in Hr. injection Hr as <-.
  assert (placement = "rnbqkbnr/pppp1ppp/8/8/4P3/8/PPPPPPPP/RNBQKBNR") as ->.
  { vm_compute in Hs. congruence. }
  eexists. split; [reflexivity|]. split; [exact Hs|]. exact Hp.
Defined.

(** The bounds of the timeout at the sixth iteration of a one-minute match
    in which white has 250 ms left. *)
Lemma perMoveTimeout_bounds_witness :
  exists st,
    stateAt Scripted.lib 12000 (mkRequest bullet (Some (Finite 1)))
      Scripted.slowWhite 6 = Some st
    /\ (500 <= perMoveTimeout 12000 (mkRequest bullet (Some (Finite 1)))
                 (pc_get (st_clocks st) (activeAt Scripted.lib st)))%Q.
Proof.
  assert (C : match stateAt Scripted.lib 12000
                      (mkRequest bullet (Some (Finite 1)))
                      Scripted.slowWhite 6 with
              | Some _ => true
              | None => false
              end = true) by (vm_compute; reflexivity).
  destruct (stateAt Scripted.lib 12000 (mkRequest bullet (Some (Finite 1)))
              Scripted.slowWhite 6) as [st|] eqn:E;
    [|discriminate C].
  exists st. split; [reflexivity|].
  exact (proj1 (proj2 (perMoveTimeout_bounds Scripted.lib 12000
                         (mkRequest bullet (Some (Finite 1)))
                         Scripted.slowWhite 6 st eq_refl E))).
Defined.


(** The counters of white in a strict match in which white is rejected
    twice and then plays "e2e4": 1 and 2 after the rejections, with the
    rejection remembered, and 0 after the move, with nothing remembered;
    the counter of black stays at 0. *)
Lemma illegalCounts_steps_witness :
  let req := mkRequest strict None in
  let agent :=
    Scripted.script
      [mkThink (Returned "zzzz") 5; mkThink (Returned "zzzz") 5;
       mkThink (Returned "e2e4") 5] in
  exists st1 st2 st3,
    stateAt Scripted.lib 12000 req agent 1 = Some st1
    /\ stateAt Scripted.lib 12000 req agent 2 = Some st2
    /\ stateAt Scripted.lib 12000 req agent 3 = Some st3
    /\ st_illegalCounts st1 = mkPerColor 1%nat 0%nat
    /\ st_illegalCounts st2 = mkPerColor 2%nat 0%nat
    /\ pc_get (st_lastIllegal st2) White
       = Some (mkLastIllegal "zzzz" "Could not parse move text")
    /\ st_illegalCounts st3 = mkPerColor 0%nat 0%nat
    /\ pc_get (st_lastIllegal st3) White = None.
Proof.
  intros req agent.
  (* what the scripted library answers on the way *)
  pose (kind := fun (st : State Scripted.lib) (ply : nat) =>
          (match attemptOf Scripted.lib 12000 req agent st ply with
           | IllegalAttempt _ _ => 1 | LegalMove _ _ => 2 | _ => 0
           end,
           activeAt Scripted.lib st,
           match plyBody Scripted.lib 12000 req agent st ply with
           | Continue _ _ => true
           | _ => false
           end)%nat).
  assert (C0 : option_map
                 (fun st => (kind st 0%nat, st_illegalCounts st))
                 (stateAt Scripted.lib 12000 req agent 0)
               = Some ((1%nat, White, true), mkPerColor 0%nat 0%nat))
    by (vm_compute; reflexivity).
  assert (C1 : option_map (fun st => kind st 1%nat)
                 (stateAt Scripted.lib 12000 req agent 1)
               = Some (1%nat, White, true))
    by (vm_compute; reflexivity).
  assert (C2 : option_map
                 (fun st => (kind st 2%nat, pc_get (st_lastIllegal st) White))
                 (stateAt Scripted.lib 12000 req agent 2)
               = Some ((2%nat, White, true),
                       Some (mkLastIllegal "zzzz" "Could not parse move text")))
    by (vm_compute; reflexivity).
  assert (step : forall ply st,
            stateAt Scripted.lib 12000 req agent ply = Some st ->
            forall n, kind st ply = (n, White, true) ->
            exists st' evs,
              plyBody Scripted.lib 12000 req agent st ply = Continue st' evs
              /\ stateAt Scripted.lib 12000 req agent (S ply) = Some st'
              /\ pc_get (st_illegalCounts st') Black
                 = pc_get (st_illegalCounts st) Black
              /\ (n = 1%nat ->
                  pc_get (st_illegalCounts st') White
                  = S (pc_get (st_illegalCounts st) White))
              /\ (n = 2%nat ->
                  pc_get (st_illegalCounts st') White = 0%nat
                  /\ pc_get (st_lastIllegal st') White = None)).
  { intros ply st Hst n Hk. unfold kind in Hk.
    destruct (plyBody Scripted.lib 12000 req agent st ply)
      as [st' evs| |] eqn:Hbody; try discriminate Hk.
    exists st', evs. split; [reflexivity|].
    split; [cbn [stateAt]; now rewrite Hst, Hbody|].
    destruct (proj1 (illegalCounts_steps Scripted.lib 12000 req agent st ply)
                st' evs Hbody) as [Hother Hacting].
    assert (Hc : activeAt Scripted.lib st = White) by congruence.
    rewrite Hc in Hother, Hacting. cbn [other] in Hother.
    split; [exact Hother|].
    destruct (attemptOf Scripted.lib 12000 req agent st ply);
      (split; intros ->; try discriminate Hk); exact Hacting. }
  destruct (stateAt Scripted.lib 12000 req agent 0) as [st0|] eqn:E0;
    [|discriminate C0].
  cbn [option_map] in C0.
  assert (K0 : kind st0 0%nat = (1%nat, White, true)) by congruence.
  assert (N0 : st_illegalCounts st0 = mkPerColor 0%nat 0%nat) by congruence.
  destruct (step 0%nat st0 E0 _ K0) as (st1 & evs1 & _ & E1 & B1 & W1 & _).
  rewrite E1 in C1. cbn [option_map] in C1.
  assert (K1 : kind st1 1%nat = (1%nat, White, true)) by congruence.
  destruct (step 1%nat st1 E1 _ K1) as (st2 & evs2 & _ & E2 & B2 & W2 & _).
  rewrite E2 in C2. cbn [option_map] in C2.
  assert (K2 : kind st2 2%nat = (2%nat, White, true)) by congruence.
  assert (M2 : pc_get (st_lastIllegal st2) White
               = Some (mkLastIllegal "zzzz" "Could not parse move text"))
    by congruence.
  destruct (step 2%nat st2 E2 _ K2) as (st3 & evs3 & _ & E3 & B3 & _ & W3).
  specialize (W1 eq_refl). specialize (W2 eq_refl).
  destruct (W3 eq_refl) as [W3' M3].
  rewrite N0 in W1, B1. cbn in W1, B1.
  exists st1, st2, st3.
  assert (N1 : st_illegalCounts st1 = mkPerColor 1%nat 0%nat).
  { destruct (st_illegalCounts st1). cbn in *.
    congruence. }
  rewrite N1 in W2, B2. cbn in W2, B2.
  assert (N2 : st_illegalCounts st2 = mkPerColor 2%nat 0%nat).
  { destruct (st_illegalCounts st2). cbn in *.
    congruence. }
  rewrite N2 in B3. cbn in B3.
  assert (N3 : st_illegalCounts st3 = mkPerColor 0%nat 0%nat).
  { destruct (st_illegalCounts st3). cbn in *.
    congruence. }
  repeat split; assumption.
Defined.


(** The first ply of a chaos match whose first answer is "e2e5", which is
    executed as a chaos move, and the fifth ply of the match in which the
    white king has been taken, where [applyChaosMove] throws. *)
Lemma chaos_attempts_witness :
  (exists st st' evs,
      stateAt Scripted.lib 12000 (mkRequest chaos None)
        (Scripted.always "e2e5" 5) 0 = Some st
      /\ plyBody Scripted.lib 12000 (mkRequest chaos None)
           (Scripted.always "e2e5" 5) st 0 = Continue st' evs
      /\ st_moves st' = ["e2e5"])
  /\ (exists st evs,
        stateAt KingCapture.lib 12000 (mkRequest chaos None)
          KingCapture.answers 4 = Some st
        /\ plyBody KingCapture.lib 12000 (mkRequest chaos None)
             KingCapture.answers st 4 = Thrown evs
        /\ Forall not_end evs).
Proof.
  split.
  - set (req := mkRequest chaos None).
  set (agent := Scripted.always "e2e5" 5).
  assert (C : option_map
                (fun st =>
                   (match attemptOf Scripted.lib 12000 req agent st 0 with
                    | IllegalAttempt rawTrimmed cleaned =>
                        Some (rawTrimmed, cleaned)
                    | _ => None
                    end,
                    (st_fen st, st_moves st),
                    (activeAt Scripted.lib st, st_fullmove st)))
                (stateAt Scripted.lib 12000 req agent 0)
              = Some (Some ("e2e5", "e2e5"), (Scripted.START, []),
                      (White, 1%Z)))
    by (vm_compute; reflexivity).
  destruct (stateAt Scripted.lib 12000 req agent 0) as [st|] eqn:E;
    [|discriminate C].
  cbn [option_map] in C.
  destruct (attemptOf Scripted.lib 12000 req agent st 0)
    as [| | | |rt cl|] eqn:Ea; try discriminate C.
  assert (rt = "e2e5" /\ cl = "e2e5" /\ st_fen st = Scripted.START
          /\ st_moves st = [] /\ activeAt Scripted.lib st = White
          /\ st_fullmove st = 1%Z)
    as (-> & -> & Hf & Hm & Hc & Hn) by (repeat split; congruence).
  pose proof (proj2 (chaos_attempts Scripted.lib 12000 req agent 0 st eq_refl)
                "e2e5" "e2e5" (mkUci "e2" "e5" None) Ea eq_refl) as Hl.
  rewrite Hf, Hc, Hn in Hl.
  assert (Hk : applyChaosMove Scripted.lib Scripted.START
                 (mkUci "e2" "e5" None) White 1
               = Some (mkChaos
                         "rnbqkbnr/pppppppp/8/4P3/8/8/PPPP1PPP/RNBQKBNR b - - 0 1"
                         "e2e5")) by (vm_compute; reflexivity).
  rewrite Hk in Hl.
  cbn [chaos_fen chaos_san] in Hl.
  assert (Hv : Scripted.validFen
                 "rnbqkbnr/pppppppp/8/4P3/8/8/PPPP1PPP/RNBQKBNR b - - 0 1"
               = true) by (vm_compute; reflexivity).
  change (Chess.load Scripted.lib ?f)
    with (if Scripted.validFen f then Some (Scripted.mkPosition f [])
          else None) in Hl.
  rewrite Hv in Hl.
  destruct Hl as (st' & evs & e & Hbody & _ & _ & _ & Hmv & _).
  exists st, st', evs. split; [reflexivity|]. split; [exact Hbody|].
  now rewrite Hmv, Hm.
  - set (req := mkRequest chaos None).
  set (agent := KingCapture.answers).
  assert (C : option_map
                (fun st =>
                   (match attemptOf KingCapture.lib 12000 req agent st 4 with
                    | IllegalAttempt rawTrimmed cleaned =>
                        Some (rawTrimmed, cleaned)
                    | _ => None
                    end,
                    st_fen st,
                    (activeAt KingCapture.lib st, st_fullmove st)))
                (stateAt KingCapture.lib 12000 req agent 4)
              = Some (Some ("e1e2", "e1e2"), KingCapture.kingTaken,
                      (White, 3%Z)))
    by (vm_compute; reflexivity).
  destruct (stateAt KingCapture.lib 12000 req agent 4) as [st|] eqn:E;
    [|discriminate C].
  cbn [option_map] in C.
  destruct (attemptOf KingCapture.lib 12000 req agent st 4)
    as [| | | |rt cl|] eqn:Ea; try discriminate C.
  assert (rt = "e1e2" /\ cl = "e1e2" /\ st_fen st = KingCapture.kingTaken
          /\ activeAt KingCapture.lib st = White
          /\ st_fullmove st = 3%Z)
    as (-> & -> & Hf & Hc & Hn) by (repeat split; congruence).
  pose proof (proj2 (chaos_attempts KingCapture.lib 12000 req agent 4 st
                       eq_refl)
                "e1e2" "e1e2" (mkUci "e1" "e2" None) Ea eq_refl) as Hl.
  rewrite Hf, Hc, Hn in Hl.
  assert (Hk : applyChaosMove KingCapture.lib KingCapture.kingTaken
                 (mkUci "e1" "e2" None) White 3 = None)
    by (vm_compute; reflexivity).
  rewrite Hk in Hl. destruct Hl as (evs & Hbody & Hev).
  exists st, evs. split; [reflexivity|]. now split.
Defined.


(** The fool's mate, played in a timed match with answers in SAN and in
    coordinate notation, and replayed from its history. *)
Lemma history_replays_to_finalFen_witness :
  exists result,
    In (EndEvent result)
      (sent (start Scripted.lib 12000 (mkRequest bullet None)
               (Scripted.script
                  [mkThink (Returned "f3") 5; mkThink (Returned "e7e5") 7;
                   mkThink (Returned "g2g4") 3; mkThink (Returned "Qh4#") 4])))
    /\ moves result = ["f2f3"; "e7e5"; "g2g4"; "d8h4"]
    /\ reason result = checkmate
    /\ replayedFen Scripted.lib (moves result) = Some (finalFen result).
Proof.
  assert (H : exists result,
             In (EndEvent result)
               (sent (start Scripted.lib 12000 (mkRequest bullet None)
                        (Scripted.script
                           [mkThink (Returned "f3") 5;
                            mkThink (Returned "e7e5") 7;
                            mkThink (Returned "g2g4") 3;
                            mkThink (Returned "Qh4#") 4])))
             /\ moves result = ["f2f3"; "e7e5"; "g2g4"; "d8h4"]
             /\ reason result = checkmate).
  { vm_compute. eexists. split; [do 5 right; left; reflexivity|].
    split; reflexivity. }
  destruct H as (result & Hin & Hm & Hr).
  exists result. repeat split; try assumption.
  exact (history_replays_to_finalFen Scripted.lib 12000
           (mkRequest bullet None) _ result ltac:(discriminate)
           ScriptedFacts.scripted_starts ScriptedFacts.scripted_replays Hin).
Defined.

(** The parser on texts that do not name two squares and on texts that
    do. *)
Lemma parseUciMove_spec_witness :
  parseUciMove "zzzz" = None
  /\ parseUciMove "i9e4" = None
  /\ parseUciMove "a0a1" = None
  /\ parseUciMove "e2e4" = Some (mkUci "e2" "e4" None)
  /\ parseUciMove "Move: E7-E8=Q" = Some (mkUci "e7" "e8" (Some Queen))
  /\ parseUciMove "e2e4x" = Some (mkUci "e2" "e4" None).
Proof.
  assert (rejects : forall raw,
            squarePattern (Js.slice 0 2 (cleaned_text raw)) = false ->
            parseUciMove raw = None).
  { intros raw H. apply (proj1 (parseUciMove_spec raw)).
    do 4 right. now left. }
  assert (accepts : forall raw,
            negb (String.eqb (cleaned_text raw) EmptyString)
            && negb (String.eqb (cleaned_text raw) "resign")
            && (4 <=? String.length (cleaned_text raw))%nat
            && (String.length (cleaned_text raw) <=? 5)%nat
            && squarePattern (Js.slice 0 2 (cleaned_text raw))
            && squarePattern (Js.slice 2 4 (cleaned_text raw)) = true ->
            parseUciMove raw
            = Some (mkUci (Js.slice 0 2 (cleaned_text raw))
                      (Js.slice 2 4 (cleaned_text raw))
                      (promotion_of (Js.at_ 4 (cleaned_text raw))))).
  { intros raw H.
    destruct (parseUciMove_spec raw) as [Hnull [Hn|Hs]]; [|exact Hs].
    exfalso. apply Hnull in Hn.
    repeat (apply andb_prop in H as [H ?]).
    destruct Hn as [E|[E|[E|[E|[E|E]]]]].
    - rewrite E in H. discriminate H.
    - rewrite E in H4. discriminate H4.
    - apply Nat.leb_le in H3. lia.
    - apply Nat.leb_le in H2. lia.
    - congruence.
    - congruence. }
  split; [apply rejects; reflexivity|].
  split; [apply rejects; reflexivity|].
  split; [apply rejects; reflexivity|].
  split; [apply (accepts "e2e4"); reflexivity|].
  split; [apply (accepts "Move: E7-E8=Q"); reflexivity|].
  apply (accepts "e2e4x"); reflexivity.
Defined.

(** The clocks of a timed match asked for with the double nearest to 1.1
    minutes, whose exact product with 60000 is not a double, with two and a
    half minutes, with ten minutes and with a fifth of a minute. *)
Lemma initialClockMs_spec_witness :
  (exists st,
     initialState Scripted.lib
       (mkRequest bullet
          (Some (Finite (2476979795053773 # 2251799813685248))))
     = Some st
     /\ st_clocks st = mkPerColor 66000%Q 66000%Q)
  /\ (initialClockMs (mkRequest bullet (Some (Finite (5 # 2)))) == 150000)%Q
  /\ (initialClockMs (mkRequest bullet (Some (Finite 10))) == 180000)%Q
  /\ (initialClockMs (mkRequest bullet (Some (Finite (1 # 5)))) == 60000)%Q.
Proof.
  destruct initialClockMs_spec as (Hfinite & _ & _ & _ & _ & Hstate).
  split; [|split; [|split]].
  - destruct (Hstate Scripted.lib
                (mkRequest bullet
                   (Some (Finite (2476979795053773 # 2251799813685248))))
                (Scripted.mkPosition Scripted.START []) eq_refl)
      as (st & Hst & Hclocks).
    exists st. split; [exact Hst|]. rewrite Hclocks.
    vm_compute. reflexivity.
  - destruct (Hfinite (5 # 2)) as (_ & _ & _ & _ & Hwhole).
    apply (Hwhole 150000%Z). reflexivity.
  - destruct (Hfinite 10%Q) as (_ & _ & _ & _ & Hwhole).
    apply (Hwhole 180000%Z). reflexivity.
  - destruct (Hfinite (1 # 5)) as (_ & _ & _ & _ & Hwhole).
    apply (Hwhole 60000%Z). reflexivity.
Defined.

(** ** The theorems about the model call at concrete calls *)

(** Two silent calls, then "e2e4" with white space around it. *)
Lemma fetchMove_returns_witness :
  "e2e4" <> EmptyString
  /\ trimmedText "e2e4"
  /\ exists chunks,
       ScriptedCalls.silentTwice 3%nat = Streamed chunks
       /\ "e2e4" = Js.trim (String.concat EmptyString chunks).
Proof.
  exact (fetchMove_returns ScriptedCalls.silentTwice
           (mkFetch 3 [1200; 2000]%Z (Returned "e2e4")) "e2e4"
           eq_refl eq_refl).
Defined.

(** A gateway that stays overloaded: the third error is thrown. *)
Lemma fetchMove_throws_witness :
  (3 = 3 /\ blankStream (ScriptedCalls.busy 3%nat)
   /\ "Service Overloaded" = "Model returned an empty move")%nat
  \/ (exists name,
        ScriptedCalls.busy 3%nat = Failed name "Service Overloaded"
        /\ (3 = 3 \/ overloaded name "Service Overloaded" = false))%nat.
Proof.
  exact (fetchMove_throws ScriptedCalls.busy
           (mkFetch 3 [1500; 2500]%Z (Threw "Service Overloaded"))
           "Service Overloaded" eq_refl eq_refl).
Defined.

(** The second call of the overloaded gateway is followed by a backoff of
    2500 ms. *)
Lemma fetchMove_retries_witness :
  (blankStream (ScriptedCalls.busy 2%nat)
   /\ [1500; 2500]%Z !! 1%nat = Some (800 * Z.of_nat 2 + 400)%Z)
  \/ (overloadFailure (ScriptedCalls.busy 2%nat)
      /\ [1500; 2500]%Z !! 1%nat = Some (1000 * Z.of_nat 2 + 500)%Z).
Proof.
  apply (fetchMove_retries ScriptedCalls.busy
           (mkFetch 3 [1500; 2500]%Z (Threw "Service Overloaded")) 2%nat
           eq_refl).
  cbn. lia.
Defined.

(** White's model is silent at the first iteration of a strict match. *)
Lemma silent_model_strike_witness :
  exists st,
    initialState Scripted.lib (mkRequest strict None) = Some st
    /\ (attemptOf Scripted.lib 12000 (mkRequest strict None)
          (Scripted.script
             [mkThink (Threw "Model returned an empty move") 3300]) st 0
        = FlagFall
        \/ attemptOf Scripted.lib 12000 (mkRequest strict None)
             (Scripted.script
                [mkThink (Threw "Model returned an empty move") 3300]) st 0
           = EmptyAttempt).
Proof.
  eexists. split; [reflexivity|].
  exact (proj2 (proj2 (silent_model_strike Scripted.lib 12000
                         (mkRequest strict None)
                         (Scripted.script
                            [mkThink (Threw "Model returned an empty move")
                               3300])
                         _ 0 ScriptedCalls.silent
                         (mkFetch 3 [1200; 2000]%Z
                            (Threw "Model returned an empty move"))
                         (fun _ => ex_intro _ [" "] (conj eq_refl eq_refl))
                         eq_refl eq_refl))).
Defined.

(** Two events and the start of a third, cut in the middle of the first. *)
Lemma readStream_wire_witness :
  parsed (readStream ["{a"; String "}" (String newline "{b}");
                      String newline "{c"])
  = List.filter (fun t => negb (blankLine t)) ["{a}"; "{b}"]
  /\ buffer (readStream ["{a"; String "}" (String newline "{b}");
                         String newline "{c"])
     = "{c".
Proof.
  apply (readStream_wire ["{a}"; "{b}"] "{c"); [|reflexivity|reflexivity].
  repeat constructor.
Defined.

(** ** The theorems about the results at concrete matches *)

(** The fool's mate in a strict match: black wins by checkmate. *)
Lemma winner_matches_reason_witness :
  exists result,
    In (EndEvent result)
      (sent (start Scripted.lib 12000 (mkRequest strict None)
               (Scripted.script
                  [mkThink (Returned "f2f3") 5; mkThink (Returned "e7e5") 7;
                   mkThink (Returned "g2g4") 3; mkThink (Returned "Qh4#") 4])))
    /\ reason result = checkmate
    /\ (winner result = draw <-> drawnReason (reason result) = true).
Proof.
  assert (H : exists result,
             In (EndEvent result)
               (sent (start Scripted.lib 12000 (mkRequest strict None)
                        (Scripted.script
                           [mkThink (Returned "f2f3") 5;
                            mkThink (Returned "e7e5") 7;
                            mkThink (Returned "g2g4") 3;
                            mkThink (Returned "Qh4#") 4])))
             /\ reason result = checkmate).
  { vm_compute. eexists. split; [do 5 right; left; reflexivity|].
    reflexivity. }
  destruct H as (result & Hin & Hr).
  exists result. split; [exact Hin|]. split; [exact Hr|].
  exact (proj1 (winner_matches_reason Scripted.lib 12000
                  (mkRequest strict None) _ result Hin)).
Defined.

(** A chaos match in which white plays "e2e5" and black resigns: the
    history is the chaos move. *)
Lemma result_moves_announced_witness :
  exists result,
    In (EndEvent result)
      (sent (start Scripted.lib 12000 (mkRequest chaos None)
               (Scripted.script [mkThink (Returned "e2e5") 5])))
    /\ moves result = ["e2e5"]
    /\ moves result
       = movesOf
           (sent (start Scripted.lib 12000 (mkRequest chaos None)
                    (Scripted.script [mkThink (Returned "e2e5") 5]))).
Proof.
  assert (H : exists result,
             In (EndEvent result)
               (sent (start Scripted.lib 12000 (mkRequest chaos None)
                        (Scripted.script [mkThink (Returned "e2e5") 5])))
             /\ moves result = ["e2e5"]).
  { vm_compute. eexists. split; [do 4 right; left; reflexivity|].
    reflexivity. }
  destruct H as (result & Hin & Hm).
  exists result. split; [exact Hin|]. split; [exact Hm|].
  exact (result_moves_announced Scripted.lib 12000 (mkRequest chaos None)
           _ result Hin).
Defined.

(** The one-minute match in which white's flag falls at the sixth
    iteration. *)
Lemma result_clocks_witness :
  exists result,
    In (EndEvent result)
      (sent (start Scripted.lib 12000 (mkRequest bullet (Some (Finite 1)))
               Scripted.slowWhite))
    /\ reason result = timeout
    /\ match clocks result with
       | Some c =>
           mode (mkRequest bullet (Some (Finite 1))) = bullet
           /\ (0 <= whiteMs c)%Q /\ (0 <= blackMs c)%Q
       | None => mode (mkRequest bullet (Some (Finite 1))) <> bullet
       end.
Proof.
  assert (H : exists result,
             In (EndEvent result)
               (sent (start Scripted.lib 12000
                        (mkRequest bullet (Some (Finite 1)))
                        Scripted.slowWhite))
             /\ reason result = timeout).
  { vm_compute. eexists. split; [do 8 right; left; reflexivity|].
    reflexivity. }
  destruct H as (result & Hin & Hr).
  exists result. split; [exact Hin|]. split; [exact Hr|].
  exact (result_clocks Scripted.lib 12000
           (mkRequest bullet (Some (Finite 1))) _ result Hin).
Defined.

(** A strict match in which white answers "zzzz" three times. *)
Lemma result_strikes_witness :
  exists result,
    In (EndEvent result)
      (sent (start Scripted.lib 12000 (mkRequest strict None)
               (Scripted.always "zzzz" 5)))
    /\ (pc_get (illegalCounts result) White <= 3)%nat
    /\ (pc_get (illegalCounts result) White = 3%nat
        <-> reason result = illegal /\ winner result = wins (other White)).
Proof.
  assert (H : exists result,
             In (EndEvent result)
               (sent (start Scripted.lib 12000 (mkRequest strict None)
                        (Scripted.always "zzzz" 5)))).
  { vm_compute. eexists. do 4 right; left; reflexivity. }
  destruct H as (result & Hin).
  exists result. split; [assumption|].
  exact (result_strikes Scripted.lib 12000 (mkRequest strict None) _ result
           White Hin ltac:(discriminate)).
Defined.

(** The strict match of a model that always answers "zzzz". *)
Lemma stream_well_ended_witness :
  wellEnded
    (start Scripted.lib 12000 (mkRequest strict None)
       (Scripted.always "zzzz" 10)).
Proof.
  exact (proj1 (stream_well_ended Scripted.lib 12000 (mkRequest strict None)
                  (Scripted.always "zzzz" 10) ltac:(discriminate)
                  ScriptedFacts.scripted_loads_start)).
Defined.

(** ** The theorems about the chaos move at concrete moves *)

(** White's "e2e5" in the initial position. *)
Lemma activeColor_after_chaos_witness :
  exists result,
    applyChaosMove Scripted.lib Scripted.START (mkUci "e2" "e5" None) White 1
    = Some result
    /\ activeColorFromFen (chaos_fen result) = "b"
    /\ pageActiveColor (chaos_fen result) = Black.
Proof.
  eexists. split; [reflexivity|].
  exact (activeColor_after_chaos Scripted.lib Scripted.START
           (mkUci "e2" "e5" None) White 1 _ eq_refl).
Defined.

(** The text that the page holds before the first move. *)
Lemma activeColor_without_field_witness :
  activeColorFromFen "start" = "w" /\ pageActiveColor "start" = Black.
Proof. exact (activeColor_without_field "start" eq_refl). Defined.

(** White's "e2e5" in the initial position: the square e2 is emptied and
    the square d1 keeps the queen. *)
Lemma applyChaosMove_frame_witness :
  exists board' result,
    applyChaosMove Scripted.lib Scripted.START (mkUci "e2" "e5" None) White 1
    = Some result
    /\ Js.split " " (chaos_fen result) !! 0%nat = Some (boardToFen board')
    /\ board_get board' 6 4 = None
    /\ board_get board' 7 3 = Some (mkPiece Queen White).
Proof.
  destruct (applyChaosMove_frame Scripted.lib Scripted.START
              (Scripted.mkPosition Scripted.START []) (mkUci "e2" "e5" None)
              White 1 eq_refl eq_refl eq_refl eq_refl)
    as (fr & ff & tr & tf & board' & result & Ef & Et & Hr & Hs & _ & Hsrc
        & Hrest).
  vm_compute in Ef, Et. injection Ef as <- <-. injection Et as <- <-.
  exists board', result. split; [exact Hr|]. split; [exact Hs|].
  split; [apply Hsrc; discriminate|].
  rewrite (Hrest 7 3)%nat by discriminate. reflexivity.
Defined.

(** Black's "e7e4" at the first full move of a chaos match. *)
Lemma fullmoveOf_after_chaos_witness :
  exists result,
    applyChaosMove Scripted.lib Scripted.START (mkUci "e7" "e4" None) Black 1
    = Some result
    /\ fullmoveOf (chaos_fen result) 1 = 2%Z.
Proof.
  assert (H : applyChaosMove Scripted.lib Scripted.START
                (mkUci "e7" "e4" None) Black 1
              = Some (mkChaos
                        "rnbqkbnr/pppp1ppp/8/8/4p3/8/PPPPPPPP/RNBQKBNR w - - 0 2"
                        "e7e4"))
    by (vm_compute; reflexivity).
  eexists. split; [exact H|].
  rewrite (fullmoveOf_after_chaos Scripted.lib Scripted.START
             (mkUci "e7" "e4" None) Black 1 _ H).
  reflexivity.
Defined.

(** Two ranks, written as "4P3/8". *)
Lemma boardToFen_injective_witness :
  [[None; None; None; None; Some (mkPiece Pawn White); None; None; None];
   replicate 8 None]
  = [replicate 4 None ++ [Some (mkPiece Pawn White)] ++ replicate 3 None;
     replicate 8 None]%list.
Proof.
  apply boardToFen_injective; [| |reflexivity];
    (split; [discriminate|repeat constructor; cbn; lia]).
Defined.

(** ** The theorems about the pairings at concrete lists of models *)

(** Three models: "a" meets "c" with the white pieces. *)
Lemma pairings_round_robin_witness :
  (In (mkPairing "a" "c") (pairings ["a"; "b"; "c"])
   \/ In (mkPairing "c" "a") (pairings ["a"; "b"; "c"]))
  /\ ~ (In (mkPairing "a" "c") (pairings ["a"; "b"; "c"])
        /\ In (mkPairing "c" "a") (pairings ["a"; "b"; "c"])).
Proof.
  assert (Hd : NoDup ["a"; "b"; "c"]).
  { apply NoDup_ListNoDup. repeat constructor; cbn; intuition discriminate. }
  apply (proj2 (proj2 (pairings_round_robin ["a"; "b"; "c"] Hd)));
    [now left|do 2 right; now left|discriminate].
Defined.

(** The name "a" given twice. *)
Lemma pairings_repeated_name_witness :
  In (mkPairing "a" "a") (pairings ["a"; "b"; "a"]).
Proof.
  exact (pairings_repeated_name ["a"; "b"; "a"] 0 2 "a" ltac:(lia) eq_refl
           eq_refl).
Defined.

(** ** The theorems about the tournament at concrete matches *)

(** A strict match in which white answers "zzzz" three times. *)
Lemma playMatch_agrees_witness :
  exists result result',
    Tournament.playMatch Scripted.lib 12000 (mkRequest strict None)
      (Scripted.always "zzzz" 5) = Some result
    /\ reason result = illegal
    /\ In (EndEvent result')
         (sent (start Scripted.lib 12000 (mkRequest strict None)
                  (Scripted.always "zzzz" 5)))
    /\ result = withoutSummary result'.
Proof.
  assert (H : exists result,
             Tournament.playMatch Scripted.lib 12000 (mkRequest strict None)
               (Scripted.always "zzzz" 5) = Some result
             /\ reason result = illegal).
  { vm_compute. eexists. split; reflexivity. }
  destruct H as (result & Hplay & Hr).
  destruct (playMatch_agrees Scripted.lib 12000 (mkRequest strict None)
              (Scripted.always "zzzz" 5) result
              (fun _ _ _ => ex_intro _ "zzzz" eq_refl) Hplay
              ltac:(rewrite Hr; discriminate))
    as (result' & Hin & E).
  exists result, result'. now repeat split.
Defined.

(** A timed match on the scripted library. *)
Lemma playMatch_returns_witness :
  is_Some (Tournament.playMatch Scripted.lib 12000
             (mkRequest bullet (Some (Finite 1))) Scripted.slowWhite).
Proof.
  exact (playMatch_returns Scripted.lib 12000
           (mkRequest bullet (Some (Finite 1))) Scripted.slowWhite
           ltac:(discriminate) ScriptedFacts.scripted_loads_start).
Defined.
(** ** The theorems about the standings at a concrete tournament *)

(** Two models and one game, which "b" wins with the white pieces by
    checkmate. *)
Lemma standings_rows_witness :
  exists table row,
    standingsTable ["a"; "b"]
      [mkMatch "b" "a"
         (mkResult (wins White) checkmate ["f2f3"] "1. f3" (mkPerColor 0 0)%nat
            None Scripted.START None)]
      (fun _ => None) = Some table
    /\ t_rows table "b" = Some row
    /\ balanced row
    /\ s_games row = 1%nat.
Proof.
  destruct (standingsTable ["a"; "b"]
              [mkMatch "b" "a"
                 (mkResult (wins White) checkmate ["f2f3"] "1. f3"
                    (mkPerColor 0 0)%nat None Scripted.START None)]
              (fun _ => None)) as [table|] eqn:E;
    [|vm_compute in E; discriminate E].
  pose proof (standings_rows _ _ _ table "b" E) as H.
  destruct (t_rows table "b") as [row|] eqn:Er;
    [|exfalso; destruct H as [H|H]; [apply H; right; now left
                                    |discriminate H]].
  exists table, row. split; [reflexivity|]. split; [exact Er|].
  destruct H as (_ & _ & _ & Hb & Hg). split; [exact Hb|exact Hg].
Defined.

(** Two models: a game against a player that is no model throws, a game
    against a player named as a function of [Object.prototype] does
    not. *)
Lemma standings_throws_witness :
  let result :=
    mkResult (wins White) checkmate ["f2f3"] "1. f3" (mkPerColor 0 0)%nat
      None Scripted.START None in
  standingsTable ["a"; "b"] [mkMatch "a" "c" result] (fun _ => None) = None
  /\ standingsTable ["a"; "b"] [mkMatch "a" "toString" result]
       (fun _ => None) <> None.
Proof.
  intros result.
  assert (Hmodels : ~ In "__proto__" ["a"; "b"])
    by (intros [H|[H|[]]]; discriminate H).
  split.
  - apply (standings_throws ["a"; "b"] [mkMatch "a" "c" result]
             (fun _ => None) Hmodels).
    + intros g [<-|[]]. split; discriminate.
    + exists (mkMatch "a" "c" result). split; [now left|]. right.
      split; [intros [H|[H|[]]]; discriminate H|reflexivity].
  - intros H.
    apply (standings_throws ["a"; "b"] [mkMatch "a" "toString" result]
             (fun _ => None) Hmodels) in H.
    + destruct H as (g & [<-|[]] & [[H _]|[_ H]]).
      * apply H. now left.
      * discriminate H.
    + intros g [<-|[]]. split; discriminate.
Defined.

(** The one game of two models. *)
Lemma standings_of_round_robin_witness :
  is_Some
    (standingsTable ["a"; "b"]
       [mkMatch "b" "a"
          (mkResult (wins White) checkmate ["f2f3"] "1. f3"
             (mkPerColor 0 0)%nat None Scripted.START None)]
       (fun _ => None)).
Proof.
  apply (standings_of_round_robin ["a"; "b"]
           [mkMatch "b" "a"
              (mkResult (wins White) checkmate ["f2f3"] "1. f3"
                 (mkPerColor 0 0)%nat None Scripted.START None)]
           (fun _ => None)).
  reflexivity.
Defined.

(** ** The theorems about the move log at concrete moves *)

(** The two moves of the first full move. *)
Lemma groupMoves_complete_witness :
  shown
    (groupMoves
       [mkMoveEvent "e2e4" Scripted.START (Some "e4") (Some 1%nat) 0 White
          (mkPerColor 0 0)%nat None None 5;
        mkMoveEvent "e7e5" Scripted.START (Some "e5") (Some 1%nat) 1 Black
          (mkPerColor 0 0)%nat None None 7])
    1 Black
  = Some
      (mkMoveEvent "e7e5" Scripted.START (Some "e5") (Some 1%nat) 1 Black
         (mkPerColor 0 0)%nat None None 7).
Proof.
  apply (groupMoves_complete
           [mkMoveEvent "e2e4" Scripted.START (Some "e4") (Some 1%nat) 0 White
              (mkPerColor 0 0)%nat None None 5;
            mkMoveEvent "e7e5" Scripted.START (Some "e5") (Some 1%nat) 1 Black
              (mkPerColor 0 0)%nat None None 7]
           (mkMoveEvent "e7e5" Scripted.START (Some "e5") (Some 1%nat) 1 Black
              (mkPerColor 0 0)%nat None None 7)).
  - apply NoDup_ListNoDup. repeat constructor; cbn; intuition discriminate.
  - right. now left.
Defined.

(** The fool's mate: the log shows white's first move. *)
Lemma moveLog_shows_match_witness :
  exists move,
    In move
      (moveEvents
         (sent (start Scripted.lib 12000 (mkRequest strict None)
                  (Scripted.script
                     [mkThink (Returned "f2f3") 5;
                      mkThink (Returned "e7e5") 7;
                      mkThink (Returned "g2g4") 3;
                      mkThink (Returned "Qh4#") 4]))))
    /\ ev_move move = "f2f3"
    /\ shown
         (groupMoves
            (moveEvents
               (sent (start Scripted.lib 12000 (mkRequest strict None)
                        (Scripted.script
                           [mkThink (Returned "f2f3") 5;
                            mkThink (Returned "e7e5") 7;
                            mkThink (Returned "g2g4") 3;
                            mkThink (Returned "Qh4#") 4])))))
         (moveNumOf move) (ev_activeColor move)
       = Some move.
Proof.
  assert (H : exists move,
             In move
               (moveEvents
                  (sent (start Scripted.lib 12000 (mkRequest strict None)
                           (Scripted.script
                              [mkThink (Returned "f2f3") 5;
                               mkThink (Returned "e7e5") 7;
                               mkThink (Returned "g2g4") 3;
                               mkThink (Returned "Qh4#") 4]))))
             /\ ev_move move = "f2f3").
  { vm_compute. eexists. split; [left; reflexivity|reflexivity]. }
  destruct H as (move & Hin & Hm).
  exists move. split; [exact Hin|]. split; [exact Hm|].
  exact (moveLog_shows_match Scripted.lib 12000 (mkRequest strict None) _
           move ltac:(discriminate) PlaceFacts.scripted_alternates Hin).
Defined.
